(** * Reliable causal multicast chat: a shallow embedding of
    [chat_process/chat_process.py] and [chat_process/main.py]

  The Python objects are modelled as records, their methods as
  computations in a state-and-exception monad: a method reads and writes
  the fields of [self] in place, and an exception leaves the object in
  the state it had when the exception was raised.  A float is a binary64
  number, held as the rational it denotes; sums, differences and
  products of floats are rounded to binary64.  The identifier of the
  process itself and the destination of a send are natural numbers;
  message ids and the entries of timestamps are integers of [Z], and so
  is the sender that a datagram of [chat_process.py] names, a Python
  [int] of either sign, with which the code indexes the vector timestamp
  and the list of hosts.  A [str] is held as its UTF-8 encoding. *)

From Stdlib Require Import QArith Lqa Sorted Qround Qabs Qpower.
From stdpp Require Import gmap strings list.

Open Scope Z_scope.

(** ** Python effects *)

Module Py.

Inductive exn := IndexError.

(** [OutOfFuel] is the outcome of a loop that was cut off by the bound of
    the model; no method of the source produces it. *)
Inductive outcome (A : Type) :=
| Ret (a : A)
| Raise (e : exn)
| OutOfFuel.
Arguments Ret {A} a.
Arguments Raise {A} e.
Arguments OutOfFuel {A}.

Definition M (S A : Type) : Type := S -> outcome A * S.

Definition ret {S A} (a : A) : M S A := fun st => (Ret a, st).

Definition bind {S A B} (c : M S A) (k : A -> M S B) : M S B :=
  fun st =>
    match c st with
    | (Ret a, st') => k a st'
    | (Raise e, st') => (Raise e, st')
    | (OutOfFuel, st') => (OutOfFuel, st')
    end.

Definition raise {S A} (e : exn) : M S A := fun st => (Raise e, st).
Definition out_of_fuel {S A} : M S A := fun st => (OutOfFuel, st).
Definition gets {S A} (f : S -> A) : M S A := fun st => (Ret (f st), st).
Definition modify {S} (f : S -> S) : M S unit := fun st => (Ret tt, f st).

Declare Scope py_scope.
Delimit Scope py_scope with py.
Notation "x <- c ;; k" := (bind c (fun x => k))
  (at level 100, c at next level, right associativity) : py_scope.
Notation "c ;; k" := (bind c (fun _ => k))
  (at level 100, right associativity) : py_scope.

(** [l[i]] for a list and an index that is not negative. *)
Definition index {S A} (l : list A) (i : nat) : M S A :=
  match l !! i with
  | Some x => ret x
  | None => raise IndexError
  end.

(** The position that Python's indexing gives the index [i], an [int] of
    either sign, in a list of length [n]: a negative index counts from
    the end; an index that is out of range gets the position [n], which
    is out of range. *)
Definition position (n : nat) (i : Z) : nat :=
  if bool_decide (0 <= i) then Z.to_nat i
  else if bool_decide (- Z.of_nat n <= i) then Z.to_nat (Z.of_nat n + i)
  else n.

(** [l[i]] for a list and an [int]. *)
Definition index_int {S A} (l : list A) (i : Z) : M S A :=
  index l (position (length l) i).

(** [for x in l: acc = body(acc, x)], [l] not mutated by the body. *)
Fixpoint foldM {S A B} (body : B -> A -> M S B) (l : list A) (acc : B) : M S B :=
  match l with
  | [] => ret acc
  | x :: l' => bind (body acc x) (fun acc' => foldM body l' acc')
  end.

(** [for x in l: body(x)], [l] not mutated by the body. *)
Fixpoint for_each {S A} (body : A -> M S unit) (l : list A) : M S unit :=
  match l with
  | [] => ret tt
  | x :: l' => bind (body x) (fun _ => for_each body l')
  end.

(** A computation that does not stop for want of fuel. *)
Definition in_fuel {S A} (c : M S A) : Prop := forall st, (c st).1 <> OutOfFuel.

(** A computation whose final state, whatever its outcome, is related to
    its initial state by [R]. *)
Definition preserves {S A} (R : S -> S -> Prop) (c : M S A) : Prop :=
  forall st, R st (c st).2.

(** Two states with the same field [f]. *)
Definition keeps {S X} (f : S -> X) (st st' : S) : Prop := f st' = f st.

(** *** Strings

    A [str] is a sequence of characters; it is held as the bytes of its
    UTF-8 encoding, in which a character is one byte that is not a
    continuation byte (a byte [10xxxxxx]), followed by the continuation
    bytes of the character. *)
Definition continuation (c : Ascii.ascii) : bool :=
  match c with
  | Ascii.Ascii _ _ _ _ _ _ b6 b7 => b7 && negb b6
  end.

Fixpoint continuations (s : string) : bool :=
  match s with
  | EmptyString => true
  | String c s' => continuation c && continuations s'
  end.

(** The encoding of one character. *)
Definition one_character (s : string) : bool :=
  match s with
  | EmptyString => false
  | String c s' => negb (continuation c) && continuations s'
  end.

(** [s[:-1]]: [s] without its last character; the empty string for the
    empty string. *)
Fixpoint drop_last (s : string) : string :=
  match s with
  | EmptyString => EmptyString
  | String c s' => if continuations s' then EmptyString else String c (drop_last s')
  end.

(** *** Floats

    [round64 x] is the binary64 number nearest to [x], the one with the
    even significand when two are as near: the multiple of the unit in
    the last place of [x] nearest to [x].  The exponent of that unit is
    52 less than the exponent of [x], and -1074 at least (subnormal
    numbers).  Beyond the largest binary64 number Python goes on with
    infinities; these are outside this model, and [finite64] marks the
    rationals whose rounding is in range. *)
Definition pow2 (e : Z) : Q := (2 ^ e)%Q.

(** The integer part of the binary logarithm of [x > 0]. *)
Definition ilog2 (x : Q) : Z :=
  let e := Z.log2 (Qnum x) - Z.log2 (Z.pos (Qden x)) in
  if Qle_bool (pow2 e) x then e else e - 1.

Definition ulp_exponent (x : Q) : Z := Z.max (ilog2 (Qabs x) - 52) (-1074).

Definition round_half_even (x : Q) : Z :=
  let f := Qfloor x in
  match (x - inject_Z f ?= 1 # 2)%Q with
  | Lt => f
  | Gt => f + 1
  | Eq => if Z.even f then f else f + 1
  end.

Definition round64 (x : Q) : Q :=
  if Qeq_bool x 0 then 0%Q
  else (inject_Z (round_half_even (x / pow2 (ulp_exponent x))) * pow2 (ulp_exponent x))%Q.

(** [x + y], [x - y] and [x * y] on floats. *)
Definition float_add (x y : Q) : Q := round64 (x + y).
Definition float_sub (x y : Q) : Q := round64 (x - y).
Definition float_mul (x y : Q) : Q := round64 (x * y).

(** The finite binary64 numbers, and the rationals that round to one. *)
Definition binary64 (r : Q) : Prop :=
  ∃ m k : Z, (r == inject_Z m * pow2 k)%Q ∧ Z.abs m < 2 ^ 53 ∧ -1074 <= k <= 971.

Definition finite64 (x : Q) : Prop := (Qabs x < pow2 1024 - pow2 970)%Q.

End Py.

Import Py.
Open Scope py_scope.

(** ** [chat_process.py]: class [ChatProcess] *)

Module ChatProcess.

(** A holdback entry is the tuple [(sender, v, message)], an
    unacknowledged send the tuple
    [(destination, msg_id, message, timestamp)], an element of the
    priority queue the tuple [(end_time, message, ip, port)]. *)
Definition entry : Type := Z * list Z * string.
Definition unack : Type := nat * Z * string * list Z.
Definition packet : Type := Q * string * string * Z.

Record ChatProcess := {
  my_id : nat;
  delay_time : Q;
  drop_rate : Q;
  message_id_counter : Z;
  has_received : gmap (Z * Z) bool;
  has_acknowledged : gmap (Z * Z) bool;
  unack_messages : list unack;
  holdback_queue : list entry;
  queue : list packet;
  my_timestamp : list Z;
  (* the world around the object: what [sock.sendto] wrote, what
     [deliver] printed, the values [random.random()] and [time.time()]
     are going to return *)
  sock_sent : list (string * (string * Z));
  stdout : list (Z * string);
  random_draws : nat -> Q;
  random_pos : nat;
  clock : nat -> Q;
  clock_pos : nat
}.

Definition set_message_id_counter (x : Z) (st : ChatProcess) :=
  {| my_id := my_id st; delay_time := delay_time st; drop_rate := drop_rate st;
     message_id_counter := x; has_received := has_received st;
     has_acknowledged := has_acknowledged st; unack_messages := unack_messages st;
     holdback_queue := holdback_queue st; queue := queue st;
     my_timestamp := my_timestamp st; sock_sent := sock_sent st; stdout := stdout st;
     random_draws := random_draws st; random_pos := random_pos st;
     clock := clock st; clock_pos := clock_pos st |}.

Definition set_has_received (x : gmap (Z * Z) bool) (st : ChatProcess) :=
  {| my_id := my_id st; delay_time := delay_time st; drop_rate := drop_rate st;
     message_id_counter := message_id_counter st; has_received := x;
     has_acknowledged := has_acknowledged st; unack_messages := unack_messages st;
     holdback_queue := holdback_queue st; queue := queue st;
     my_timestamp := my_timestamp st; sock_sent := sock_sent st; stdout := stdout st;
     random_draws := random_draws st; random_pos := random_pos st;
     clock := clock st; clock_pos := clock_pos st |}.

Definition set_has_acknowledged (x : gmap (Z * Z) bool) (st : ChatProcess) :=
  {| my_id := my_id st; delay_time := delay_time st; drop_rate := drop_rate st;
     message_id_counter := message_id_counter st; has_received := has_received st;
     has_acknowledged := x; unack_messages := unack_messages st;
     holdback_queue := holdback_queue st; queue := queue st;
     my_timestamp := my_timestamp st; sock_sent := sock_sent st; stdout := stdout st;
     random_draws := random_draws st; random_pos := random_pos st;
     clock := clock st; clock_pos := clock_pos st |}.

Definition set_unack_messages (x : list unack) (st : ChatProcess) :=
  {| my_id := my_id st; delay_time := delay_time st; drop_rate := drop_rate st;
     message_id_counter := message_id_counter st; has_received := has_received st;
     has_acknowledged := has_acknowledged st; unack_messages := x;
     holdback_queue := holdback_queue st; queue := queue st;
     my_timestamp := my_timestamp st; sock_sent := sock_sent st; stdout := stdout st;
     random_draws := random_draws st; random_pos := random_pos st;
     clock := clock st; clock_pos := clock_pos st |}.

Definition set_holdback_queue (x : list entry) (st : ChatProcess) :=
  {| my_id := my_id st; delay_time := delay_time st; drop_rate := drop_rate st;
     message_id_counter := message_id_counter st; has_received := has_received st;
     has_acknowledged := has_acknowledged st; unack_messages := unack_messages st;
     holdback_queue := x; queue := queue st;
     my_timestamp := my_timestamp st; sock_sent := sock_sent st; stdout := stdout st;
     random_draws := random_draws st; random_pos := random_pos st;
     clock := clock st; clock_pos := clock_pos st |}.

Definition set_queue (x : list packet) (st : ChatProcess) :=
  {| my_id := my_id st; delay_time := delay_time st; drop_rate := drop_rate st;
     message_id_counter := message_id_counter st; has_received := has_received st;
     has_acknowledged := has_acknowledged st; unack_messages := unack_messages st;
     holdback_queue := holdback_queue st; queue := x;
     my_timestamp := my_timestamp st; sock_sent := sock_sent st; stdout := stdout st;
     random_draws := random_draws st; random_pos := random_pos st;
     clock := clock st; clock_pos := clock_pos st |}.

Definition set_my_timestamp (x : list Z) (st : ChatProcess) :=
  {| my_id := my_id st; delay_time := delay_time st; drop_rate := drop_rate st;
     message_id_counter := message_id_counter st; has_received := has_received st;
     has_acknowledged := has_acknowledged st; unack_messages := unack_messages st;
     holdback_queue := holdback_queue st; queue := queue st;
     my_timestamp := x; sock_sent := sock_sent st; stdout := stdout st;
     random_draws := random_draws st; random_pos := random_pos st;
     clock := clock st; clock_pos := clock_pos st |}.

Definition set_sock_sent (x : list (string * (string * Z))) (st : ChatProcess) :=
  {| my_id := my_id st; delay_time := delay_time st; drop_rate := drop_rate st;
     message_id_counter := message_id_counter st; has_received := has_received st;
     has_acknowledged := has_acknowledged st; unack_messages := unack_messages st;
     holdback_queue := holdback_queue st; queue := queue st;
     my_timestamp := my_timestamp st; sock_sent := x; stdout := stdout st;
     random_draws := random_draws st; random_pos := random_pos st;
     clock := clock st; clock_pos := clock_pos st |}.

Definition set_stdout (x : list (Z * string)) (st : ChatProcess) :=
  {| my_id := my_id st; delay_time := delay_time st; drop_rate := drop_rate st;
     message_id_counter := message_id_counter st; has_received := has_received st;
     has_acknowledged := has_acknowledged st; unack_messages := unack_messages st;
     holdback_queue := holdback_queue st; queue := queue st;
     my_timestamp := my_timestamp st; sock_sent := sock_sent st; stdout := x;
     random_draws := random_draws st; random_pos := random_pos st;
     clock := clock st; clock_pos := clock_pos st |}.

Definition set_random_pos (x : nat) (st : ChatProcess) :=
  {| my_id := my_id st; delay_time := delay_time st; drop_rate := drop_rate st;
     message_id_counter := message_id_counter st; has_received := has_received st;
     has_acknowledged := has_acknowledged st; unack_messages := unack_messages st;
     holdback_queue := holdback_queue st; queue := queue st;
     my_timestamp := my_timestamp st; sock_sent := sock_sent st; stdout := stdout st;
     random_draws := random_draws st; random_pos := x;
     clock := clock st; clock_pos := clock_pos st |}.

Definition set_clock_pos (x : nat) (st : ChatProcess) :=
  {| my_id := my_id st; delay_time := delay_time st; drop_rate := drop_rate st;
     message_id_counter := message_id_counter st; has_received := has_received st;
     has_acknowledged := has_acknowledged st; unack_messages := unack_messages st;
     holdback_queue := holdback_queue st; queue := queue st;
     my_timestamp := my_timestamp st; sock_sent := sock_sent st; stdout := stdout st;
     random_draws := random_draws st; random_pos := random_pos st;
     clock := clock st; clock_pos := x |}.

Abbreviation Self := (M ChatProcess).

(** *** [update_holdback_queue] *)

(** [self.my_timestamp[i]] *)
Definition my_timestamp_at (i : nat) : Self Z :=
  V <- gets my_timestamp ;; index V i.

(** [self.my_timestamp[i] = x] *)
Definition store_my_timestamp_at (i : nat) (x : Z) : Self unit :=
  V <- gets my_timestamp ;;
  if bool_decide (i < length V)%nat
  then modify (set_my_timestamp (<[i:=x]> V))
  else raise IndexError.

(** [self.my_timestamp[i]] and [self.my_timestamp[i] = x] for an [int]
    [i]. *)
Definition my_timestamp_at_int (i : Z) : Self Z :=
  V <- gets my_timestamp ;; index_int V i.

Definition store_my_timestamp_at_int (i : Z) (x : Z) : Self unit :=
  V <- gets my_timestamp ;; store_my_timestamp_at (position (length V) i) x.

(** The body of [for i in range(len(v))], lines 88-94. *)
Definition should_remove_step (sender : Z) (v : list Z)
    (should_remove : bool) (i : nat) : Self bool :=
  if bool_decide (Z.of_nat i = sender) then
    vi <- index v i ;;
    ti <- my_timestamp_at i ;;
    ret (if negb (vi =? ti + 1) then false else should_remove)
  else
    vi <- index v i ;;
    ti <- my_timestamp_at i ;;
    ret (if vi >? ti then false else should_remove).

(** The body of [for sender, v, message in self.holdback_queue],
    lines 86-98; the accumulator is the pair of the local lists
    [new_holdback_queue] and [removed]. *)
Definition scan_step (acc : list entry * list entry) (e : entry)
    : Self (list entry * list entry) :=
  let '(new_holdback_queue, removed) := acc in
  let '(sender, v, message) := e in
  should_remove <- foldM (should_remove_step sender v) (seq 0 (length v)) true ;;
  if negb should_remove
  then ret (new_holdback_queue ++ [(sender, v, message)], removed)
  else ret (new_holdback_queue, removed ++ [(sender, v, message)]).

(** [deliver], line 114: the printed line is recorded as the pair of its
    arguments. *)
Definition deliver (sender : Z) (message : string) : Self unit :=
  modify (fun st => set_stdout (stdout st ++ [(sender, message)]) st).

(** The body of [for sender, v, message in removed], lines 100-102. *)
Definition release_step (e : entry) : Self unit :=
  let '(sender, v, message) := e in
  t <- my_timestamp_at_int sender ;;
  store_my_timestamp_at_int sender (t + 1) ;;
  deliver sender message.

(** One iteration of [while True], lines 84-107; the result says whether
    the iteration ends in [break]. *)
Definition update_holdback_queue_pass : Self bool :=
  q <- gets holdback_queue ;;
  lists <- foldM scan_step q ([], []) ;;
  let '(new_holdback_queue, removed) := lists in
  for_each release_step removed ;;
  modify (set_holdback_queue new_holdback_queue) ;;
  ret (length removed =? 0)%nat.

Fixpoint update_holdback_queue_loop (fuel : nat) : Self unit :=
  match fuel with
  | O => out_of_fuel
  | S fuel' =>
      stop <- update_holdback_queue_pass ;;
      if stop then ret tt else update_holdback_queue_loop fuel'
  end.

(** The loop is given one iteration more than the queue has entries;
    by [loop_fuel_enough] no larger bound changes the result. *)
Definition update_holdback_queue : Self unit :=
  q <- gets holdback_queue ;;
  update_holdback_queue_loop (S (length q)).

(** *** The helpers and the configuration

    [helpers/unicast_helper.py] and [config.py] are outside this
    development; the methods below take them as parameters.
    [pack_message] receives the five fields of the list it is called with,
    [unpack_message] returns the five fields the receiver binds. *)
Class Helpers := {
  hosts : list (string * Z);
  pack_message : nat -> option Z -> bool -> string -> string -> string;
  unpack_message : string -> Z * Z * bool * list Z * string;
  stringify_vector_timestamp : list Z -> string
}.

(** *** The world: random numbers, the clock, the socket *)

(** [random.random()] *)
Definition random_random : Self Q :=
  r <- gets (fun st => random_draws st (random_pos st)) ;;
  modify (fun st => set_random_pos (S (random_pos st)) st) ;;
  ret r.

(** [random.uniform(a, b)], which the standard library computes as
    [a + (b - a) * random()]. *)
Definition random_uniform (a b : Q) : Self Q :=
  u <- random_random ;;
  ret (float_add a (float_mul (float_sub b a) u)).

(** [time.time()] *)
Definition time_time : Self Q :=
  t <- gets (fun st => clock st (clock_pos st)) ;;
  modify (fun st => set_clock_pos (S (clock_pos st)) st) ;;
  ret t.

(** [self.sock.sendto(message, (ip, port))] *)
Definition sock_sendto (message : string) (address : string * Z) : Self unit :=
  modify (fun st => set_sock_sent (sock_sent st ++ [(message, address)]) st).

(** *** The priority queue

    [PriorityQueue] hands out its least element first; its elements are
    tuples, compared field by field.  The queue is kept as the sorted list
    of its elements. *)
Definition lex (c : comparison) (rest : comparison) : comparison :=
  match c with
  | Eq => rest
  | _ => c
  end.

Definition packet_compare (a b : packet) : comparison :=
  let '(end_a, message_a, ip_a, port_a) := a in
  let '(end_b, message_b, ip_b, port_b) := b in
  lex (end_a ?= end_b)%Q
    (lex (String.compare message_a message_b)
       (lex (String.compare ip_a ip_b) (port_a ?= port_b))).

Definition packet_leb (a b : packet) : bool :=
  match packet_compare a b with
  | Gt => false
  | _ => true
  end.

Fixpoint queue_put (x : packet) (q : list packet) : list packet :=
  match q with
  | [] => [x]
  | y :: q' => if packet_leb x y then x :: y :: q' else y :: queue_put x q'
  end.

Section Methods.
Context `{Helpers}.

(** *** [unicast_send], lines 41-61 *)
Definition unicast_send (destination : nat) (message : string)
    (msg_id : option Z) (is_ack : bool) (timestamp : option (list Z)) : Self unit :=
  timestamp <- match timestamp with
               | None => gets my_timestamp
               | Some t => ret t
               end ;;
  msg_id <- (if negb is_ack && bool_decide (msg_id = None) then
               modify (fun st => set_message_id_counter (message_id_counter st + 1) st) ;;
               id <- gets message_id_counter ;;
               modify (fun st =>
                 set_unack_messages
                   (unack_messages st ++ [(destination, id, message, timestamp)]) st) ;;
               ret (Some id)
             else ret msg_id) ;;
  r <- random_random ;;
  rate <- gets drop_rate ;;
  if Qle_bool r rate then ret tt
  else
    me <- gets my_id ;;
    let message :=
      pack_message me msg_id is_ack (stringify_vector_timestamp timestamp) message in
    host <- index hosts destination ;;
    let '(ip, port) := host in
    d <- gets delay_time ;;
    delay_time <- random_uniform 0 (float_mul 2 d) ;;
    now <- time_time ;;
    let end_time := float_add now delay_time in
    modify (fun st => set_queue (queue_put (end_time, message, ip, port) (queue st)) st).

(** *** [unicast_receive], lines 63-79; [data] is the datagram that
    [recvfrom] returned.  The sender it names is an [int] of either sign.
    [unicast_send] uses the destination of an acknowledgement for nothing
    but the index into [config['hosts']]: it is given the position that
    this index has. *)
Definition unicast_receive (data : string) : Self bool :=
  let '(sender, message_id, is_ack, message_timestamp, message) := unpack_message data in
  if is_ack : bool then
    modify (fun st =>
      set_has_acknowledged (<[(sender, message_id) := true]> (has_acknowledged st)) st) ;;
    ret false
  else
    unicast_send (position (length hosts) sender) "" (Some message_id) true None ;;
    received <- gets has_received ;;
    match received !! (sender, message_id) with
    | None =>
        modify (fun st =>
          set_has_received (<[(sender, message_id) := true]> (has_received st)) st) ;;
        modify (fun st =>
          set_holdback_queue
            (holdback_queue st ++ [(sender, message_timestamp, message)]) st) ;;
        update_holdback_queue ;;
        ret true
    | Some _ => ret false
    end.

(** *** [multicast], lines 109-112 *)
Definition multicast (message : string) : Self unit :=
  for_each (fun id => unicast_send id message None false None)
    (seq 0 (length hosts)).

(** *** [message_queue_handler], lines 118-126: one iteration of its loop.
    On an empty queue [get] waits for another thread to put an element;
    the iteration then does nothing. *)
Definition message_queue_handler_step : Self unit :=
  q <- gets queue ;;
  match q with
  | [] => ret tt
  | (send_time, message, ip, port) :: q' =>
      modify (set_queue q') ;;
      now <- time_time ;;
      if Qle_bool send_time now then sock_sendto message (ip, port)
      else modify (fun st => set_queue (queue_put (send_time, message, ip, port) (queue st)) st)
  end.

(** *** [ack_handler], lines 128-139: one iteration of its loop, after the
    sleep.  The accumulator of the inner loop is [new_unack_messages]. *)
Definition ack_handler_step (new_unack_messages : list unack) (u : unack)
    : Self (list unack) :=
  let '(dest_id, message_id, message, message_timestamp) := u in
  acknowledged <- gets has_acknowledged ;;
  match acknowledged !! (Z.of_nat dest_id, message_id) with
  | None =>
      unicast_send dest_id message (Some message_id) false (Some message_timestamp) ;;
      ret (new_unack_messages ++ [(dest_id, message_id, message, message_timestamp)])
  | Some _ => ret new_unack_messages
  end.

Definition ack_handler_tick : Self unit :=
  us <- gets unack_messages ;;
  new_unack_messages <- foldM ack_handler_step us [] ;;
  modify (set_unack_messages new_unack_messages).

(** *** [user_input_handler], lines 142-147: one iteration, on the line
    read from the standard input. *)
Definition user_input_handler_line (line : string) : Self unit :=
  let line := drop_last line in
  me <- gets my_id ;;
  t <- my_timestamp_at me ;;
  store_my_timestamp_at me (t + 1) ;;
  multicast line.

(** *** [incoming_message_handler], lines 149-155, on the datagrams that
    arrive; a receive that times out changes nothing and is left out. *)
Definition incoming_message_handler (datas : list string) : Self unit :=
  for_each (fun data => _ <- unicast_receive data ;; ret tt) datas.

(** *** The threads of [run], lines 157-174

    Each thread repeats one operation; the operations of the four threads
    interleave.  A thread that raises an exception ends, the others go
    on in the state it leaves. *)
Inductive operation :=
| UserInput (line : string)
| Receive (data : string)
| AckTick
| Drain.

Definition step (op : operation) : Self unit :=
  match op with
  | UserInput line => user_input_handler_line line
  | Receive data => _ <- unicast_receive data ;; ret tt
  | AckTick => ack_handler_tick
  | Drain => message_queue_handler_step
  end.

Definition run (ops : list operation) (st : ChatProcess) : ChatProcess :=
  foldl (fun st op => (step op st).2) st ops.

(** *** [user_input_handler], lines 142-147, on the lines of the standard
    input, up to its end. *)
Definition user_input_handler (lines : list string) : Self unit :=
  for_each user_input_handler_line lines.

(** *** [message_queue_handler], lines 118-126: its loop, which has no
    exit, cut off after [fuel] iterations. *)
Fixpoint message_queue_handler (fuel : nat) : Self unit :=
  match fuel with
  | O => out_of_fuel
  | S fuel' => message_queue_handler_step ;; message_queue_handler fuel'
  end.

End Methods.

End ChatProcess.

(** ** [main.py]: class [Main] *)

Module Main.

Record Main := {
  my_ID : nat;
  message_id : Z;
  has_received : gmap (nat * Z) bool;
  has_acknowledged : gmap (nat * Z) bool;
  unack_messages : list (nat * Z * string);
  drop_rate : Q;
  sock_sent : list (string * (string * Z));
  random_draws : nat -> Q;
  random_pos : nat
}.

Definition set_message_id (x : Z) (st : Main) :=
  {| my_ID := my_ID st; message_id := x; has_received := has_received st;
     has_acknowledged := has_acknowledged st; unack_messages := unack_messages st;
     drop_rate := drop_rate st; sock_sent := sock_sent st;
     random_draws := random_draws st; random_pos := random_pos st |}.

Definition set_has_received (x : gmap (nat * Z) bool) (st : Main) :=
  {| my_ID := my_ID st; message_id := message_id st; has_received := x;
     has_acknowledged := has_acknowledged st; unack_messages := unack_messages st;
     drop_rate := drop_rate st; sock_sent := sock_sent st;
     random_draws := random_draws st; random_pos := random_pos st |}.

Definition set_has_acknowledged (x : gmap (nat * Z) bool) (st : Main) :=
  {| my_ID := my_ID st; message_id := message_id st; has_received := has_received st;
     has_acknowledged := x; unack_messages := unack_messages st;
     drop_rate := drop_rate st; sock_sent := sock_sent st;
     random_draws := random_draws st; random_pos := random_pos st |}.

Definition set_unack_messages (x : list (nat * Z * string)) (st : Main) :=
  {| my_ID := my_ID st; message_id := message_id st; has_received := has_received st;
     has_acknowledged := has_acknowledged st; unack_messages := x;
     drop_rate := drop_rate st; sock_sent := sock_sent st;
     random_draws := random_draws st; random_pos := random_pos st |}.

Definition set_sock_sent (x : list (string * (string * Z))) (st : Main) :=
  {| my_ID := my_ID st; message_id := message_id st; has_received := has_received st;
     has_acknowledged := has_acknowledged st; unack_messages := unack_messages st;
     drop_rate := drop_rate st; sock_sent := x;
     random_draws := random_draws st; random_pos := random_pos st |}.

Definition set_random_pos (x : nat) (st : Main) :=
  {| my_ID := my_ID st; message_id := message_id st; has_received := has_received st;
     has_acknowledged := has_acknowledged st; unack_messages := unack_messages st;
     drop_rate := drop_rate st; sock_sent := sock_sent st;
     random_draws := random_draws st; random_pos := x |}.

Abbreviation Self := (M Main).

(** The helpers of [mp2/helpers/unicast_helper.py] and the configuration,
    taken as parameters: this [pack_message] receives four fields, this
    [unpack_message] returns four. *)
Class Helpers := {
  hosts : list (string * Z);
  pack_message : nat -> Z -> bool -> string -> string;
  unpack_message : string -> nat * Z * bool * string
}.

Definition random_random : Self Q :=
  r <- gets (fun st => random_draws st (random_pos st)) ;;
  modify (fun st => set_random_pos (S (random_pos st)) st) ;;
  ret r.

Definition sock_sendto (message : string) (address : string * Z) : Self unit :=
  modify (fun st => set_sock_sent (sock_sent st ++ [(message, address)]) st).

Section Methods.
Context `{Helpers}.

(** [unicast_send], lines 31-51 *)
Definition unicast_send (destination : nat) (message : string)
    (is_ack : bool) (ack_message_id : Z) : Self unit :=
  host <- index hosts destination ;;
  let '(ip, port) := host in
  id <- (if negb is_ack then
           modify (fun st => set_message_id (message_id st + 1) st) ;;
           id <- gets message_id ;;
           me <- gets my_ID ;;
           modify (fun st =>
             set_unack_messages (unack_messages st ++ [(me, id, message)]) st) ;;
           ret id
         else ret ack_message_id) ;;
  r <- random_random ;;
  rate <- gets drop_rate ;;
  if Qle_bool r rate then ret tt
  else
    me <- gets my_ID ;;
    let message := pack_message me id is_ack message in
    sock_sendto message (ip, port).

(** [unicast_receive], lines 53-71; [data] is the datagram that
    [recvfrom] returned.  The result is the pair [(sender, message)],
    [None] standing for Python's [None]. *)
Definition unicast_receive (source : nat) (data : string) : Self (nat * option string) :=
  let '(sender, message_id, is_ack, message) := unpack_message data in
  if is_ack : bool then
    modify (fun st =>
      set_has_acknowledged (<[(sender, message_id) := true]> (has_acknowledged st)) st) ;;
    ret (sender, None)
  else
    unicast_send sender "" true message_id ;;
    received <- gets has_received ;;
    match received !! (sender, message_id) with
    | Some _ =>
        modify (fun st =>
          set_has_received (<[(sender, message_id) := true]> (has_received st)) st) ;;
        ret (sender, Some message)
    | None => ret (sender, None)
    end.

(** [multicast], lines 73-76 *)
Definition multicast (message : string) : Self unit :=
  for_each (fun id => unicast_send id message false 0) (seq 0 (length hosts)).

(** [process_ack], lines 83-93: one iteration of [while True], after the
    sleep.  The inner [for] runs over [self.unack_messages] itself, which
    [multicast] appends to while the loop is running: the loop reads the
    list anew at each index [i] and ends when [i] is past its end. *)
Fixpoint process_ack_for (fuel : nat) (i : nat) (new_unack_messages : list (nat * Z * string))
    : Self (list (nat * Z * string)) :=
  match fuel with
  | O => out_of_fuel
  | S fuel' =>
      us <- gets unack_messages ;;
      match us !! i with
      | None => ret new_unack_messages
      | Some (dest_id, message_id, message) =>
          acknowledged <- gets has_acknowledged ;;
          match acknowledged !! (dest_id, message_id) with
          | None =>
              multicast message ;;
              process_ack_for fuel' (S i)
                (new_unack_messages ++ [(dest_id, message_id, message)])
          | Some _ => process_ack_for fuel' (S i) new_unack_messages
          end
      end
  end.

Definition process_ack_tick (fuel : nat) : Self unit :=
  new_unack_messages <- process_ack_for fuel 0%nat [] ;;
  modify (set_unack_messages new_unack_messages).

(** [deliver], lines 78-81 *)
Definition deliver (source : nat) (data : string) : Self (nat * option string) :=
  unicast_receive source data.

(** [process_message_out], lines 96-99: one iteration, on the line read
    from the standard input. *)
Definition process_message_out_line (line : string) : Self unit :=
  multicast (drop_last line).

(** [process_message_in], lines 102-112, on the datagrams that arrive; the
    result is the list of the pairs (sender, message) that it prints,
    [printed] being what it has printed so far. *)
Fixpoint process_message_in (datas : list string) (printed : list (nat * string))
    : Self (list (nat * string)) :=
  match datas with
  | [] => ret printed
  | data :: datas' =>
      me <- gets my_ID ;;
      r <- deliver me data ;;
      let '(sender, message) := r in
      match message with
      | None => process_message_in datas' printed
      | Some m => process_message_in datas' (printed ++ [(sender, m)])
      end
  end.

End Methods.

End Main.

Import ChatProcess.

(** ** The causal delivery engine: statements *)

(** The release rule in the words of the specification: the entry is the
    next message expected from its sender, and its sender had seen nothing
    from any other process that this process has not delivered. *)
Definition releasable (V : list Z) (e : entry) : Prop :=
  let '(s, T, _) := e in
  T !!! Z.to_nat s = V !!! Z.to_nat s + 1 ∧
  ∀ i : nat, (i < length V)%nat → Z.of_nat i ≠ s → T !!! i ≤ V !!! i.

(** The decision that lines 87-94 compute for an entry, as a function of
    the vector timestamp. *)
Definition should_remove (V : list Z) (e : entry) : bool :=
  let '(sender, v, _) := e in
  forallb
    (fun i : nat =>
       if bool_decide (Z.of_nat i = sender) then v !!! i =? V !!! i + 1
       else negb (v !!! i >? V !!! i))
    (seq 0 (length v)).

(** The data model: every timestamp has one entry per process, every
    sender is one of the processes. *)
Definition wf_entry (n : nat) (e : entry) : Prop :=
  let '(s, T, _) := e in 0 <= s < Z.of_nat n ∧ length T = n.

Definition wf (st : ChatProcess) : Prop :=
  Forall (wf_entry (length (my_timestamp st))) (holdback_queue st).

(** What lines 101-102 do to the object for one released entry. *)
Definition release (st : ChatProcess) (e : entry) : ChatProcess :=
  let '(sender, _, message) := e in
  let k := position (length (my_timestamp st)) sender in
  set_stdout (stdout st ++ [(sender, message)])
    (set_my_timestamp (<[k := my_timestamp st !!! k + 1]> (my_timestamp st)) st).

(** The state in which the next pass of the loop starts. *)
Definition next_pass (st : ChatProcess) : ChatProcess :=
  set_holdback_queue
    (filter (fun e => ¬ should_remove (my_timestamp st) e) (holdback_queue st))
    (foldl release st (filter (fun e => should_remove (my_timestamp st) e) (holdback_queue st))).

(** The states in which the passes of one call start, and the entries the
    call hands to [deliver], in the order of the calls. *)
Fixpoint pass_starts (fuel : nat) (st : ChatProcess) : list ChatProcess :=
  match fuel with
  | O => []
  | S fuel' =>
      st :: match update_holdback_queue_pass st with
            | (Ret false, st') => pass_starts fuel' st'
            | _ => []
            end
  end.

Fixpoint released (fuel : nat) (st : ChatProcess) : list entry :=
  match fuel with
  | O => []
  | S fuel' =>
      match filter (fun e => should_remove (my_timestamp st) e) (holdback_queue st) with
      | [] => []
      | removed => removed ++ released fuel' (next_pass st)
      end
  end.

(** The place of the vector timestamp that lines 101-102 read and write
    for an entry, and the entries for which it exists. *)
Definition slot (n : nat) (e : entry) : nat :=
  let '(sender, _, _) := e in position n sender.

Definition writable (st : ChatProcess) (e : entry) : Prop :=
  (slot (length (my_timestamp st)) e < length (my_timestamp st))%nat.

#[export] Instance writable_dec (st : ChatProcess) (e : entry) : Decision (writable st e) :=
  decide (slot (length (my_timestamp st)) e < length (my_timestamp st))%nat.

Definition delivery (e : entry) : Z * string :=
  let '(sender, _, message) := e in (sender, message).

Definition sender_of (e : entry) : Z :=
  let '(sender, _, _) := e in sender.

(** The index of the sender of an entry of the data model. *)
Definition own (e : entry) : nat := Z.to_nat (sender_of e).

(** How many entries of [D] come from process [i]. *)
Definition deliveries_from (i : nat) (D : list entry) : Z :=
  Z.of_nat (length (filter (fun e => sender_of e = Z.of_nat i) D)).

(** The state in which a call that starts in [st] returns, when it is
    given [fuel] passes. *)
Fixpoint after_passes (fuel : nat) (st : ChatProcess) : ChatProcess :=
  match fuel with
  | O => st
  | S fuel' =>
      match filter (fun e => should_remove (my_timestamp st) e) (holdback_queue st) with
      | [] => next_pass st
      | _ => after_passes fuel' (next_pass st)
      end
  end.

(** Two states that differ at most in the vector timestamp, the holdback
    queue and the output. *)
Definition engine_frame (st st' : ChatProcess) : Prop :=
  st' = set_holdback_queue (holdback_queue st')
          (set_stdout (stdout st') (set_my_timestamp (my_timestamp st') st)).

(** [e1] comes before [e2] in a causal chain: the sender of [e2] had seen
    [e1], a message of another process, or a later message of that
    process, when it sent [e2]; or both are messages of one process, and
    [e1] is the earlier one. *)
Definition causally_before (e1 e2 : entry) : Prop :=
  let '(s1, T1, _) := e1 in
  let '(s2, T2, _) := e2 in
  (s1 ≠ s2 ∧ T1 !!! Z.to_nat s1 ≤ T2 !!! Z.to_nat s1)
  ∨ (s1 = s2 ∧ T1 !!! Z.to_nat s1 < T2 !!! Z.to_nat s1).

(** The message an entry stands for: its sender and the number that its
    timestamp gives it among the messages of its sender. *)
Definition message_of (e : entry) : Z * Z := (sender_of e, e.1.2 !!! own e).

(** No two entries of the queue stand for the same message. *)
Definition distinct_messages (q : list entry) : Prop := NoDup (map message_of q).

(** A causal chain from the state [st]: every entry satisfies the release
    rule once the entries before it in the chain have been delivered. *)
Definition chain (st : ChatProcess) (C : list entry) : Prop :=
  ∀ C1 e C2, C = C1 ++ e :: C2 -> releasable (my_timestamp (foldl release st C1)) e.

Abbreviation ready st :=
  (filter (fun e => Is_true (should_remove (my_timestamp st) e)) (holdback_queue st)).

(** The object that [__init__] builds, lines 16-31, in a world given by
    the values the random generator and the clock are going to return. *)
Definition init (process_id : nat) (delay_time drop_rate : Q) (num_processes : nat)
    (draws ticks : nat -> Q) : ChatProcess :=
  {| my_id := process_id; delay_time := delay_time; drop_rate := drop_rate;
     message_id_counter := 0; has_received := ∅; has_acknowledged := ∅;
     unack_messages := []; holdback_queue := []; queue := [];
     my_timestamp := replicate num_processes 0;
     sock_sent := []; stdout := [];
     random_draws := draws; random_pos := 0; clock := ticks; clock_pos := 0 |}.

(** Process 2 of three, holding back the message "B" of process 1. *)
Definition scenario_p2 : ChatProcess :=
  set_holdback_queue [(1, [1; 1; 0], "B"%string)]
    (init 2 0 0 3 (fun _ => 0%Q) (fun _ => 0%Q)).

Definition scenario_p2_with_A : ChatProcess :=
  set_holdback_queue (holdback_queue scenario_p2 ++ [(0, [1; 0; 0], "A"%string)])
    scenario_p2.

(** Vector timestamps of the same length, the second at least the first
    at every index. *)
Definition vt_le (st st' : ChatProcess) : Prop :=
  length (my_timestamp st') = length (my_timestamp st)
  ∧ ∀ i : nat, my_timestamp st !!! i <= my_timestamp st' !!! i.

(** ** The send path: statements *)

(** The timestamp a send carries, whether a send takes a new message
    identifier and is recorded as unacknowledged (lines 47-51), the object
    after that, and the identifier the packet carries. *)
Definition stamped (timestamp : option (list Z)) (st : ChatProcess) : list Z :=
  default (my_timestamp st) timestamp.

Definition registers (msg_id : option Z) (is_ack : bool) : bool :=
  negb is_ack && bool_decide (msg_id = None).

Definition registered (destination : nat) (message : string) (msg_id : option Z)
    (is_ack : bool) (timestamp : option (list Z)) (st : ChatProcess) : ChatProcess :=
  if registers msg_id is_ack then
    set_unack_messages
      (unack_messages st ++
         [(destination, message_id_counter st + 1, message, stamped timestamp st)])
      (set_message_id_counter (message_id_counter st + 1) st)
  else st.

Definition sent_id (msg_id : option Z) (is_ack : bool) (st : ChatProcess) : option Z :=
  if registers msg_id is_ack then Some (message_id_counter st + 1) else msg_id.

(** The next two values of [random.random()]: the first decides whether
    the packet is dropped, the second gives its delay. *)
Definition drop_draw (st : ChatProcess) : Q := random_draws st (random_pos st).
Definition delay_draw (st : ChatProcess) : Q := random_draws st (S (random_pos st)).
Definition dropped (st : ChatProcess) : Prop := (drop_draw st <= drop_rate st)%Q.
Definition delay (st : ChatProcess) : Q :=
  float_add 0 (float_mul (float_sub (float_mul 2 (delay_time st)) 0) (delay_draw st)).

(** The element that a send which is not dropped puts on the queue. *)
Definition outgoing `{Helpers} (destination : nat) (message : string) (msg_id : option Z)
    (is_ack : bool) (timestamp : option (list Z)) (ip : string) (port : Z)
    (st : ChatProcess) : packet :=
  (float_add (clock st (clock_pos st)) (delay st),
   pack_message (my_id st) (sent_id msg_id is_ack st) is_ack
     (stringify_vector_timestamp (stamped timestamp st)) message,
   ip, port).

Definition end_time (p : packet) : Q := p.1.1.1.

(** A queue whose elements are in the order of their release times. *)
Definition by_release_time (q : list packet) : Prop :=
  StronglySorted (fun a b => (end_time a <= end_time b)%Q) q.

(** ** The receive path: statements *)

Section ReceiveSpec.
Context `{Helpers}.

(** The holdback entries that a sequence of datagrams gives rise to: one
    for the first data message of every pair (sender, message id) that is
    not in the received-set, each with its pair. *)
Fixpoint fresh_entries (received : gmap (Z * Z) bool) (datas : list string)
    : list ((Z * Z) * entry) :=
  match datas with
  | [] => []
  | data :: datas' =>
      let '(sender, message_id, is_ack, message_timestamp, message) :=
        unpack_message data in
      if is_ack : bool then fresh_entries received datas'
      else
        match received !! (sender, message_id) with
        | Some _ => fresh_entries received datas'
        | None =>
            ((sender, message_id), (sender, message_timestamp, message))
              :: fresh_entries (<[(sender, message_id) := true]> received) datas'
        end
  end.

(** A datagram of the data model for [n] processes: a data message
    comes from one of the processes, which has an address in the
    configuration, and carries a timestamp of [n] entries. *)
Definition wf_datagram (n : nat) (data : string) : Prop :=
  let '(sender, message_id, is_ack, message_timestamp, message) := unpack_message data in
  is_ack = false ->
  0 <= sender < Z.of_nat n ∧ length message_timestamp = n
  ∧ sender < Z.of_nat (length hosts).

End ReceiveSpec.

(** ** A sample configuration

    Three processes, and stand-ins for the helpers: the wire format shows
    the sender, the message id, the acknowledgement flag, the timestamp
    and the payload; the datagrams "A" and "B" decode to the two messages
    of the scenario, every other datagram to an acknowledgement of
    message 1 of process 0.  Every draw of the random generator is 3/4,
    the clock reads 0, 1, 2, ... *)
Definition digit (x : Z) : string :=
  String (Ascii.ascii_of_nat (48 + Z.to_nat x)) EmptyString.

Definition sample_unpack_message (data : string) : Z * Z * bool * list Z * string :=
  if String.eqb data "A" then (0, 1, false, [1; 0; 0], "A"%string)
  else if String.eqb data "B" then (1, 1, false, [1; 1; 0], "B"%string)
  else (0, 1, true, [], ""%string).

Definition sample_helpers : Helpers :=
  {| hosts := [("10.0.0.1"%string, 9000); ("10.0.0.2"%string, 9000);
               ("10.0.0.3"%string, 9000)];
     pack_message := fun me msg_id is_ack timestamp message =>
       (digit (Z.of_nat me) +:+ ","
          +:+ match msg_id with Some id => digit id | None => "None" end +:+ ","
          +:+ (if is_ack then "True" else "False") +:+ ","
          +:+ timestamp +:+ "," +:+ message)%string;
     unpack_message := sample_unpack_message;
     stringify_vector_timestamp := fun V => String.concat ";" (map digit V) |}.

Definition sample_p2 (drop_rate : Q) : ChatProcess :=
  init 2 (1 # 8) drop_rate 3 (fun _ => (3 # 4)%Q) (fun n => inject_Z (Z.of_nat n)).

Definition sample_ops : list operation :=
  [UserInput "hello
"; Receive "B"; Drain; Receive "A"; AckTick; Receive "A"; Drain].

(** A sample configuration for [main.py]: two processes; the wire format
    shows the sender, the message id, the acknowledgement flag and the
    payload; the datagram "A" decodes to message 1 of process 1, every
    other datagram to its acknowledgement. *)
Definition main_sample_helpers : Main.Helpers :=
  {| Main.hosts := [("10.0.0.1"%string, 9000); ("10.0.0.2"%string, 9000)];
     Main.pack_message := fun me id is_ack message =>
       (digit (Z.of_nat me) +:+ "," +:+ digit id +:+ ","
          +:+ (if is_ack then "True" else "False") +:+ "," +:+ message)%string;
     Main.unpack_message := fun data =>
       if String.eqb data "A" then (1%nat, 1, false, "A"%string)
       else (1%nat, 1, true, ""%string) |}.

(** The object of class [Main] with its class attributes, lines 12-19,
    after [run] has set [my_ID] and [drop_rate]. *)
Definition main_init (my_ID : nat) (drop_rate : Q) (draws : nat -> Q) : Main.Main :=
  {| Main.my_ID := my_ID; Main.message_id := 0; Main.has_received := ∅;
     Main.has_acknowledged := ∅; Main.unack_messages := [];
     Main.drop_rate := drop_rate; Main.sock_sent := [];
     Main.random_draws := draws; Main.random_pos := 0 |}.

Definition main_sample : Main.Main := main_init 0 0 (fun _ => (3 # 4)%Q).

(** [main_sample] after it has multicast the line "hi". *)
Definition main_sample_sent : Main.Main :=
  (@Main.multicast main_sample_helpers "hi" main_sample).2.

(** ** Further statements *)

(** The arguments of the [sendto] that writes an element of the queue. *)
Definition wire (p : packet) : string * (string * Z) := (p.1.1.2, (p.1.2, p.2)).

(** The message id of an unacknowledged send, and its key in the
    acknowledged-set. *)
Definition unack_id (u : unack) : Z := u.1.1.2.
Definition unack_key (u : unack) : Z * Z := (Z.of_nat u.1.1.1, u.1.1.2).

(** The message ids of the unacknowledged sends increase along the list
    and lie between 1 and the counter. *)
Definition ids_ok (st : ChatProcess) : Prop :=
  0 <= message_id_counter st
  ∧ StronglySorted Z.lt (map unack_id (unack_messages st))
  ∧ Forall (fun u => 0 < unack_id u <= message_id_counter st) (unack_messages st).

(** A predicate that a state hands on to another. *)
Definition carries {S} (P : S -> Prop) (st st' : S) : Prop := P st -> P st'.

(** How many printed deliveries have a sender that indexes entry [i] of a
    vector timestamp of [n] entries: the sender [i] itself and, as a
    Python index counts from the end when it is negative, the sender
    [i - n]. *)
Definition printed_from (n i : nat) (out : list (Z * string)) : Z :=
  Z.of_nat (length (filter (fun d : Z * string => position n d.1 = i) out)).

(** The entry of process [i] in the vector timestamp, less the deliveries
    printed for [i]. *)
Definition undelivered_count (i : nat) (st : ChatProcess) : Z :=
  my_timestamp st !!! i - printed_from (length (my_timestamp st)) i (stdout st).

(** The lines of input among the operations. *)
Definition is_input (op : operation) : bool :=
  match op with
  | UserInput _ => true
  | _ => false
  end.

Definition inputs (ops : list operation) : Z :=
  Z.of_nat (length (filter (fun op => is_input op) ops)).

(** What is only ever added to: the two sets, the two logs, the counter. *)
Definition grows (st st' : ChatProcess) : Prop :=
  (∀ k, is_Some (has_received st !! k) -> is_Some (has_received st' !! k))
  ∧ (∀ k, is_Some (has_acknowledged st !! k) -> is_Some (has_acknowledged st' !! k))
  ∧ stdout st `prefix_of` stdout st'
  ∧ sock_sent st `prefix_of` sock_sent st'
  ∧ message_id_counter st <= message_id_counter st'.

(** An entry whose own index in its timestamp is in range and not ahead
    of the vector timestamp: the message it stands for, or a later one of
    its sender, has been counted already. *)
Definition stale (e : entry) (st : ChatProcess) : Prop :=
  0 <= sender_of e < Z.of_nat (length e.1.2)
  ∧ e.1.2 !!! Z.to_nat (sender_of e) <= my_timestamp st !!! Z.to_nat (sender_of e).

Definition held_stale (e : entry) (st : ChatProcess) : Prop :=
  e ∈ holdback_queue st ∧ stale e st.

(** An entry whose timestamp has more entries than the vector
    timestamp. *)
Definition overlong (e : entry) (st : ChatProcess) : Prop :=
  (length (my_timestamp st) < length e.1.2)%nat.

Definition held_overlong (e : entry) (st : ChatProcess) : Prop :=
  e ∈ holdback_queue st ∧ overlong e st.

(** From a state that holds an overlong entry, to a state that holds it
    and has printed nothing more. *)
Definition blocked (e : entry) (st st' : ChatProcess) : Prop :=
  held_overlong e st -> held_overlong e st' ∧ stdout st' = stdout st.

(** *** [main.py] *)

(** The key under which [Main.unicast_receive] would look for the
    acknowledgement of a record of [Main.unack_messages]. *)
Definition main_key (u : nat * Z * string) : nat * Z := (u.1.1, u.1.2).

(** A datagram that [Main.unicast_receive] can answer: an
    acknowledgement, which is not answered, or a message of a process of
    the configuration. *)
Definition main_answerable `{Main.Helpers} (data : string) : Prop :=
  (Main.unpack_message data).1.2 = true
  ∨ ((Main.unpack_message data).1.1.1 < length Main.hosts)%nat.

(** A datagram of another process than this one. *)
Definition main_remote `{Main.Helpers} (st : Main.Main) (data : string) : Prop :=
  (Main.unpack_message data).1.1.1 ≠ Main.my_ID st.

(** Every record carries the id of the process itself. *)
Definition main_own_records (st : Main.Main) : Prop :=
  Forall (fun u => u.1.1 = Main.my_ID st) (Main.unack_messages st).

(** No acknowledgement is registered for the process itself. *)
Definition main_no_own_ack (st : Main.Main) : Prop :=
  ∀ k, is_Some (Main.has_acknowledged st !! k) -> k.1 ≠ Main.my_ID st.

(** No acknowledgement is registered for a message id that has not been
    used. *)
Definition main_no_early_ack (st : Main.Main) : Prop :=
  ∀ k, is_Some (Main.has_acknowledged st !! k) -> k.2 <= Main.message_id st.

(** The records that a [Main.multicast] of [message] appends. *)
Definition main_records `{Main.Helpers} (st : Main.Main) (message : string)
    : list (nat * Z * string) :=
  map (fun k : nat => (Main.my_ID st, Main.message_id st + Z.of_nat (S k), message))
    (seq 0 (length Main.hosts)).

(** ** Properties *)

(** *** The monad *)

Lemma bind_ret {S A B} (c : M S A) (k : A -> M S B) (st st1 : S) (a : A) :
  c st = (Ret a, st1) -> bind c k st = k a st1.
Proof. intros Hc. unfold bind. rewrite Hc. reflexivity. Qed.

Lemma bind_raise {S A B} (c : M S A) (k : A -> M S B) (st st1 : S) (e : exn) :
  c st = (Raise e, st1) -> bind c k st = (Raise e, st1).
Proof. intros Hc. unfold bind. rewrite Hc. reflexivity. Qed.

Lemma bind_inv {S A B} (c : M S A) (k : A -> M S B) (st st2 : S) (b : B) :
  bind c k st = (Ret b, st2) ->
  ∃ a st1, c st = (Ret a, st1) ∧ k a st1 = (Ret b, st2).
Proof.
  unfold bind. destruct (c st) as [[a| |] st1]; intros Hk; try discriminate.
  exists a, st1. split; [reflexivity | exact Hk].
Qed.

Lemma foldM_app {S A B} (body : B -> A -> M S B) (l1 l2 : list A) (acc : B) (st : S) :
  foldM body (l1 ++ l2) acc st = bind (foldM body l1 acc) (foldM body l2) st.
Proof.
  revert acc st. induction l1 as [|x l1 IH]; intros acc st; simpl.
  - reflexivity.
  - unfold bind. destruct (body acc x st) as [[acc'| |] st1]; try reflexivity.
    rewrite IH. reflexivity.
Qed.

(** *** Rounding to binary64 *)

Lemma pow2_pos e : (0 < pow2 e)%Q.
Proof. apply Qpower_0_lt. reflexivity. Qed.

Lemma pow2_plus a b : (pow2 (a + b) == pow2 a * pow2 b)%Q.
Proof. apply Qpower_plus. discriminate. Qed.

Lemma pow2_le a b : a <= b -> (pow2 a <= pow2 b)%Q.
Proof. intros Hab. apply Qpower_le_compat_l; [exact Hab | discriminate]. Qed.

Lemma pow2_Z n : 0 <= n -> (inject_Z (2 ^ n) == pow2 n)%Q.
Proof. intros Hn. apply (Zpower_Qpower 2 n Hn). Qed.

Lemma ilog2_le x : (0 < x)%Q -> (pow2 (ilog2 x) <= x)%Q.
Proof.
  intros Hx. unfold ilog2.
  destruct (Qle_bool _ x) eqn:Hb; [apply Qle_bool_iff, Hb|].
  destruct x as [n d]. cbn [Qnum Qden] in *.
  assert (Hn : 0 < n) by (unfold Qlt in Hx; simpl in Hx; lia).
  pose proof (Z.log2_spec n Hn) as [Hn1 _].
  pose proof (Z.log2_spec (Z.pos d) ltac:(lia)) as [_ Hd2].
  pose proof (Z.log2_nonneg n) as Ha. pose proof (Z.log2_nonneg (Z.pos d)) as Hb'.
  set (a := Z.log2 n) in *. set (b := Z.log2 (Z.pos d)) in *.
  replace (a - b - 1) with (a + - (b + 1)) by lia.
  rewrite pow2_plus. unfold pow2 at 2. rewrite Qpower_opp.
  fold (pow2 (b + 1)). rewrite <- !pow2_Z by lia.
  replace (Z.succ b) with (b + 1) in Hd2 by lia.
  assert (H0 : (0 < inject_Z (2 ^ (b + 1)))%Q).
  { rewrite pow2_Z by lia. apply pow2_pos. }
  apply Qle_shift_div_r; [exact H0|].
  assert (H1 : 2 ^ a * Z.pos d <= n * 2 ^ (b + 1)) by nia.
  unfold Qle, Qmult, inject_Z. simpl. lia.
Qed.

Lemma round_half_even_le x j : (x <= inject_Z j)%Q -> round_half_even x <= j.
Proof.
  intros Hx. unfold round_half_even.
  pose proof (Qfloor_le x) as Hf.
  assert (Hfj : Qfloor x <= j).
  { rewrite Zle_Qle. eapply Qle_trans; eassumption. }
  assert (Hup : (0 < x - inject_Z (Qfloor x))%Q -> Qfloor x + 1 <= j).
  { intros Hpos. assert (Hlt : (inject_Z (Qfloor x) < inject_Z j)%Q) by lra.
    rewrite <- Zlt_Qlt in Hlt. lia. }
  destruct (Qcompare_spec (x - inject_Z (Qfloor x)) (1 # 2)) as [He|Hl|Hg].
  - destruct (Z.even (Qfloor x)); [exact Hfj|]. apply Hup. rewrite He. reflexivity.
  - exact Hfj.
  - apply Hup. lra.
Qed.

Lemma round_half_even_nonneg x : (0 <= x)%Q -> 0 <= round_half_even x.
Proof.
  intros Hx. unfold round_half_even.
  assert (Hf : 0 <= Qfloor x).
  { change 0 with (Qfloor 0). apply Qfloor_resp_le, Hx. }
  destruct (x - inject_Z (Qfloor x) ?= 1 # 2)%Q; [destruct (Z.even _)| |]; lia.
Qed.

Lemma round64_nonneg x : (0 <= x)%Q -> (0 <= round64 x)%Q.
Proof.
  intros Hx. unfold round64. destruct (Qeq_bool x 0); [apply Qle_refl|].
  apply Qmult_le_0_compat; [|apply Qlt_le_weak, pow2_pos].
  change 0%Q with (inject_Z 0). rewrite <- Zle_Qle.
  apply round_half_even_nonneg, Qle_shift_div_l; [apply pow2_pos|]. lra.
Qed.

Lemma Qabs_nonneg_eq x : (0 <= x)%Q -> Qabs x = x.
Proof.
  destruct x as [n d]. unfold Qle, Qabs. simpl. intros Hn.
  rewrite Z.abs_eq by lia. reflexivity.
Qed.

(** Rounding does not step over a binary64 number. *)
Lemma round64_le x r : (0 <= x)%Q -> (x <= r)%Q -> binary64 r -> (round64 x <= r)%Q.
Proof.
  intros Hx0 Hxr (m & k & Hr & Hm & Hk). unfold round64.
  destruct (Qeq_bool x 0) eqn:Hz; [lra|].
  assert (Hx : (0 < x)%Q).
  { apply Qeq_bool_neq in Hz. lra. }
  set (e := ulp_exponent x).
  assert (He : (pow2 (e + 52) <= x)%Q ∨ e = -1074).
  { unfold e, ulp_exponent. rewrite Qabs_nonneg_eq by exact Hx0.
    destruct (Z.max_spec (ilog2 x - 52) (-1074)) as [[_ ->]|[_ ->]]; [right; reflexivity|].
    left. replace (ilog2 x - 52 + 52) with (ilog2 x) by lia. apply ilog2_le, Hx. }
  assert (Hj : ∃ j : Z, (r == inject_Z j * pow2 e)%Q).
  { destruct (Z_le_gt_dec e k) as [Hek|Hek].
    - exists (m * 2 ^ (k - e)). rewrite inject_Z_mult, pow2_Z by lia.
      rewrite Hr. replace k with ((k - e) + e) at 1 by lia. rewrite pow2_plus. ring.
    - exfalso. destruct He as [He|He]; [|lia].
      assert (Hm' : (inject_Z m < pow2 53)%Q).
      { rewrite <- pow2_Z by lia. rewrite <- Zlt_Qlt. lia. }
      assert (Hlt : (r < pow2 (53 + k))%Q).
      { rewrite Hr, pow2_plus. apply Qmult_lt_compat_r; [apply pow2_pos | exact Hm']. }
      pose proof (pow2_le (53 + k) (e + 52) ltac:(lia)). lra. }
  destruct Hj as [j Hj].
  assert (Hle : round_half_even (x / pow2 e) <= j).
  { apply round_half_even_le, Qle_shift_div_r; [apply pow2_pos|]. rewrite <- Hj. exact Hxr. }
  rewrite Hj. apply Qmult_le_compat_r; [|apply Qlt_le_weak, pow2_pos].
  rewrite <- Zle_Qle. exact Hle.
Qed.

Lemma finite64_between x y z :
  finite64 x -> finite64 z -> (x <= y)%Q -> (y <= z)%Q -> finite64 y.
Proof.
  unfold finite64. intros Hx Hz Hxy Hyz.
  apply Qabs_Qlt_condition in Hx, Hz. apply Qabs_Qlt_condition. lra.
Qed.

Lemma ilog2_lt x : (0 < x)%Q -> (x < pow2 (ilog2 x + 1))%Q.
Proof.
  intros Hx. unfold ilog2.
  destruct (Qle_bool _ x) eqn:Hb.
  - destruct x as [n d]. cbn [Qnum Qden] in *.
    assert (Hn : 0 < n) by (unfold Qlt in Hx; simpl in Hx; lia).
    pose proof (Z.log2_spec n Hn) as [_ Hn2].
    pose proof (Z.log2_spec (Z.pos d) ltac:(lia)) as [Hd1 _].
    pose proof (Z.log2_nonneg n) as Ha. pose proof (Z.log2_nonneg (Z.pos d)) as Hb'.
    set (a := Z.log2 n) in *. set (b := Z.log2 (Z.pos d)) in *.
    replace (a - b + 1) with ((a + 1) + - b) by lia.
    rewrite pow2_plus. unfold pow2 at 2. rewrite Qpower_opp.
    fold (pow2 b). rewrite <- !pow2_Z by lia.
    replace (Z.succ a) with (a + 1) in Hn2 by lia.
    assert (H0 : (0 < inject_Z (2 ^ b))%Q).
    { rewrite pow2_Z by lia. apply pow2_pos. }
    apply Qlt_shift_div_l; [exact H0|].
    assert (H1 : n * 2 ^ b < 2 ^ (a + 1) * Z.pos d) by nia.
    unfold Qlt, Qmult, inject_Z. simpl. lia.
  - replace (Z.log2 (Qnum x) - Z.log2 (Z.pos (Qden x)) - 1 + 1)
      with (Z.log2 (Qnum x) - Z.log2 (Z.pos (Qden x))) by lia.
    apply Qnot_le_lt. intros Hle. apply Qle_bool_iff in Hle. congruence.
Qed.

Lemma pow2_lt_inv a b : (pow2 a < pow2 b)%Q -> a < b.
Proof.
  intros Hab. destruct (Z_lt_le_dec a b) as [Hlt|Hle]; [exact Hlt|].
  pose proof (pow2_le b a Hle). lra.
Qed.

Lemma ilog2_mono x y : (0 < x)%Q -> (x <= y)%Q -> ilog2 x <= ilog2 y.
Proof.
  intros Hx Hxy.
  pose proof (ilog2_le x Hx) as H1.
  pose proof (ilog2_lt y ltac:(lra)) as H2.
  assert (Hlt : (pow2 (ilog2 x) < pow2 (ilog2 y + 1))%Q) by lra.
  apply pow2_lt_inv in Hlt. lia.
Qed.

Lemma round_half_even_ge x j : (inject_Z j <= x)%Q -> j <= round_half_even x.
Proof.
  intros Hx. unfold round_half_even.
  assert (Hfj : j <= Qfloor x).
  { replace j with (Qfloor (inject_Z j)) by apply Qfloor_Z. apply Qfloor_resp_le, Hx. }
  destruct (x - inject_Z (Qfloor x) ?= 1 # 2)%Q; [destruct (Z.even _)| |]; lia.
Qed.

Lemma round_half_even_mono x y : (x <= y)%Q -> round_half_even x <= round_half_even y.
Proof.
  intros Hxy.
  pose proof (Qfloor_resp_le x y Hxy) as Hf.
  destruct (Z.eq_dec (Qfloor x) (Qfloor y)) as [Heq|Hne].
  - unfold round_half_even. rewrite <- Heq.
    destruct (Qcompare_spec (x - inject_Z (Qfloor x)) (1 # 2)) as [Hex|Hlx|Hgx];
      destruct (Qcompare_spec (y - inject_Z (Qfloor x)) (1 # 2)) as [Hey|Hly|Hgy];
      try destruct (Z.even (Qfloor x)); try lia; lra.
  - apply round_half_even_le.
    apply Qle_trans with (inject_Z (Qfloor y)).
    + pose proof (Qlt_floor x) as Hlt.
      assert (Hz : Qfloor x + 1 <= Qfloor y) by lia.
      rewrite Zle_Qle in Hz. lra.
    + rewrite <- Zle_Qle. apply round_half_even_ge, Qfloor_le.
Qed.

(** Rounding keeps the order of two numbers. *)
Lemma round64_mono x y : (0 <= x)%Q -> (x <= y)%Q -> (round64 x <= round64 y)%Q.
Proof.
  intros Hx0 Hxy.
  destruct (Qeq_bool x 0) eqn:Hzx.
  { unfold round64 at 1. rewrite Hzx. apply round64_nonneg. lra. }
  assert (Hx : (0 < x)%Q).
  { apply Qeq_bool_neq in Hzx. lra. }
  assert (Hy : (0 < y)%Q) by lra.
  unfold round64. rewrite Hzx.
  destruct (Qeq_bool y 0) eqn:Hzy; [apply Qeq_bool_iff in Hzy; lra|].
  set (ex := ulp_exponent x). set (ey := ulp_exponent y).
  assert (Hexy : ex <= ey).
  { unfold ex, ey, ulp_exponent. rewrite !Qabs_nonneg_eq by lra.
    pose proof (ilog2_mono x y Hx Hxy). lia. }
  destruct (Z.eq_dec ex ey) as [Heq|Hne].
  - rewrite <- Heq. apply Qmult_le_compat_r; [|apply Qlt_le_weak, pow2_pos].
    rewrite <- Zle_Qle. apply round_half_even_mono.
    apply Qmult_le_compat_r; [exact Hxy|]. apply Qlt_le_weak, Qinv_lt_0_compat, pow2_pos.
  - assert (Hey : ey = ilog2 y - 52 ∧ ilog2 x + 1 <= ilog2 y).
    { unfold ex, ey, ulp_exponent in *. rewrite !Qabs_nonneg_eq in * by lra. lia. }
    destruct Hey as [Hey Hlog].
    assert (Hxp : (x < pow2 (ey + 52))%Q).
    { pose proof (ilog2_lt x Hx). pose proof (pow2_le (ilog2 x + 1) (ey + 52) ltac:(lia)). lra. }
    assert (Hpy : (pow2 (ey + 52) <= y)%Q).
    { replace (ey + 52) with (ilog2 y) by lia. apply ilog2_le, Hy. }
    apply Qle_trans with (pow2 (ey + 52)).
    + assert (Hp : (pow2 (ey + 52) == inject_Z (2 ^ (ey + 52 - ex)) * pow2 ex)%Q).
      { replace (ey + 52) with ((ey + 52 - ex) + ex) at 1 by lia.
        rewrite pow2_plus, pow2_Z by lia. reflexivity. }
      rewrite Hp. apply Qmult_le_compat_r; [|apply Qlt_le_weak, pow2_pos].
      rewrite <- Zle_Qle. apply round_half_even_le.
      apply Qle_shift_div_r; [apply pow2_pos|]. rewrite <- Hp. lra.
    + assert (Hp : (pow2 (ey + 52) == inject_Z (2 ^ 52) * pow2 ey)%Q).
      { replace (ey + 52) with (52 + ey) by lia.
        rewrite pow2_plus, pow2_Z by lia. reflexivity. }
      rewrite Hp. apply Qmult_le_compat_r; [|apply Qlt_le_weak, pow2_pos].
      rewrite <- Zle_Qle. apply round_half_even_ge.
      apply Qle_shift_div_l; [apply pow2_pos|]. rewrite <- Hp. exact Hpy.
Qed.

(** A binary64 number is not above what it rounds to, so that rounding
    does not step below a binary64 number. *)
Lemma round64_self r : (0 <= r)%Q -> binary64 r -> (r <= round64 r)%Q.
Proof.
  intros Hr0 (m & k & Hr & Hm & Hk). unfold round64.
  destruct (Qeq_bool r 0) eqn:Hz; [apply Qeq_bool_iff in Hz; lra|].
  assert (Hpos : (0 < r)%Q).
  { apply Qeq_bool_neq in Hz. lra. }
  set (e := ulp_exponent r).
  assert (He : (pow2 (e + 52) <= r)%Q ∨ e = -1074).
  { unfold e, ulp_exponent. rewrite Qabs_nonneg_eq by exact Hr0.
    destruct (Z.max_spec (ilog2 r - 52) (-1074)) as [[_ ->]|[_ ->]]; [right; reflexivity|].
    left. replace (ilog2 r - 52 + 52) with (ilog2 r) by lia. apply ilog2_le, Hpos. }
  assert (Hj : ∃ j : Z, (r == inject_Z j * pow2 e)%Q).
  { destruct (Z_le_gt_dec e k) as [Hek|Hek].
    - exists (m * 2 ^ (k - e)). rewrite inject_Z_mult, pow2_Z by lia.
      rewrite Hr. replace k with ((k - e) + e) at 1 by lia. rewrite pow2_plus. ring.
    - exfalso. destruct He as [He|He]; [|lia].
      assert (Hm' : (inject_Z m < pow2 53)%Q).
      { rewrite <- pow2_Z by lia. rewrite <- Zlt_Qlt. lia. }
      assert (Hlt : (r < pow2 (53 + k))%Q).
      { rewrite Hr, pow2_plus. apply Qmult_lt_compat_r; [apply pow2_pos | exact Hm']. }
      pose proof (pow2_le (53 + k) (e + 52) ltac:(lia)). lra. }
  destruct Hj as [j Hj].
  rewrite Hj at 1. apply Qmult_le_compat_r; [|apply Qlt_le_weak, pow2_pos].
  rewrite <- Zle_Qle. apply round_half_even_ge.
  apply Qle_shift_div_l; [apply pow2_pos|]. rewrite <- Hj. apply Qle_refl.
Qed.

Lemma round64_ge x r : (0 <= r)%Q -> (r <= x)%Q -> binary64 r -> (r <= round64 x)%Q.
Proof.
  intros Hr0 Hrx Hr. apply Qle_trans with (round64 r).
  - apply round64_self; assumption.
  - apply round64_mono; assumption.
Qed.

(** *** Indexing *)

Lemma position_nonneg n s : 0 <= s -> position n s = Z.to_nat s.
Proof. intros Hs. unfold position. rewrite bool_decide_true by exact Hs. reflexivity. Qed.

Lemma position_nat n k : position n (Z.of_nat k) = k.
Proof. rewrite position_nonneg by lia. apply Nat2Z.id. Qed.

Lemma position_negative n s :
  s < 0 -> (position n s < n)%nat -> Z.of_nat (position n s) = Z.of_nat n + s.
Proof.
  intros Hs. unfold position. rewrite bool_decide_false by lia.
  case_bool_decide; lia.
Qed.

(** *** One pass of [update_holdback_queue] *)

Lemma should_remove_step_ok sender v b i st :
  (i < length v)%nat -> (length v <= length (my_timestamp st))%nat ->
  should_remove_step sender v b i st =
  (Ret (b && (if bool_decide (Z.of_nat i = sender)
              then v !!! i =? my_timestamp st !!! i + 1
              else negb (v !!! i >? my_timestamp st !!! i))), st).
Proof.
  intros Hv HV.
  assert (Hvi : v !! i = Some (v !!! i)) by (apply list_lookup_lookup_total_lt; lia).
  assert (HVi : my_timestamp st !! i = Some (my_timestamp st !!! i))
    by (apply list_lookup_lookup_total_lt; lia).
  unfold should_remove_step.
  destruct (bool_decide (Z.of_nat i = sender));
    unfold my_timestamp_at, index, bind, gets, ret; rewrite Hvi, HVi; simpl.
  - destruct (v !!! i =? my_timestamp st !!! i + 1); destruct b; reflexivity.
  - destruct (v !!! i >? my_timestamp st !!! i); destruct b; reflexivity.
Qed.

Lemma should_remove_fold sender v st n a b :
  (a + n <= length v)%nat -> (length v <= length (my_timestamp st))%nat ->
  foldM (should_remove_step sender v) (seq a n) b st =
  (Ret (b && forallb
         (fun i : nat =>
            if bool_decide (Z.of_nat i = sender) then v !!! i =? my_timestamp st !!! i + 1
            else negb (v !!! i >? my_timestamp st !!! i))
         (seq a n)), st).
Proof.
  intros Hn HV. revert a b Hn. induction n as [|n IH]; intros a b Hn; simpl.
  - rewrite andb_true_r. reflexivity.
  - unfold bind. rewrite should_remove_step_ok by lia.
    rewrite IH by lia. rewrite andb_assoc. reflexivity.
Qed.

Lemma scan_step_ok st new_q removed e :
  (length e.1.2 <= length (my_timestamp st))%nat ->
  scan_step (new_q, removed) e st =
  (Ret (if should_remove (my_timestamp st) e
        then (new_q, removed ++ [e]) else (new_q ++ [e], removed)), st).
Proof.
  destruct e as [[sender v] message]. simpl. intros HV.
  unfold bind. rewrite should_remove_fold by (simpl; lia). simpl.
  destruct (forallb _ _); reflexivity.
Qed.

Lemma scan_ok st q new_q removed :
  Forall (fun e : entry => (length e.1.2 <= length (my_timestamp st))%nat) q ->
  foldM scan_step q (new_q, removed) st =
  (Ret (new_q ++ filter (fun e => ¬ should_remove (my_timestamp st) e) q,
        removed ++ filter (fun e => should_remove (my_timestamp st) e) q), st).
Proof.
  intros Hq. revert new_q removed.
  induction Hq as [|e q He Hq IH]; intros new_q removed; cbn [foldM].
  - rewrite !filter_nil, !app_nil_r. reflexivity.
  - unfold bind. rewrite scan_step_ok by exact He.
    rewrite !filter_cons.
    destruct (should_remove (my_timestamp st) e) eqn:Hsr; rewrite IH;
      repeat case_decide; simpl in *; try tauto;
      rewrite <- app_assoc; reflexivity.
Qed.

Lemma release_length st e :
  length (my_timestamp (release st e)) = length (my_timestamp st).
Proof. destruct e as [[sender v] message]. simpl. apply length_insert. Qed.

Lemma writable_release st e' e : writable (release st e') e ↔ writable st e.
Proof. unfold writable. rewrite release_length. reflexivity. Qed.

Lemma release_step_ok st e :
  writable st e -> release_step e st = (Ret tt, release st e).
Proof.
  destruct e as [[sender v] message]. unfold writable. simpl. intros Hs.
  unfold my_timestamp_at_int, store_my_timestamp_at_int, store_my_timestamp_at, index_int,
    index, bind, gets, deliver, modify.
  rewrite (list_lookup_lookup_total_lt _ _ Hs). simpl.
  rewrite bool_decide_true by exact Hs. reflexivity.
Qed.

Lemma foldl_release_length st R :
  length (my_timestamp (foldl release st R)) = length (my_timestamp st).
Proof.
  revert st. induction R as [|e R IH]; intros st; simpl; [reflexivity|].
  rewrite IH. apply release_length.
Qed.

Lemma for_each_release_ok st R :
  Forall (writable st) R ->
  for_each release_step R st = (Ret tt, foldl release st R).
Proof.
  intros HR. revert st HR. induction R as [|e R IH]; intros st HR; cbn [for_each foldl].
  - reflexivity.
  - inversion HR as [|? ? He HR']; subst.
    unfold bind. rewrite release_step_ok by exact He.
    apply IH. eapply Forall_impl; [exact HR'|]. intros x. apply writable_release.
Qed.

Lemma foldl_release_holdback_queue st R :
  holdback_queue (foldl release st R) = holdback_queue st.
Proof.
  revert st. induction R as [|e R IH]; intros st; simpl; [reflexivity|].
  rewrite IH. destruct e as [[sender v] message]. reflexivity.
Qed.

Lemma wf_entry_length n e : wf_entry n e -> (length e.1.2 <= n)%nat.
Proof. destruct e as [[s T] m]. simpl. lia. Qed.

Lemma wf_entry_sender n e : wf_entry n e -> 0 <= sender_of e < Z.of_nat n.
Proof. destruct e as [[s T] m]. simpl. lia. Qed.

Lemma wf_entry_slot n e : wf_entry n e -> slot n e = Z.to_nat (sender_of e).
Proof. destruct e as [[s T] m]. simpl. intros [Hs _]. apply position_nonneg. lia. Qed.

Lemma wf_entry_writable st e : wf_entry (length (my_timestamp st)) e -> writable st e.
Proof.
  intros He. unfold writable. rewrite (wf_entry_slot _ _ He).
  apply wf_entry_sender in He. lia.
Qed.

Lemma Forall_filter_keep {A} (P : A -> Prop) (Q : A -> Prop) `{!∀ x, Decision (Q x)}
    (l : list A) :
  Forall P l -> Forall P (filter Q l).
Proof.
  rewrite !Forall_forall. intros Hl x [_ Hx]%list_elem_of_filter. auto.
Qed.

Lemma pass_ok st :
  wf st ->
  update_holdback_queue_pass st =
  (Ret (bool_decide
          (filter (fun e => should_remove (my_timestamp st) e) (holdback_queue st) = [])),
   next_pass st).
Proof.
  intros Hwf. unfold update_holdback_queue_pass, bind, gets.
  rewrite scan_ok by (eapply Forall_impl; [exact Hwf | apply wf_entry_length]).
  simpl.
  rewrite for_each_release_ok.
  2:{ apply Forall_filter_keep. eapply Forall_impl; [exact Hwf | apply wf_entry_writable]. }
  unfold modify, ret, next_pass. f_equal. f_equal.
  destruct (filter _ _); reflexivity.
Qed.


Lemma next_pass_holdback_queue st :
  holdback_queue (next_pass st) =
  filter (fun e => ¬ should_remove (my_timestamp st) e) (holdback_queue st).
Proof. reflexivity. Qed.

Lemma next_pass_my_timestamp st :
  my_timestamp (next_pass st) = my_timestamp (foldl release st (ready st)).
Proof. reflexivity. Qed.

Lemma next_pass_stdout st :
  stdout (next_pass st) = stdout (foldl release st (ready st)).
Proof. reflexivity. Qed.

Lemma next_pass_wf st : wf st -> wf (next_pass st).
Proof.
  unfold wf. rewrite next_pass_holdback_queue, next_pass_my_timestamp, foldl_release_length.
  apply Forall_filter_keep.
Qed.

Lemma next_pass_shorter st :
  ready st ≠ [] ->
  (length (holdback_queue (next_pass st)) < length (holdback_queue st))%nat.
Proof.
  intros Hne. rewrite next_pass_holdback_queue.
  destruct (ready st) as [|e R] eqn:HR; [congruence|].
  assert (He : e ∈ ready st) by (rewrite HR; left).
  apply list_elem_of_filter in He as [He Hin].
  eapply length_filter_lt; [exact Hin | tauto].
Qed.

Lemma filter_nil_complement {A} (P : A -> Prop) `{!∀ x, Decision (P x)} (l : list A) :
  filter P l = [] -> filter (fun x => ¬ P x) l = l.
Proof.
  induction l as [|x l IH]; [reflexivity|].
  rewrite !filter_cons. destruct (decide (P x)) as [Hx|Hx].
  - discriminate.
  - intros Hl. rewrite decide_True by exact Hx. f_equal. apply IH, Hl.
Qed.

Lemma next_pass_idle st :
  ready st = [] -> next_pass st = set_holdback_queue (holdback_queue st) st.
Proof.
  intros HR. unfold next_pass. rewrite HR. simpl. f_equal.
  apply filter_nil_complement, HR.
Qed.

Lemma loop_unfold fuel st :
  wf st ->
  update_holdback_queue_loop (S fuel) st =
  match ready st with
  | [] => (Ret tt, next_pass st)
  | _ => update_holdback_queue_loop fuel (next_pass st)
  end.
Proof.
  intros Hwf. cbn [update_holdback_queue_loop]. unfold bind.
  rewrite pass_ok by exact Hwf.
  destruct (ready st); reflexivity.
Qed.

Lemma loop_ok fuel st :
  wf st -> (length (holdback_queue st) < fuel)%nat ->
  update_holdback_queue_loop fuel st = (Ret tt, after_passes fuel st).
Proof.
  revert st. induction fuel as [|fuel IH]; intros st Hwf Hlen; [lia|].
  rewrite loop_unfold by exact Hwf. cbn [after_passes].
  destruct (ready st) as [|e R] eqn:HR; [reflexivity|].
  apply IH; [apply next_pass_wf; exact Hwf|].
  pose proof (next_pass_shorter st) as Hs. rewrite HR in Hs.
  specialize (Hs ltac:(discriminate)). lia.
Qed.

(** Induction over the passes of a call. *)
Lemma passes_ind (P : nat -> ChatProcess -> Prop) :
  (∀ st, wf st -> P O st) ->
  (∀ fuel st, wf st -> ready st = [] -> P (S fuel) st) ->
  (∀ fuel st, wf st -> ready st ≠ [] -> P fuel (next_pass st) -> P (S fuel) st) ->
  ∀ fuel st, wf st -> P fuel st.
Proof.
  intros H0 Hstop Hgo. induction fuel as [|fuel IH]; intros st Hwf; [apply H0, Hwf|].
  destruct (ready st) as [|e R] eqn:HR.
  - apply Hstop; assumption.
  - apply Hgo; [assumption | rewrite HR; discriminate |].
    apply IH, next_pass_wf, Hwf.
Qed.

(** *** The release rule *)

Lemma should_remove_releasable V e :
  wf_entry (length V) e -> (should_remove V e ↔ releasable V e).
Proof.
  destruct e as [[s T] m]. simpl. intros [Hs HT].
  rewrite forallb_True, Forall_forall. split.
  - intros Hall. split.
    + specialize (Hall (Z.to_nat s)). rewrite bool_decide_true in Hall by lia.
      apply Z.eqb_eq, Is_true_eq_true, Hall, elem_of_seq. lia.
    + intros i Hi Hne. specialize (Hall i).
      rewrite bool_decide_false in Hall by exact Hne.
      assert (Hin : i ∈ seq 0 (length T)) by (apply elem_of_seq; lia).
      apply Hall, Is_true_eq_true, negb_true_iff in Hin.
      rewrite Z.gtb_ltb in Hin. apply Z.ltb_ge in Hin. exact Hin.
  - intros [Heq Hle] i Hi. apply elem_of_seq in Hi.
    case_bool_decide as Hc.
    + subst s. rewrite Nat2Z.id in Heq. apply Is_true_eq_left, Z.eqb_eq, Heq.
    + apply Is_true_eq_left, negb_true_iff. rewrite Z.gtb_ltb. apply Z.ltb_ge.
      apply Hle; [lia | exact Hc].
Qed.

(** *** Frames *)

Lemma engine_frame_refl st : engine_frame st st.
Proof. destruct st. reflexivity. Qed.

Lemma engine_frame_trans a b c : engine_frame a b -> engine_frame b c -> engine_frame a c.
Proof.
  unfold engine_frame. destruct a, b, c. simpl. intros Hab Hbc.
  injection Hab as -> -> -> -> -> -> -> -> -> -> -> -> ->.
  injection Hbc as -> -> -> -> -> -> -> -> -> -> -> -> ->.
  reflexivity.
Qed.

Lemma release_frame st e : engine_frame st (release st e).
Proof. destruct e as [[s T] m]. reflexivity. Qed.

Lemma foldl_release_frame st R : engine_frame st (foldl release st R).
Proof.
  revert st. induction R as [|e R IH]; intros st; simpl.
  - apply engine_frame_refl.
  - eapply engine_frame_trans; [apply release_frame | apply IH].
Qed.

Lemma next_pass_frame st : engine_frame st (next_pass st).
Proof.
  eapply engine_frame_trans; [apply (foldl_release_frame st (ready st))|].
  reflexivity.
Qed.

Lemma foldl_release_stdout st R :
  stdout (foldl release st R) = stdout st ++ map delivery R.
Proof.
  revert st. induction R as [|e R IH]; intros st; simpl.
  - rewrite app_nil_r. reflexivity.
  - rewrite IH. destruct e as [[s T] m]. simpl. rewrite <- app_assoc. reflexivity.
Qed.

Lemma deliveries_from_cons i e D :
  deliveries_from i (e :: D) =
  (if bool_decide (sender_of e = Z.of_nat i) then 1 else 0) + deliveries_from i D.
Proof.
  unfold deliveries_from. rewrite filter_cons.
  case_bool_decide; [rewrite decide_True by assumption | rewrite decide_False by assumption];
    simpl length; lia.
Qed.

Lemma deliveries_from_app i D1 D2 :
  deliveries_from i (D1 ++ D2) = deliveries_from i D1 + deliveries_from i D2.
Proof. unfold deliveries_from. rewrite filter_app, length_app. lia. Qed.

Lemma deliveries_from_nonneg i D : 0 <= deliveries_from i D.
Proof. unfold deliveries_from. lia. Qed.

Lemma release_my_timestamp_slot st e i :
  writable st e ->
  my_timestamp (release st e) !!! i =
  my_timestamp st !!! i
  + (if bool_decide (slot (length (my_timestamp st)) e = i) then 1 else 0).
Proof.
  destruct e as [[s T] m]. unfold writable. simpl. intros Hs.
  case_bool_decide as Hc.
  - subst i. rewrite list_lookup_total_insert_eq by exact Hs. reflexivity.
  - rewrite list_lookup_total_insert_ne by exact Hc. lia.
Qed.

Lemma release_my_timestamp st e i :
  0 <= sender_of e < Z.of_nat (length (my_timestamp st)) ->
  my_timestamp (release st e) !!! i =
  my_timestamp st !!! i + (if bool_decide (sender_of e = Z.of_nat i) then 1 else 0).
Proof.
  intros Hs.
  assert (Hslot : slot (length (my_timestamp st)) e = Z.to_nat (sender_of e)).
  { destruct e as [[s T] m]. simpl in *. apply position_nonneg. lia. }
  rewrite release_my_timestamp_slot by (unfold writable; rewrite Hslot; lia).
  rewrite Hslot. repeat case_bool_decide; lia.
Qed.

Lemma foldl_release_my_timestamp st R i :
  Forall (fun e => 0 <= sender_of e < Z.of_nat (length (my_timestamp st))) R ->
  my_timestamp (foldl release st R) !!! i = my_timestamp st !!! i + deliveries_from i R.
Proof.
  revert st. induction R as [|e R IH]; intros st HR; simpl.
  - unfold deliveries_from. simpl. lia.
  - inversion HR as [|? ? He HR']; subst.
    rewrite IH by (rewrite release_length; exact HR').
    rewrite release_my_timestamp by exact He.
    rewrite deliveries_from_cons. lia.
Qed.

(** *** The passes of a call *)

Lemma ready_senders st :
  wf st ->
  Forall (fun e => 0 <= sender_of e < Z.of_nat (length (my_timestamp st))) (ready st).
Proof.
  intros Hwf. apply Forall_filter_keep.
  eapply Forall_impl; [exact Hwf | apply wf_entry_sender].
Qed.

Lemma released_stop fuel st : ready st = [] -> released (S fuel) st = [].
Proof. intros HR. cbn [released]. rewrite HR. reflexivity. Qed.

Lemma released_go fuel st :
  ready st ≠ [] -> released (S fuel) st = ready st ++ released fuel (next_pass st).
Proof. intros HR. cbn [released]. destruct (ready st); [congruence | reflexivity]. Qed.

Lemma after_passes_stop fuel st : ready st = [] -> after_passes (S fuel) st = next_pass st.
Proof. intros HR. cbn [after_passes]. rewrite HR. reflexivity. Qed.

Lemma after_passes_go fuel st :
  ready st ≠ [] -> after_passes (S fuel) st = after_passes fuel (next_pass st).
Proof. intros HR. cbn [after_passes]. destruct (ready st); [congruence | reflexivity]. Qed.

Lemma pass_starts_stop fuel st : wf st -> ready st = [] -> pass_starts (S fuel) st = [st].
Proof.
  intros Hwf HR. cbn [pass_starts]. rewrite pass_ok by exact Hwf.
  rewrite bool_decide_true by exact HR. reflexivity.
Qed.

Lemma pass_starts_go fuel st :
  wf st -> ready st ≠ [] -> pass_starts (S fuel) st = st :: pass_starts fuel (next_pass st).
Proof.
  intros Hwf HR. cbn [pass_starts]. rewrite pass_ok by exact Hwf.
  rewrite bool_decide_false by exact HR. reflexivity.
Qed.

Lemma after_passes_wf fuel st : wf st -> wf (after_passes fuel st).
Proof.
  revert fuel st. apply (passes_ind (fun fuel st => wf (after_passes fuel st))).
  - intros st Hwf. exact Hwf.
  - intros fuel st Hwf HR. rewrite after_passes_stop by exact HR. apply next_pass_wf, Hwf.
  - intros fuel st Hwf HR IH. rewrite after_passes_go by exact HR. exact IH.
Qed.

Lemma after_passes_fixed fuel st :
  wf st -> (length (holdback_queue st) < fuel)%nat -> ready (after_passes fuel st) = [].
Proof.
  revert fuel st.
  apply (passes_ind (fun fuel st =>
    (length (holdback_queue st) < fuel)%nat -> ready (after_passes fuel st) = [])).
  - intros st _ Hlen. lia.
  - intros fuel st Hwf HR _. rewrite after_passes_stop, next_pass_idle by exact HR. exact HR.
  - intros fuel st Hwf HR IH Hlen. rewrite after_passes_go by exact HR.
    apply IH. pose proof (next_pass_shorter st HR). lia.
Qed.

Lemma after_passes_frame fuel st : wf st -> engine_frame st (after_passes fuel st).
Proof.
  revert fuel st. apply (passes_ind (fun fuel st => engine_frame st (after_passes fuel st))).
  - intros st _. apply engine_frame_refl.
  - intros fuel st Hwf HR. rewrite after_passes_stop by exact HR. apply next_pass_frame.
  - intros fuel st Hwf HR IH. rewrite after_passes_go by exact HR.
    eapply engine_frame_trans; [apply next_pass_frame | exact IH].
Qed.

Lemma after_passes_stdout fuel st :
  wf st -> stdout (after_passes fuel st) = stdout st ++ map delivery (released fuel st).
Proof.
  revert fuel st.
  apply (passes_ind (fun fuel st =>
    stdout (after_passes fuel st) = stdout st ++ map delivery (released fuel st))).
  - intros st _. simpl. rewrite app_nil_r. reflexivity.
  - intros fuel st Hwf HR.
    rewrite after_passes_stop, released_stop, next_pass_idle by exact HR.
    simpl. rewrite app_nil_r. reflexivity.
  - intros fuel st Hwf HR IH.
    rewrite after_passes_go, released_go, IH by exact HR.
    rewrite next_pass_stdout, foldl_release_stdout, map_app, app_assoc. reflexivity.
Qed.

Lemma after_passes_queue fuel st :
  wf st -> holdback_queue st ≡ₚ released fuel st ++ holdback_queue (after_passes fuel st).
Proof.
  revert fuel st.
  apply (passes_ind (fun fuel st =>
    holdback_queue st ≡ₚ released fuel st ++ holdback_queue (after_passes fuel st))).
  - intros st _. reflexivity.
  - intros fuel st Hwf HR.
    rewrite after_passes_stop, released_stop, next_pass_idle by exact HR. reflexivity.
  - intros fuel st Hwf HR IH.
    rewrite after_passes_go, released_go by exact HR.
    rewrite <- app_assoc, <- IH, next_pass_holdback_queue.
    symmetry. apply filter_app_complement.
Qed.

Lemma after_passes_length fuel st :
  wf st -> length (my_timestamp (after_passes fuel st)) = length (my_timestamp st).
Proof.
  revert fuel st.
  apply (passes_ind (fun fuel st =>
    length (my_timestamp (after_passes fuel st)) = length (my_timestamp st))).
  - reflexivity.
  - intros fuel st Hwf HR. rewrite after_passes_stop by exact HR.
    rewrite next_pass_my_timestamp. apply foldl_release_length.
  - intros fuel st Hwf HR IH. rewrite after_passes_go, IH by exact HR.
    rewrite next_pass_my_timestamp. apply foldl_release_length.
Qed.

Lemma after_passes_my_timestamp fuel st i :
  wf st ->
  my_timestamp (after_passes fuel st) !!! i =
  my_timestamp st !!! i + deliveries_from i (released fuel st).
Proof.
  revert fuel st.
  apply (passes_ind (fun fuel st =>
    my_timestamp (after_passes fuel st) !!! i =
    my_timestamp st !!! i + deliveries_from i (released fuel st))).
  - intros st _. simpl. unfold deliveries_from. simpl. lia.
  - intros fuel st Hwf HR.
    rewrite after_passes_stop, released_stop, next_pass_idle by exact HR.
    unfold deliveries_from. simpl. lia.
  - intros fuel st Hwf HR IH.
    rewrite after_passes_go, released_go, IH by exact HR.
    rewrite next_pass_my_timestamp, foldl_release_my_timestamp by (apply ready_senders, Hwf).
    rewrite deliveries_from_app. lia.
Qed.

Lemma released_iff fuel st e :
  wf st ->
  e ∈ released fuel st ↔
  ∃ p, p ∈ pass_starts fuel st ∧ e ∈ holdback_queue p ∧ releasable (my_timestamp p) e.
Proof.
  revert fuel st.
  apply (passes_ind (fun fuel st =>
    e ∈ released fuel st ↔
    ∃ p, p ∈ pass_starts fuel st ∧ e ∈ holdback_queue p ∧ releasable (my_timestamp p) e)).
  - intros st _. simpl. split; [intros []%elem_of_nil | intros (p & []%elem_of_nil & _)].
  - intros fuel st Hwf HR.
    rewrite released_stop by exact HR. rewrite pass_starts_stop by assumption.
    split; [intros []%elem_of_nil|].
    intros (p & ->%list_elem_of_singleton & Hin & Hrel).
    rewrite <- HR. apply list_elem_of_filter. split; [|exact Hin].
    apply should_remove_releasable; [|exact Hrel].
    unfold wf in Hwf. rewrite Forall_forall in Hwf. apply Hwf, Hin.
  - intros fuel st Hwf HR IH.
    rewrite released_go by exact HR. rewrite pass_starts_go by assumption.
    rewrite elem_of_app, IH. split.
    + intros [Hin | (p & Hp & Hin & Hrel)].
      * apply list_elem_of_filter in Hin as [Hsr Hin].
        exists st. split; [left | split; [exact Hin|]].
        apply should_remove_releasable; [|exact Hsr].
        unfold wf in Hwf. rewrite Forall_forall in Hwf. apply Hwf, Hin.
      * exists p. split; [right; exact Hp | split; assumption].
    + intros (p & Hp & Hin & Hrel). apply elem_of_cons in Hp as [-> | Hp].
      * left. apply list_elem_of_filter. split; [|exact Hin].
        apply should_remove_releasable; [|exact Hrel].
        unfold wf in Hwf. rewrite Forall_forall in Hwf. apply Hwf, Hin.
      * right. exists p. split; [exact Hp | split; assumption].
Qed.

Lemma released_queued fuel st e :
  wf st -> e ∈ released fuel st -> e ∈ holdback_queue st.
Proof.
  intros Hwf He. rewrite (after_passes_queue fuel st Hwf). apply elem_of_app. left. exact He.
Qed.

Lemma wf_elem st e : wf st -> e ∈ holdback_queue st -> wf_entry (length (my_timestamp st)) e.
Proof. unfold wf. rewrite Forall_forall. auto. Qed.

Lemma ready_releasable st e : wf st -> e ∈ ready st -> releasable (my_timestamp st) e.
Proof.
  intros Hwf [Hsr Hin]%list_elem_of_filter.
  apply should_remove_releasable; [apply wf_elem; assumption | exact Hsr].
Qed.

Lemma next_pass_my_timestamp_le st i :
  wf st -> my_timestamp st !!! i <= my_timestamp (next_pass st) !!! i.
Proof.
  intros Hwf. rewrite next_pass_my_timestamp, foldl_release_my_timestamp
    by (apply ready_senders, Hwf).
  pose proof (deliveries_from_nonneg i (ready st)). lia.
Qed.

Lemma released_next fuel st e :
  wf st -> e ∈ released fuel st ->
  my_timestamp st !!! own e + 1 <= e.1.2 !!! own e.
Proof.
  revert fuel st.
  apply (passes_ind (fun fuel st =>
    e ∈ released fuel st -> my_timestamp st !!! own e + 1 <= e.1.2 !!! own e)).
  - intros st _ []%elem_of_nil.
  - intros fuel st Hwf HR. rewrite released_stop by exact HR. intros []%elem_of_nil.
  - intros fuel st Hwf HR IH. rewrite released_go by exact HR.
    intros [He | He]%elem_of_app.
    + apply ready_releasable in He; [|exact Hwf].
      destruct e as [[s T] m]. unfold own. simpl in *. lia.
    + specialize (IH He). pose proof (next_pass_my_timestamp_le st (own e) Hwf). lia.
Qed.

Lemma released_order fuel st e1 e2 D1 D2 :
  wf st -> released fuel st = D1 ++ e2 :: D2 -> causally_before e1 e2 -> e1 ∉ D2.
Proof.
  intros Hwf Hsplit Hcb. revert fuel st Hwf D1 Hsplit.
  apply (passes_ind (fun fuel st =>
    ∀ D1, released fuel st = D1 ++ e2 :: D2 -> e1 ∉ D2)).
  - intros st _ D1 Hsplit. simpl in Hsplit. destruct D1; discriminate.
  - intros fuel st Hwf HR D1 Hsplit. rewrite released_stop in Hsplit by exact HR.
    destruct D1; discriminate.
  - intros fuel st Hwf HR IH D1 Hsplit He1.
    pose proof Hsplit as Hrel. rewrite released_go in Hsplit by exact HR.
    apply app_eq_app in Hsplit as [l [[HRl Hl] | [HD1 Hl]]].
    + destruct l as [|x l].
      * simpl in Hl. refine (IH [] _ He1). simpl. symmetry. exact Hl.
      * injection Hl as Hx HD2. subst x.
        assert (He2 : e2 ∈ ready st) by (rewrite HRl; apply elem_of_app; right; left).
        apply ready_releasable in He2; [|exact Hwf].
        assert (Hin1 : e1 ∈ released (S fuel) st).
        { rewrite Hrel. apply elem_of_app. right. right. exact He1. }
        pose proof (released_next _ _ _ Hwf Hin1) as Hnext.
        apply released_queued, wf_elem in Hin1; [|exact Hwf..].
        destruct e1 as [[s1 T1] m1], e2 as [[s2 T2] m2]. unfold own in *. simpl in *.
        destruct He2 as [Hnext2 Hothers].
        destruct Hcb as [[Hne Hle] | [-> Hlt]]; [specialize (Hothers (Z.to_nat s1))|]; lia.
    + apply (IH l); [|exact He1]. exact Hl.
Qed.

(** *** Passes on arbitrary states *)

Lemma should_remove_fold_raise sender v st n a b :
  (a + n <= length v)%nat -> (a <= length (my_timestamp st))%nat ->
  (length (my_timestamp st) < a + n)%nat ->
  foldM (should_remove_step sender v) (seq a n) b st = (Raise IndexError, st).
Proof.
  revert a b. induction n as [|n IH]; intros a b Hv Ha Hn; [lia|].
  cbn [seq foldM]. unfold bind.
  destruct (decide (a = length (my_timestamp st))) as [Heq|Hne].
  - assert (Hvi : v !! a = Some (v !!! a)) by (apply list_lookup_lookup_total_lt; lia).
    assert (HVi : my_timestamp st !! a = None) by (apply lookup_ge_None; lia).
    unfold should_remove_step.
    destruct (bool_decide (Z.of_nat a = sender));
      unfold my_timestamp_at, index, bind, gets, ret, raise; rewrite Hvi, HVi; reflexivity.
  - assert (Hstep : ∃ b', should_remove_step sender v b a st = (Ret b', st)).
    { assert (Hvi : v !! a = Some (v !!! a)) by (apply list_lookup_lookup_total_lt; lia).
      assert (HVi : my_timestamp st !! a = Some (my_timestamp st !!! a))
        by (apply list_lookup_lookup_total_lt; lia).
      unfold should_remove_step.
      destruct (bool_decide (Z.of_nat a = sender));
        unfold my_timestamp_at, index, bind, gets, ret; rewrite Hvi, HVi; eauto. }
    destruct Hstep as [b' ->]. apply IH; lia.
Qed.

Lemma scan_step_raise st acc e :
  (length (my_timestamp st) < length e.1.2)%nat ->
  scan_step acc e st = (Raise IndexError, st).
Proof.
  destruct acc as [new_q removed], e as [[sender v] message]. simpl. intros Hv.
  unfold bind. rewrite should_remove_fold_raise by (simpl; lia). reflexivity.
Qed.

Lemma scan_inv st q acc x st' :
  foldM scan_step q acc st = (Ret x, st') ->
  Forall (fun e : entry => (length e.1.2 <= length (my_timestamp st))%nat) q.
Proof.
  revert acc. induction q as [|e q IH]; intros acc Hscan; [constructor|].
  cbn [foldM] in Hscan. unfold bind in Hscan.
  destruct (decide (length e.1.2 <= length (my_timestamp st))%nat) as [He|He].
  - constructor; [exact He|]. destruct acc as [new_q removed].
    rewrite scan_step_ok in Hscan by exact He. eapply IH, Hscan.
  - rewrite scan_step_raise in Hscan by lia. discriminate.
Qed.

Lemma release_step_raise st e :
  ¬ writable st e -> release_step e st = (Raise IndexError, st).
Proof.
  destruct e as [[sender v] message]. unfold writable. simpl. intros Hs.
  unfold my_timestamp_at_int, index_int, index, bind, gets.
  rewrite (proj2 (lookup_ge_None _ _)) by lia. reflexivity.
Qed.

Lemma for_each_release_inv st R st' :
  for_each release_step R st = (Ret tt, st') -> Forall (writable st) R.
Proof.
  revert st. induction R as [|e R IH]; intros st Hrun; [constructor|].
  cbn [for_each] in Hrun. unfold bind in Hrun.
  destruct (writable_dec st e) as [He|He].
  - constructor; [exact He|].
    rewrite release_step_ok in Hrun by exact He.
    apply IH in Hrun. eapply Forall_impl; [exact Hrun|]. intros x. apply writable_release.
  - rewrite release_step_raise in Hrun by exact He. discriminate.
Qed.

Lemma pass_inv st stop st' :
  update_holdback_queue_pass st = (Ret stop, st') ->
  stop = bool_decide (ready st = []) ∧ st' = next_pass st.
Proof.
  unfold update_holdback_queue_pass. unfold bind at 1. unfold gets at 1.
  intros (lists & st1 & Hscan & Hrest)%bind_inv.
  pose proof (scan_inv _ _ _ _ _ Hscan) as Hlen.
  rewrite scan_ok in Hscan by exact Hlen. injection Hscan as <- <-. simpl in Hrest.
  apply bind_inv in Hrest as ([] & st2 & Hrel & Hrest).
  pose proof (for_each_release_inv _ _ _ Hrel) as Hsenders.
  rewrite for_each_release_ok in Hrel by exact Hsenders. injection Hrel as <-.
  unfold bind, modify, ret in Hrest. injection Hrest as <- <-.
  split; [|reflexivity].
  destruct (ready st); reflexivity.
Qed.

(** *** Fuel *)

Lemma in_fuel_ret {S A} (a : A) : in_fuel (ret a : M S A).
Proof. intros st. discriminate. Qed.

Lemma in_fuel_raise {S A} (e : exn) : in_fuel (raise e : M S A).
Proof. intros st. discriminate. Qed.

Lemma in_fuel_gets {S A} (f : S -> A) : in_fuel (gets f).
Proof. intros st. discriminate. Qed.

Lemma in_fuel_modify {S} (f : S -> S) : in_fuel (modify f).
Proof. intros st. discriminate. Qed.

Lemma in_fuel_bind {S A B} (c : M S A) (k : A -> M S B) :
  in_fuel c -> (forall a, in_fuel (k a)) -> in_fuel (bind c k).
Proof.
  intros Hc Hk st. unfold bind. specialize (Hc st).
  destruct (c st) as [[a|e|] st1]; simpl in *; [apply Hk | discriminate | congruence].
Qed.

Lemma in_fuel_index {S A} (l : list A) (i : nat) : in_fuel (index l i : M S A).
Proof. unfold index. destruct (l !! i); [apply in_fuel_ret | apply in_fuel_raise]. Qed.

Lemma in_fuel_foldM {S A B} (body : B -> A -> M S B) (l : list A) (acc : B) :
  (forall b x, in_fuel (body b x)) -> in_fuel (foldM body l acc).
Proof.
  intros Hbody. revert acc. induction l as [|x l IH]; intros acc; cbn [foldM].
  - apply in_fuel_ret.
  - apply in_fuel_bind; [apply Hbody | exact IH].
Qed.

Lemma in_fuel_for_each {S A} (body : A -> M S unit) (l : list A) :
  (forall x, in_fuel (body x)) -> in_fuel (for_each body l).
Proof.
  intros Hbody. induction l as [|x l IH]; cbn [for_each].
  - apply in_fuel_ret.
  - apply in_fuel_bind; [apply Hbody | intros _; exact IH].
Qed.

Lemma in_fuel_index_int {S A} (l : list A) (i : Z) : in_fuel (index_int l i : M S A).
Proof. apply in_fuel_index. Qed.

Create HintDb fuel.
#[export] Hint Resolve in_fuel_ret in_fuel_raise in_fuel_gets in_fuel_modify
  in_fuel_index in_fuel_index_int : fuel.

Ltac fuel_step :=
  first
    [ apply in_fuel_bind; [|intros ?]
    | apply in_fuel_foldM; intros ? ?
    | apply in_fuel_for_each; intros ?
    | solve [auto with fuel]
    | match goal with
      | |- in_fuel (if ?b then _ else _) => destruct b
      | |- in_fuel (match ?x with _ => _ end) => destruct x
      | |- in_fuel (let '_ := ?x in _) => destruct x
      end ].

Ltac fuel := repeat fuel_step.

Lemma in_fuel_my_timestamp_at i : in_fuel (my_timestamp_at i).
Proof. unfold my_timestamp_at. fuel. Qed.

Lemma in_fuel_store_my_timestamp_at i x : in_fuel (store_my_timestamp_at i x).
Proof. unfold store_my_timestamp_at. fuel. Qed.

Lemma in_fuel_my_timestamp_at_int i : in_fuel (my_timestamp_at_int i).
Proof. unfold my_timestamp_at_int, index_int. fuel. Qed.

Lemma in_fuel_store_my_timestamp_at_int i x : in_fuel (store_my_timestamp_at_int i x).
Proof. unfold store_my_timestamp_at_int, store_my_timestamp_at. fuel. Qed.

#[export] Hint Resolve in_fuel_my_timestamp_at in_fuel_store_my_timestamp_at
  in_fuel_my_timestamp_at_int in_fuel_store_my_timestamp_at_int : fuel.

Lemma in_fuel_pass : in_fuel update_holdback_queue_pass.
Proof.
  unfold update_holdback_queue_pass, scan_step, should_remove_step, release_step, deliver.
  fuel.
Qed.

Lemma loop_fuel_mono fuel st :
  (length (holdback_queue st) < fuel)%nat ->
  update_holdback_queue_loop (S fuel) st = update_holdback_queue_loop fuel st.
Proof.
  revert st. induction fuel as [|fuel IH]; intros st Hlen; [lia|].
  cbn [update_holdback_queue_loop]. unfold bind.
  destruct (update_holdback_queue_pass st) as [[stop|e|] st'] eqn:Hpass; try reflexivity.
  destruct stop; [reflexivity|].
  apply pass_inv in Hpass as [Hstop ->].
  symmetry in Hstop. apply bool_decide_eq_false in Hstop.
  change (update_holdback_queue_loop (S fuel) (next_pass st) =
          update_holdback_queue_loop fuel (next_pass st)).
  apply IH. pose proof (next_pass_shorter st Hstop). lia.
Qed.

Lemma loop_fuel_enough fuel st :
  (length (holdback_queue st) < fuel)%nat ->
  update_holdback_queue_loop fuel st = update_holdback_queue st.
Proof.
  unfold update_holdback_queue, bind, gets.
  induction fuel as [|fuel IH]; intros Hlen; [lia|].
  destruct (decide (fuel = length (holdback_queue st))) as [->|Hne]; [reflexivity|].
  rewrite loop_fuel_mono by lia. apply IH. lia.
Qed.

Lemma in_fuel_loop fuel st :
  (length (holdback_queue st) < fuel)%nat ->
  (update_holdback_queue_loop fuel st).1 ≠ OutOfFuel.
Proof.
  revert st. induction fuel as [|fuel IH]; intros st Hlen; [lia|].
  cbn [update_holdback_queue_loop]. unfold bind.
  pose proof (in_fuel_pass st) as Hp.
  destruct (update_holdback_queue_pass st) as [[stop|e|] st'] eqn:Hpass;
    [|discriminate|simpl in Hp; congruence].
  destruct stop; [discriminate|].
  apply pass_inv in Hpass as [Hstop ->].
  symmetry in Hstop. apply bool_decide_eq_false in Hstop.
  apply IH. pose proof (next_pass_shorter st Hstop). lia.
Qed.

(** *** The causal delivery engine: main results *)

Lemma update_holdback_queue_ok st :
  wf st ->
  update_holdback_queue st =
  (Ret tt, after_passes (S (length (holdback_queue st))) st).
Proof.
  intros Hwf. unfold update_holdback_queue, bind, gets.
  apply loop_ok; [exact Hwf | lia].
Qed.

(** C1: in a state of the data model, [update_holdback_queue] returns; the
    entries [D] it delivers are exactly the entries that, at the start of
    some pass of the call, are in the holdback queue and satisfy the
    release rule for the vector timestamp of that moment; [deliver] is
    called with the sender and the payload of each of them; they are the
    entries the queue loses; every delivery adds exactly 1 to the entry of
    its sender in the vector timestamp, the entry at the place that
    Python's indexing gives the sender, which for an entry of the data
    model is the index of the sender; nothing else in the object
    changes. *)
Theorem update_holdback_queue_delivers (st : ChatProcess) :
  wf st ->
  ∃ (st' : ChatProcess) (D : list entry),
    update_holdback_queue st = (Ret tt, st')
    ∧ (∀ e, e ∈ D ↔
            ∃ p, p ∈ pass_starts (S (length (holdback_queue st))) st
                 ∧ e ∈ holdback_queue p ∧ releasable (my_timestamp p) e)
    ∧ stdout st' = stdout st ++ map delivery D
    ∧ holdback_queue st ≡ₚ D ++ holdback_queue st'
    ∧ length (my_timestamp st') = length (my_timestamp st)
    ∧ (∀ i, my_timestamp st' !!! i = my_timestamp st !!! i + deliveries_from i D)
    ∧ (∀ p e, writable p e ->
              release_step e p = (Ret tt, release p e)
              ∧ my_timestamp (release p e) =
                <[slot (length (my_timestamp p)) e :=
                    my_timestamp p !!! slot (length (my_timestamp p)) e + 1]> (my_timestamp p)
              ∧ stdout (release p e) = stdout p ++ [delivery e])
    ∧ (∀ p e, wf_entry (length (my_timestamp p)) e ->
              writable p e ∧ slot (length (my_timestamp p)) e = own e)
    ∧ engine_frame st st'.
Proof.
  intros Hwf.
  exists (after_passes (S (length (holdback_queue st))) st),
         (released (S (length (holdback_queue st))) st).
  split; [apply update_holdback_queue_ok, Hwf|].
  split; [intros e; apply released_iff, Hwf|].
  split; [apply after_passes_stdout, Hwf|].
  split; [apply after_passes_queue, Hwf|].
  split; [apply after_passes_length, Hwf|].
  split; [intros i; apply after_passes_my_timestamp, Hwf|].
  split.
  { intros p e He. split; [apply release_step_ok, He|].
    destruct e as [[s T] m]. split; reflexivity. }
  split; [|apply after_passes_frame, Hwf].
  intros p e He. split; [apply wf_entry_writable, He | apply wf_entry_slot, He].
Qed.

Lemma scenario_wf : wf scenario_p2_with_A.
Proof. repeat constructor; lia. Qed.

Lemma update_holdback_queue_delivers_witness :
  wf scenario_p2_with_A ∧
  ∃ (st' : ChatProcess) (D : list entry),
    update_holdback_queue scenario_p2_with_A = (Ret tt, st')
    ∧ (∀ e, e ∈ D ↔
            ∃ p, p ∈ pass_starts (S (length (holdback_queue scenario_p2_with_A)))
                       scenario_p2_with_A
                 ∧ e ∈ holdback_queue p ∧ releasable (my_timestamp p) e)
    ∧ stdout st' = stdout scenario_p2_with_A ++ map delivery D
    ∧ holdback_queue scenario_p2_with_A ≡ₚ D ++ holdback_queue st'
    ∧ length (my_timestamp st') = length (my_timestamp scenario_p2_with_A)
    ∧ (∀ i, my_timestamp st' !!! i =
            my_timestamp scenario_p2_with_A !!! i + deliveries_from i D)
    ∧ (∀ p e, writable p e ->
              release_step e p = (Ret tt, release p e)
              ∧ my_timestamp (release p e) =
                <[slot (length (my_timestamp p)) e :=
                    my_timestamp p !!! slot (length (my_timestamp p)) e + 1]> (my_timestamp p)
              ∧ stdout (release p e) = stdout p ++ [delivery e])
    ∧ (∀ p e, wf_entry (length (my_timestamp p)) e ->
              writable p e ∧ slot (length (my_timestamp p)) e = own e)
    ∧ engine_frame scenario_p2_with_A st'.
Proof.
  split; [exact scenario_wf|].
  apply (update_holdback_queue_delivers scenario_p2_with_A). exact scenario_wf.
Defined.

(** *** Chains *)

Lemma deliveries_from_perm i D D' : D ≡ₚ D' -> deliveries_from i D = deliveries_from i D'.
Proof. intros HD. unfold deliveries_from. rewrite HD. reflexivity. Qed.

Lemma deliveries_from_subset i C D :
  NoDup C -> (∀ e, e ∈ C -> e ∈ D) -> deliveries_from i C <= deliveries_from i D.
Proof.
  intros HC Hsub.
  destruct (submseteq_Permutation _ _ (NoDup_submseteq _ _ HC Hsub)) as [k Hk].
  rewrite (deliveries_from_perm i _ _ Hk), deliveries_from_app.
  pose proof (deliveries_from_nonneg i k). lia.
Qed.

Lemma distinct_messages_NoDup q : distinct_messages q -> NoDup q.
Proof. apply NoDup_fmap_1. Qed.

Lemma distinct_messages_filter (P : entry -> Prop) `{!∀ e, Decision (P e)} q :
  distinct_messages q -> distinct_messages (filter P q).
Proof.
  unfold distinct_messages. intros Hq.
  eapply sublist_NoDup; [exact Hq|]. apply fmap_sublist, sublist_filter.
Qed.

Lemma distinct_messages_eq q e1 e2 :
  distinct_messages q -> e1 ∈ q -> e2 ∈ q -> message_of e1 = message_of e2 -> e1 = e2.
Proof.
  unfold distinct_messages. intros Hq H1 H2 Heq.
  apply list_elem_of_lookup_1 in H1 as [i1 H1], H2 as [i2 H2].
  assert (Hi : i1 = i2).
  { eapply NoDup_lookup; [exact Hq | |].
    - rewrite list_lookup_fmap, H1. reflexivity.
    - rewrite list_lookup_fmap, H2. simpl. rewrite Heq. reflexivity. }
  subst i2. congruence.
Qed.

(** In one pass at most one entry of a sender is ready. *)
Lemma ready_one_per_sender st (s : nat) :
  wf st -> distinct_messages (holdback_queue st) ->
  deliveries_from s (ready st) <= 1.
Proof.
  intros Hwf Hq. unfold deliveries_from.
  assert (Hnd : NoDup (filter (fun e => sender_of e = Z.of_nat s) (ready st))).
  { apply distinct_messages_NoDup. do 2 apply distinct_messages_filter. exact Hq. }
  destruct (filter (fun e => sender_of e = Z.of_nat s) (ready st)) as [|e1 [|e2 R]] eqn:HR;
    simpl; try lia.
  exfalso.
  assert (H1 : e1 ∈ filter (fun e => sender_of e = Z.of_nat s) (ready st))
    by (rewrite HR; left).
  assert (H2 : e2 ∈ filter (fun e => sender_of e = Z.of_nat s) (ready st))
    by (rewrite HR; right; left).
  apply list_elem_of_filter in H1 as [Hs1 H1], H2 as [Hs2 H2].
  pose proof (ready_releasable _ _ Hwf H1) as Hr1.
  pose proof (ready_releasable _ _ Hwf H2) as Hr2.
  apply list_elem_of_filter in H1 as [_ H1], H2 as [_ H2].
  assert (Heq : e1 = e2).
  { apply (distinct_messages_eq _ _ _ Hq H1 H2).
    destruct e1 as [[s1 T1] m1], e2 as [[s2 T2] m2]. unfold message_of, own. simpl in *.
    subst s1 s2. f_equal. lia. }
  subst e2. apply NoDup_cons in Hnd as [Hnd _]. apply Hnd. left.
Qed.

Lemma wf_own st e : wf st -> e ∈ holdback_queue st -> sender_of e = Z.of_nat (own e).
Proof.
  intros Hwf Hin. pose proof (wf_entry_sender _ _ (wf_elem _ _ Hwf Hin)). unfold own. lia.
Qed.

(** An entry that is ahead of the vector timestamp at the index of its
    sender is delivered by the call, or is still ahead when the call
    returns: no other entry takes its turn. *)
Lemma no_overtaking fuel st e :
  wf st -> distinct_messages (holdback_queue st) -> e ∈ holdback_queue st ->
  my_timestamp st !!! own e < e.1.2 !!! own e ->
  e ∈ released fuel st
  ∨ (e ∈ holdback_queue (after_passes fuel st)
     ∧ my_timestamp (after_passes fuel st) !!! own e < e.1.2 !!! own e).
Proof.
  revert fuel st.
  apply (passes_ind (fun fuel st =>
    distinct_messages (holdback_queue st) -> e ∈ holdback_queue st ->
    my_timestamp st !!! own e < e.1.2 !!! own e ->
    e ∈ released fuel st
    ∨ (e ∈ holdback_queue (after_passes fuel st)
       ∧ my_timestamp (after_passes fuel st) !!! own e < e.1.2 !!! own e))).
  - intros st _ _ Hin Hlt. right. simpl. auto.
  - intros fuel st Hwf HR _ Hin Hlt. right.
    rewrite after_passes_stop, next_pass_idle by exact HR. simpl. auto.
  - intros fuel st Hwf HR IH Hq Hin Hlt.
    rewrite released_go, after_passes_go by exact HR.
    destruct (decide (e ∈ ready st)) as [He|He].
    { left. apply elem_of_app. left. exact He. }
    assert (Hin' : e ∈ holdback_queue (next_pass st)).
    { rewrite next_pass_holdback_queue. apply list_elem_of_filter. split; [|exact Hin].
      intros Hsr. apply He, list_elem_of_filter. split; assumption. }
    assert (Hlt' : my_timestamp (next_pass st) !!! own e < e.1.2 !!! own e).
    { rewrite next_pass_my_timestamp, foldl_release_my_timestamp
        by (apply ready_senders, Hwf).
      pose proof (ready_one_per_sender st (own e) Hwf Hq) as Hone.
      pose proof (deliveries_from_nonneg (own e) (ready st)) as H0.
      destruct (decide (deliveries_from (own e) (ready st) = 0)) as [Hz|Hnz]; [lia|].
      assert (Hr : ∃ r, r ∈ ready st ∧ sender_of r = Z.of_nat (own e)).
      { unfold deliveries_from in Hnz.
        destruct (filter (fun e0 => sender_of e0 = Z.of_nat (own e)) (ready st))
          as [|r R] eqn:HF; [simpl in Hnz; lia|].
        assert (Hr : r ∈ filter (fun e0 => sender_of e0 = Z.of_nat (own e)) (ready st))
          by (rewrite HF; left).
        apply list_elem_of_filter in Hr as [Hs Hr]. exists r. auto. }
      destruct Hr as (r & Hr & Hs).
      pose proof (ready_releasable _ _ Hwf Hr) as Hrel.
      destruct (decide (e.1.2 !!! own e = my_timestamp st !!! own e + 1))
        as [Heq|Hne]; [|lia].
      exfalso. apply He.
      assert (Hre : r = e).
      { apply list_elem_of_filter in Hr as [_ Hrq].
        apply (distinct_messages_eq _ _ _ Hq Hrq Hin).
        pose proof (wf_own _ _ Hwf Hin) as Hown.
        destruct r as [[sr Tr] mr], e as [[s T] m]. unfold message_of, own in *.
        simpl in *. destruct Hrel as [Hr1 _].
        assert (sr = s) as -> by lia. f_equal. lia. }
      subst r. exact Hr. }
    destruct (IH (distinct_messages_filter _ _ Hq) Hin' Hlt') as [Hrel|Hstay].
    + left. apply elem_of_app. right. exact Hrel.
    + right. exact Hstay.
Qed.

Lemma chain_tail st e C : chain st (e :: C) -> chain (release st e) C.
Proof.
  intros Hc C1 x C2 HC. apply (Hc (e :: C1) x C2). rewrite HC. reflexivity.
Qed.

Lemma chain_released fuel st C :
  wf st -> (length (holdback_queue st) < fuel)%nat ->
  distinct_messages (holdback_queue st) ->
  (∀ e, e ∈ C -> e ∈ holdback_queue st) -> chain st C ->
  ∀ e, e ∈ C -> e ∈ released fuel st.
Proof.
  intros Hwf Hfuel Hq Hsub Hchain.
  assert (Hrange : ∀ C1, (∀ e, e ∈ C1 -> e ∈ C) ->
            Forall (fun e => 0 <= sender_of e < Z.of_nat (length (my_timestamp st))) C1).
  { intros C1 H1. apply Forall_forall. intros x Hx.
    apply wf_entry_sender, wf_elem; [exact Hwf | apply Hsub, H1, Hx]. }
  assert (Hahead : ∀ C1 e C2, C = C1 ++ e :: C2 ->
            e.1.2 !!! own e =
            my_timestamp st !!! own e + deliveries_from (own e) C1 + 1).
  { intros C1 e C2 HC. pose proof (Hchain C1 e C2 HC) as Hrel.
    rewrite <- foldl_release_my_timestamp.
    2:{ apply Hrange. intros x Hx. rewrite HC. apply elem_of_app. left. exact Hx. }
    destruct e as [[s T] m]. unfold own. simpl in *. lia. }
  assert (Hown : ∀ e, e ∈ C -> sender_of e = Z.of_nat (own e)).
  { intros e He. apply (wf_own st); [exact Hwf | apply Hsub, He]. }
  assert (Hnodup : ∀ C1 e C2, C = C1 ++ e :: C2 -> e ∉ C1).
  { intros C1 e C2 HC Hin. apply list_elem_of_split in Hin as (C0 & C1' & ->).
    pose proof (Hahead _ _ _ HC) as H2.
    assert (He : e ∈ C) by (rewrite HC; apply elem_of_app; right; left).
    rewrite <- app_assoc in HC. simpl in HC.
    pose proof (Hahead _ _ _ HC) as H1.
    rewrite deliveries_from_app, deliveries_from_cons, bool_decide_true in H2
      by (apply Hown, He).
    pose proof (deliveries_from_nonneg (own e) C1'). lia. }
  assert (Hprefix : ∀ n C1 e C2, length C1 = n -> C = C1 ++ e :: C2 -> e ∈ released fuel st).
  { induction n as [n IH] using lt_wf_ind. intros C1 e C2 Hn HC.
    assert (HC1 : ∀ x, x ∈ C1 -> x ∈ released fuel st).
    { intros x Hx. apply list_elem_of_split in Hx as (Ca & Cb & ->).
      apply (IH (length Ca)) with (C1 := Ca) (C2 := Cb ++ e :: C2);
        [rewrite <- Hn, length_app; simpl; lia | reflexivity |].
      rewrite HC, <- app_assoc. reflexivity. }
    assert (HndC1 : NoDup C1).
    { clear -Hnodup HC. revert e C2 HC. induction C1 as [|x C1 IHC] using rev_ind;
        intros e C2 HC; [constructor|].
      apply NoDup_app. split; [|split; [|apply NoDup_singleton]].
      - apply (IHC x (e :: C2)). rewrite HC, <- app_assoc. reflexivity.
      - intros y Hy ->%list_elem_of_singleton.
        apply (Hnodup C1 x (e :: C2)); [|exact Hy]. rewrite HC, <- app_assoc. reflexivity. }
    assert (Hin : e ∈ holdback_queue st).
    { apply Hsub. rewrite HC. apply elem_of_app. right. left. }
    pose proof (Hahead _ _ _ HC) as Hseq.
    pose proof (deliveries_from_nonneg (own e) C1) as H0.
    destruct (no_overtaking fuel st e Hwf Hq Hin ltac:(lia)) as [Hrel|[Hstay Hlt]];
      [exact Hrel|].
    exfalso.
    pose proof (after_passes_fixed fuel st Hwf Hfuel) as Hfix.
    assert (He : e ∈ ready (after_passes fuel st)); [|rewrite Hfix in He; inversion He].
    apply list_elem_of_filter. split; [|exact Hstay].
    apply should_remove_releasable.
    { rewrite after_passes_length by exact Hwf. apply wf_elem; assumption. }
    pose proof (Hchain _ _ _ HC) as Hrel.
    assert (HV1 : ∀ i, my_timestamp (foldl release st C1) !!! i =
                       my_timestamp st !!! i + deliveries_from i C1).
    { intros i. apply foldl_release_my_timestamp, Hrange.
      intros x Hx. rewrite HC. apply elem_of_app. left. exact Hx. }
    assert (HV' : ∀ i, my_timestamp (after_passes fuel st) !!! i =
                       my_timestamp st !!! i + deliveries_from i (released fuel st))
      by (intros i; apply after_passes_my_timestamp, Hwf).
    assert (Hle : ∀ i, deliveries_from i C1 <= deliveries_from i (released fuel st))
      by (intros i; apply deliveries_from_subset; assumption).
    destruct e as [[s T] m]. unfold own in *. simpl in *. destruct Hrel as [Hs Hothers].
    rewrite foldl_release_length in Hothers. rewrite HV1 in Hs.
    rewrite HV' in Hlt. specialize (Hle (Z.to_nat s)) as Hles.
    split; [rewrite HV'; lia|].
    intros i Hi Hne. rewrite after_passes_length in Hi by exact Hwf.
    specialize (Hothers i Hi Hne). rewrite HV1 in Hothers. rewrite HV'.
    specialize (Hle i). lia. }
  intros e He. apply list_elem_of_split in He as (C1 & C2 & HC).
  exact (Hprefix (length C1) C1 e C2 eq_refl HC).
Qed.

(** C2: in a state of the data model, [update_holdback_queue] returns in a
    state in which no entry of the holdback queue satisfies the release
    rule, and in which a further pass releases nothing and changes
    nothing.  The vector timestamp it returns with is the one it started
    with, raised at every index by the number of entries delivered for
    that sender.  A causal chain that is in the queue is delivered in
    full: when no two entries of the queue stand for the same message of
    the same sender, and each entry of a list of entries of the queue
    satisfies the release rule once the entries before it in the list
    have been delivered, the call delivers every entry of the list.  The
    entries it delivers are delivered in the order of the chain. *)
Theorem update_holdback_queue_fixed_point (st : ChatProcess) :
  wf st ->
  ∃ (st' : ChatProcess) (D : list entry),
    update_holdback_queue st = (Ret tt, st')
    ∧ (∀ e, e ∈ holdback_queue st' -> ¬ releasable (my_timestamp st') e)
    ∧ update_holdback_queue_pass st' = (Ret true, st')
    ∧ stdout st' = stdout st ++ map delivery D
    ∧ holdback_queue st ≡ₚ D ++ holdback_queue st'
    ∧ length (my_timestamp st') = length (my_timestamp st)
    ∧ (∀ i : nat, my_timestamp st' !!! i = my_timestamp st !!! i + deliveries_from i D)
    ∧ (∀ C : list entry,
         distinct_messages (holdback_queue st) ->
         (∀ e, e ∈ C -> e ∈ holdback_queue st) -> chain st C ->
         ∀ e, e ∈ C -> e ∈ D)
    ∧ (∀ e1 e2 D1 D2, D = D1 ++ e2 :: D2 -> causally_before e1 e2 -> e1 ∉ D2).
Proof.
  intros Hwf.
  pose proof (after_passes_wf (S (length (holdback_queue st))) st Hwf) as Hwf'.
  pose proof (after_passes_fixed (S (length (holdback_queue st))) st Hwf ltac:(lia)) as Hfix.
  exists (after_passes (S (length (holdback_queue st))) st),
         (released (S (length (holdback_queue st))) st).
  split; [apply update_holdback_queue_ok, Hwf|].
  split.
  { intros e Hin Hrel.
    assert (He : e ∈ ready (after_passes (S (length (holdback_queue st))) st)).
    { apply list_elem_of_filter. split; [|exact Hin].
      apply should_remove_releasable; [apply wf_elem; assumption | exact Hrel]. }
    rewrite Hfix in He. apply elem_of_nil in He. exact He. }
  split.
  { rewrite pass_ok by exact Hwf'. rewrite bool_decide_true by exact Hfix.
    rewrite next_pass_idle by exact Hfix.
    destruct (after_passes _ st). reflexivity. }
  split; [apply after_passes_stdout, Hwf|].
  split; [apply after_passes_queue, Hwf|].
  split; [apply after_passes_length, Hwf|].
  split; [intros i; apply after_passes_my_timestamp, Hwf|].
  split.
  { intros C Hq Hsub Hchain. apply chain_released; [exact Hwf | lia | assumption..]. }
  intros e1 e2 D1 D2 HD Hcb. exact (released_order _ _ _ _ _ _ Hwf HD Hcb).
Qed.

Lemma update_holdback_queue_fixed_point_witness :
  wf scenario_p2_with_A
  ∧ distinct_messages (holdback_queue scenario_p2_with_A)
  ∧ chain scenario_p2_with_A [(0, [1; 0; 0], "A"%string); (1, [1; 1; 0], "B"%string)]
  ∧ ∃ (st' : ChatProcess) (D : list entry),
    update_holdback_queue scenario_p2_with_A = (Ret tt, st')
    ∧ (∀ e, e ∈ holdback_queue st' -> ¬ releasable (my_timestamp st') e)
    ∧ (∀ i : nat,
         my_timestamp st' !!! i = my_timestamp scenario_p2_with_A !!! i + deliveries_from i D)
    ∧ (0, [1; 0; 0], "A"%string) ∈ D
    ∧ (1, [1; 1; 0], "B"%string) ∈ D.
Proof.
  assert (Hwf : wf scenario_p2_with_A) by exact scenario_wf.
  assert (Hq : distinct_messages (holdback_queue scenario_p2_with_A)).
  { unfold distinct_messages. simpl. apply NoDup_cons. split; [|apply NoDup_singleton].
    intros Hin%list_elem_of_singleton. discriminate. }
  assert (Hchain : chain scenario_p2_with_A
            [(0, [1; 0; 0], "A"%string); (1, [1; 1; 0], "B"%string)]).
  { intros C1 e C2 HC. destruct C1 as [|a [|b C1]].
    - injection HC as <- _. split; [reflexivity|].
      intros [|[|[|i]]] Hi Hne; simpl in *; try lia; try congruence.
    - injection HC as <- <- _. split; [reflexivity|].
      intros [|[|[|i]]] Hi Hne; simpl in *; try lia; try congruence.
    - injection HC as _ _ HC. destruct C1; discriminate. }
  split; [exact Hwf|]. split; [exact Hq|]. split; [exact Hchain|].
  destruct (update_holdback_queue_fixed_point scenario_p2_with_A Hwf)
    as (st' & D & Hrun & Hfix & _ & _ & _ & _ & HV & Hfull & _).
  exists st', D. split; [exact Hrun|]. split; [exact Hfix|]. split; [exact HV|].
  assert (Hsub : ∀ e, e ∈ [(0, [1; 0; 0], "A"%string); (1, [1; 1; 0], "B"%string)] ->
            e ∈ holdback_queue scenario_p2_with_A).
  { intros e [->|[->|[]%elem_of_nil]%elem_of_cons]%elem_of_cons; simpl.
    - right. left.
    - left. }
  split; apply (Hfull _ Hq Hsub Hchain); [left | right; left].
Defined.

(** C3: process 2 of three has the vector timestamp [0,0,0] and holds back
    (1, [1,1,0], "B"); once (0, [1,0,0], "A") is appended, one call of
    [update_holdback_queue] delivers "A", then "B", and returns with an
    empty holdback queue and the vector timestamp [1,1,0].  The call makes
    three passes: the first releases "A" and keeps "B", the second
    releases "B", the third finds nothing. *)
Theorem scenario_A_then_B :
  my_timestamp scenario_p2 = [0; 0; 0]
  ∧ holdback_queue scenario_p2 = [(1, [1; 1; 0], "B"%string)]
  ∧ holdback_queue scenario_p2_with_A =
      [(1, [1; 1; 0], "B"%string); (0, [1; 0; 0], "A"%string)]
  ∧ ∃ st' : ChatProcess,
      update_holdback_queue scenario_p2_with_A = (Ret tt, st')
      ∧ stdout st' = [(0, "A"%string); (1, "B"%string)]
      ∧ holdback_queue st' = []
      ∧ my_timestamp st' = [1; 1; 0]
      ∧ map (fun p => (my_timestamp p, holdback_queue p, stdout p))
          (pass_starts 3 scenario_p2_with_A) =
        [ ([0; 0; 0],
           [(1, [1; 1; 0], "B"%string); (0, [1; 0; 0], "A"%string)], []);
          ([1; 0; 0], [(1, [1; 1; 0], "B"%string)], [(0, "A"%string)]);
          ([1; 1; 0], [], [(0, "A"%string); (1, "B"%string)]) ].
Proof.
  split; [reflexivity|]. split; [reflexivity|]. split; [reflexivity|].
  eexists. split; [vm_compute; reflexivity|].
  repeat split; vm_compute; reflexivity.
Qed.

Lemma pass_starts_length fuel st :
  (length (pass_starts fuel st) <= length (holdback_queue st) + 1)%nat.
Proof.
  revert st. induction fuel as [|fuel IH]; intros st; cbn [pass_starts length]; [lia|].
  destruct (update_holdback_queue_pass st) as [[stop|e|] st'] eqn:Hpass;
    cbn [length]; try lia.
  destruct stop; cbn [length]; [lia|].
  apply pass_inv in Hpass as [Hstop ->].
  symmetry in Hstop. apply bool_decide_eq_false in Hstop.
  pose proof (next_pass_shorter st Hstop). specialize (IH (next_pass st)). lia.
Qed.

Lemma next_pass_lengths st :
  (length (stdout (next_pass st)) + length (holdback_queue (next_pass st)) =
   length (stdout st) + length (holdback_queue st))%nat.
Proof.
  rewrite next_pass_stdout, foldl_release_stdout, next_pass_holdback_queue.
  rewrite length_app, length_map.
  pose proof (filter_app_complement
    (fun e => Is_true (should_remove (my_timestamp st) e)) (holdback_queue st)) as Hp.
  apply Permutation_length in Hp. rewrite length_app in Hp. lia.
Qed.

(** C10: a call of [update_holdback_queue] on a queue of [n] entries ends
    within [n + 1] passes of its loop, normally or by an exception:
    allowing the loop more passes than that changes nothing.  A pass that
    completes keeps a sublist of the queue, calls [deliver] once for each
    entry it drops, and when it is not the last pass it drops at least
    one entry. *)
Theorem update_holdback_queue_terminates (st : ChatProcess) (fuel : nat) :
  (length (holdback_queue st) < fuel)%nat ->
  update_holdback_queue_loop fuel st = update_holdback_queue st
  ∧ (update_holdback_queue st).1 ≠ OutOfFuel
  ∧ (length (pass_starts fuel st) <= length (holdback_queue st) + 1)%nat
  ∧ ∀ p stop p',
      update_holdback_queue_pass p = (Ret stop, p') ->
      sublist (holdback_queue p') (holdback_queue p)
      ∧ (length (stdout p') + length (holdback_queue p') =
         length (stdout p) + length (holdback_queue p))%nat
      ∧ (stop = false -> (length (holdback_queue p') < length (holdback_queue p))%nat).
Proof.
  intros Hlen.
  split; [apply loop_fuel_enough, Hlen|].
  split.
  { unfold update_holdback_queue, bind, gets. apply in_fuel_loop. lia. }
  split; [apply pass_starts_length|].
  intros p stop p' [-> ->]%pass_inv.
  split; [rewrite next_pass_holdback_queue; apply sublist_filter|].
  split; [apply next_pass_lengths|].
  intros Hstop. apply bool_decide_eq_false in Hstop. apply next_pass_shorter, Hstop.
Qed.

Lemma update_holdback_queue_terminates_witness :
  (length (holdback_queue scenario_p2_with_A) < 3)%nat
  ∧ update_holdback_queue_loop 3 scenario_p2_with_A =
    update_holdback_queue scenario_p2_with_A
  ∧ (update_holdback_queue scenario_p2_with_A).1 ≠ OutOfFuel.
Proof.
  split; [simpl; lia|].
  destruct (update_holdback_queue_terminates scenario_p2_with_A 3) as (H1 & H2 & _).
  - simpl. lia.
  - split; assumption.
Defined.

(** *** Frames of computations *)

Section Preserves.
Context {S : Type} (R : S -> S -> Prop) `{!PreOrder R}.

Lemma preserves_ret {A} (a : A) : preserves R (ret a).
Proof. intros st. reflexivity. Qed.

Lemma preserves_raise {A} (e : exn) : preserves R (raise e : M S A).
Proof. intros st. reflexivity. Qed.

Lemma preserves_out_of_fuel {A} : preserves R (out_of_fuel : M S A).
Proof. intros st. reflexivity. Qed.

Lemma preserves_gets {A} (f : S -> A) : preserves R (gets f).
Proof. intros st. reflexivity. Qed.

Lemma preserves_modify (f : S -> S) : (forall st, R st (f st)) -> preserves R (modify f).
Proof. intros Hf st. apply Hf. Qed.

Lemma preserves_bind {A B} (c : M S A) (k : A -> M S B) :
  preserves R c -> (forall a, preserves R (k a)) -> preserves R (bind c k).
Proof.
  intros Hc Hk st. unfold bind. specialize (Hc st).
  destruct (c st) as [[a|e|] st1]; simpl in *; try exact Hc.
  etransitivity; [exact Hc | apply Hk].
Qed.

Lemma preserves_index {A} (l : list A) (i : nat) : preserves R (index l i : M S A).
Proof. unfold index. destruct (l !! i); [apply preserves_ret | apply preserves_raise]. Qed.

Lemma preserves_foldM {A B} (body : B -> A -> M S B) (l : list A) (acc : B) :
  (forall b x, preserves R (body b x)) -> preserves R (foldM body l acc).
Proof.
  intros Hbody. revert acc. induction l as [|x l IH]; intros acc; cbn [foldM].
  - apply preserves_ret.
  - apply preserves_bind; [apply Hbody | exact IH].
Qed.

Lemma preserves_for_each {A} (body : A -> M S unit) (l : list A) :
  (forall x, preserves R (body x)) -> preserves R (for_each body l).
Proof.
  intros Hbody. induction l as [|x l IH]; cbn [for_each].
  - apply preserves_ret.
  - apply preserves_bind; [apply Hbody | intros _; exact IH].
Qed.

End Preserves.

#[export] Instance keeps_preorder {S X} (f : S -> X) : PreOrder (keeps f).
Proof.
  split.
  - intros st. reflexivity.
  - intros a b c Hab Hbc. unfold keeps in *. congruence.
Qed.

#[export] Instance vt_le_preorder : PreOrder vt_le.
Proof.
  split.
  - intros st. split; [reflexivity | intros i; lia].
  - intros a b c [Hab1 Hab2] [Hbc1 Hbc2]. split; [congruence|].
    intros i. specialize (Hab2 i). specialize (Hbc2 i). lia.
Qed.

Lemma keeps_vt_le st st' : keeps my_timestamp st st' -> vt_le st st'.
Proof. unfold keeps, vt_le. intros ->. split; [reflexivity | intros i; lia]. Qed.

Create HintDb frame.
Lemma preserves_index_int {S A} (R : S -> S -> Prop) `{!PreOrder R} (l : list A) (i : Z) :
  preserves R (index_int l i : M S A).
Proof. apply preserves_index. exact _. Qed.

#[export] Hint Resolve preserves_ret preserves_raise preserves_out_of_fuel preserves_gets
  preserves_index preserves_index_int : frame.

Ltac frame_step :=
  first
    [ apply preserves_bind; [typeclasses eauto | | intros ?]
    | apply preserves_foldM; [typeclasses eauto | intros ? ?]
    | apply preserves_for_each; [typeclasses eauto | intros ?]
    | apply preserves_modify; intros ?; solve [reflexivity | split; [reflexivity | intros ?; simpl; lia]]
    | solve [auto with frame typeclass_instances]
    | match goal with
      | |- preserves _ (if ?b then _ else _) => destruct b
      | |- preserves _ (match ?x with _ => _ end) => destruct x
      end ].

Ltac frame := repeat frame_step.

Section SendFrames.
Context `{Helpers}.

Lemma unicast_send_keeps {X} (f : ChatProcess -> X) destination message msg_id is_ack timestamp :
  (forall x st, f (set_message_id_counter x st) = f st) ->
  (forall x st, f (set_unack_messages x st) = f st) ->
  (forall x st, f (set_random_pos x st) = f st) ->
  (forall x st, f (set_clock_pos x st) = f st) ->
  (forall x st, f (set_queue x st) = f st) ->
  preserves (keeps f) (unicast_send destination message msg_id is_ack timestamp).
Proof.
  intros H1 H2 H3 H4 H5.
  unfold unicast_send, random_uniform, random_random, time_time.
  repeat first
    [ apply preserves_bind; [typeclasses eauto | | intros ?]
    | apply preserves_modify; intros ?; unfold keeps; solve [auto]
    | solve [auto with frame typeclass_instances]
    | match goal with
      | |- preserves _ (if ?b then _ else _) => destruct b
      | |- preserves _ (match ?x with _ => _ end) => destruct x
      end ].
Qed.

End SendFrames.

Lemma preserves_weaken {S A} (R R' : S -> S -> Prop) (c : M S A) :
  (forall st st', R st st' -> R' st st') -> preserves R c -> preserves R' c.
Proof. intros HR Hc st. apply HR, Hc. Qed.

(** *** Vector monotonicity *)

Lemma release_vt_le st e : writable st e -> vt_le st (release st e).
Proof.
  intros He. split; [apply release_length|].
  intros i. rewrite release_my_timestamp_slot by exact He.
  case_bool_decide; lia.
Qed.

Lemma release_step_vt_le e : preserves vt_le (release_step e).
Proof.
  intros st. destruct (writable_dec st e) as [He|He].
  - rewrite release_step_ok by exact He. apply release_vt_le, He.
  - rewrite release_step_raise by exact He. reflexivity.
Qed.

Lemma update_holdback_queue_pass_vt_le : preserves vt_le update_holdback_queue_pass.
Proof.
  unfold update_holdback_queue_pass, scan_step, should_remove_step, my_timestamp_at.
  repeat first [ apply release_step_vt_le | frame_step ].
Qed.

Lemma update_holdback_queue_loop_vt_le fuel : preserves vt_le (update_holdback_queue_loop fuel).
Proof.
  induction fuel as [|fuel IH]; cbn [update_holdback_queue_loop].
  - apply preserves_out_of_fuel. typeclasses eauto.
  - apply preserves_bind; [typeclasses eauto | apply update_holdback_queue_pass_vt_le |].
    intros [|]; [apply preserves_ret; typeclasses eauto | exact IH].
Qed.

Lemma update_holdback_queue_vt_le : preserves vt_le update_holdback_queue.
Proof.
  unfold update_holdback_queue.
  apply preserves_bind; [typeclasses eauto | frame |].
  intros q. apply update_holdback_queue_loop_vt_le.
Qed.

Section Monotone.
Context `{Helpers}.

Lemma unicast_send_my_timestamp destination message msg_id is_ack timestamp :
  preserves (keeps my_timestamp) (unicast_send destination message msg_id is_ack timestamp).
Proof. apply unicast_send_keeps; reflexivity. Qed.

Lemma unicast_send_vt_le destination message msg_id is_ack timestamp :
  preserves vt_le (unicast_send destination message msg_id is_ack timestamp).
Proof.
  eapply preserves_weaken; [apply keeps_vt_le | apply unicast_send_my_timestamp].
Qed.

Lemma multicast_my_timestamp message : preserves (keeps my_timestamp) (multicast message).
Proof.
  unfold multicast. apply preserves_for_each; [typeclasses eauto|].
  intros id. apply unicast_send_my_timestamp.
Qed.

Lemma ack_handler_tick_my_timestamp : preserves (keeps my_timestamp) ack_handler_tick.
Proof.
  unfold ack_handler_tick, ack_handler_step.
  repeat first [ apply unicast_send_my_timestamp | frame_step ].
Qed.

Lemma message_queue_handler_step_my_timestamp :
  preserves (keeps my_timestamp) message_queue_handler_step.
Proof.
  unfold message_queue_handler_step, time_time, sock_sendto. frame.
Qed.

Lemma unicast_receive_vt_le data : preserves vt_le (unicast_receive data).
Proof.
  unfold unicast_receive.
  destruct (unpack_message data) as [[[[sender message_id] is_ack] message_timestamp] message].
  repeat first
    [ apply unicast_send_vt_le | apply update_holdback_queue_vt_le | frame_step ].
Qed.

Lemma user_input_handler_line_stamps st line :
  (my_id st < length (my_timestamp st))%nat ->
  user_input_handler_line line st =
  multicast (drop_last line)
    (set_my_timestamp (<[my_id st := my_timestamp st !!! my_id st + 1]> (my_timestamp st)) st).
Proof.
  intros Hme. unfold user_input_handler_line, my_timestamp_at, store_my_timestamp_at.
  unfold bind at 1. unfold gets at 1. unfold bind at 1. unfold bind at 1.
  unfold gets at 1. unfold index.
  rewrite (list_lookup_lookup_total_lt _ _ Hme). unfold ret at 1.
  unfold bind at 1. unfold bind at 1. unfold gets at 1.
  rewrite bool_decide_true by exact Hme. reflexivity.
Qed.

Lemma user_input_handler_line_raises st line :
  (length (my_timestamp st) <= my_id st)%nat ->
  user_input_handler_line line st = (Raise IndexError, st).
Proof.
  intros Hme. unfold user_input_handler_line, my_timestamp_at, bind, gets, index.
  rewrite (proj2 (lookup_ge_None _ _) Hme). reflexivity.
Qed.

Lemma user_input_handler_line_vt_le line : preserves vt_le (user_input_handler_line line).
Proof.
  intros st. destruct (decide (my_id st < length (my_timestamp st))%nat) as [Hme|Hme].
  - rewrite user_input_handler_line_stamps by exact Hme.
    etransitivity; [|apply keeps_vt_le, multicast_my_timestamp].
    split; [apply length_insert|].
    intros i. simpl. destruct (decide (i = my_id st)) as [->|Hne].
    + rewrite list_lookup_total_insert_eq by exact Hme. lia.
    + rewrite list_lookup_total_insert_ne by congruence. lia.
  - rewrite user_input_handler_line_raises by lia. reflexivity.
Qed.

Lemma step_vt_le op : preserves vt_le (step op).
Proof.
  destruct op as [line|data| |]; cbn [step].
  - apply user_input_handler_line_vt_le.
  - apply preserves_bind; [typeclasses eauto | apply unicast_receive_vt_le |].
    intros b. apply preserves_ret. typeclasses eauto.
  - eapply preserves_weaken; [apply keeps_vt_le | apply ack_handler_tick_my_timestamp].
  - eapply preserves_weaken; [apply keeps_vt_le | apply message_queue_handler_step_my_timestamp].
Qed.

Lemma run_vt_le ops st : vt_le st (run ops st).
Proof.
  revert st. induction ops as [|op ops IH]; intros st; cbn [run foldl].
  - reflexivity.
  - etransitivity; [apply step_vt_le | apply IH].
Qed.

End Monotone.

(** *** The send path *)

Section Send.
Context `{Helpers}.

Lemma unicast_send_registers destination message msg_id is_ack timestamp st :
  unicast_send destination message msg_id is_ack timestamp st =
  (let st1 := registered destination message msg_id is_ack timestamp st in
   let st2 := set_random_pos (S (random_pos st)) st1 in
   if Qle_bool (drop_draw st) (drop_rate st) then (Ret tt, st2)
   else match hosts !! destination with
        | None => (Raise IndexError, st2)
        | Some (ip, port) =>
            (Ret tt,
             set_queue
               (queue_put (outgoing destination message msg_id is_ack timestamp ip port st)
                  (queue st))
               (set_clock_pos (S (clock_pos st)) (set_random_pos (S (S (random_pos st))) st1)))
        end).
Proof.
  unfold unicast_send, registered, outgoing, sent_id, stamped, registers, drop_draw, delay,
    delay_draw.
  destruct timestamp as [t|], is_ack, msg_id as [id|]; simpl;
    unfold bind, gets, ret, modify, random_random, random_uniform, time_time, index; simpl;
    (destruct (Qle_bool _ _); [reflexivity|]);
    (destruct (hosts !! destination) as [[ip port]|]; reflexivity).
Qed.

End Send.

(** *** The priority queue *)

Lemma packet_leb_true a b : packet_leb a b = true -> (end_time a <= end_time b)%Q.
Proof.
  destruct a as [[[ea ma] ia] pa], b as [[[eb mb] ib] pb].
  unfold packet_leb, packet_compare, end_time, lex. simpl.
  destruct (ea ?= eb)%Q eqn:Hc.
  - intros _. apply Qeq_alt in Hc. rewrite Hc. apply Qle_refl.
  - intros _. apply Qlt_alt in Hc. apply Qlt_le_weak, Hc.
  - discriminate.
Qed.

Lemma packet_leb_false a b : packet_leb a b = false -> (end_time b <= end_time a)%Q.
Proof.
  destruct a as [[[ea ma] ia] pa], b as [[[eb mb] ib] pb].
  unfold packet_leb, packet_compare, end_time, lex. simpl.
  destruct (ea ?= eb)%Q eqn:Hc.
  - intros _. apply Qeq_alt in Hc. rewrite Hc. apply Qle_refl.
  - discriminate.
  - intros _. apply Qgt_alt in Hc. apply Qlt_le_weak, Hc.
Qed.

Lemma queue_put_perm x q : queue_put x q ≡ₚ x :: q.
Proof.
  induction q as [|y q IH]; simpl; [reflexivity|].
  destruct (packet_leb x y); [reflexivity|].
  rewrite IH. apply Permutation_swap.
Qed.

Lemma queue_put_sorted x q : by_release_time q -> by_release_time (queue_put x q).
Proof.
  unfold by_release_time. induction q as [|y q IH]; intros Hq; simpl.
  - repeat constructor.
  - apply StronglySorted_inv in Hq as [Hq Hy].
    destruct (packet_leb x y) eqn:Hxy.
    + constructor; [constructor; assumption|].
      apply packet_leb_true in Hxy. constructor; [exact Hxy|].
      eapply List.Forall_impl; [|exact Hy].
      intros z Hz. simpl in Hz. eapply Qle_trans; eassumption.
    + constructor; [apply IH, Hq|].
      apply packet_leb_false in Hxy.
      rewrite queue_put_perm. constructor; assumption.
Qed.

Lemma sorted_head_least x q y :
  by_release_time (x :: q) -> y ∈ q -> (end_time x <= end_time y)%Q.
Proof.
  intros [_ Hx]%StronglySorted_inv Hy. rewrite Forall_forall in Hx. apply Hx, Hy.
Qed.

Section Drain.
Context `{Helpers}.

Lemma message_queue_handler_step_cases st :
  match queue st with
  | [] => message_queue_handler_step st = (Ret tt, st)
  | (send_time, message, ip, port) :: rest =>
      let st1 := set_clock_pos (S (clock_pos st)) (set_queue rest st) in
      message_queue_handler_step st =
      (Ret tt,
       if Qle_bool send_time (clock st (clock_pos st))
       then set_sock_sent (sock_sent st ++ [(message, (ip, port))]) st1
       else set_queue (queue_put (send_time, message, ip, port) rest) st1)
  end.
Proof.
  unfold message_queue_handler_step, bind, gets.
  destruct (queue st) as [|[[[send_time message] ip] port] rest]; [reflexivity|].
  simpl. unfold time_time, sock_sendto, bind, gets, modify, ret. simpl.
  destruct (Qle_bool send_time _); reflexivity.
Qed.

End Drain.

(** The delay that [random.uniform] returns is within its bounds, also
    after the rounding of its product and its sum. *)
Lemma delay_bounds st :
  (0 <= delay_time st)%Q -> binary64 (2 * delay_time st) ->
  (0 <= delay_draw st)%Q ∧ (delay_draw st < 1)%Q ->
  (0 <= delay st)%Q ∧ (delay st <= 2 * delay_time st)%Q.
Proof.
  unfold delay, float_add, float_sub, float_mul. intros Hd Hb [Hu0 Hu1].
  set (r := (2 * delay_time st)%Q) in *. set (u := delay_draw st) in *.
  assert (Hr : (0 <= r)%Q) by (unfold r; lra).
  set (b1 := round64 r).
  assert (Hb1 : (0 <= b1)%Q ∧ (b1 <= r)%Q).
  { split; [apply round64_nonneg, Hr | apply round64_le; [exact Hr | lra | exact Hb]]. }
  set (b2 := round64 (b1 - 0)).
  assert (Hb2 : (0 <= b2)%Q ∧ (b2 <= r)%Q).
  { split; [apply round64_nonneg; lra | apply round64_le; [lra | lra | exact Hb]]. }
  set (p := round64 (b2 * u)).
  assert (Hp : (0 <= p)%Q ∧ (p <= r)%Q).
  { assert (Hbu : (0 <= b2 * u)%Q ∧ (b2 * u <= r)%Q) by (split; nra).
    split; [apply round64_nonneg; lra | apply round64_le; [lra | lra | exact Hb]]. }
  split; [apply round64_nonneg; lra | apply round64_le; [lra | lra | exact Hb]].
Qed.

(** The release time is a float: at the time [2^30] of the clock, with
    the delay time [7 * 2^-25] and the draw [1 - 2^-53], the delay is
    below twice the delay time and the release time is after the exact
    sum of the time of the clock and twice the delay time. *)
Lemma release_time_is_rounded :
  let now := pow2 30 in
  let delay_time := (7 * pow2 (-25))%Q in
  let u := (1 - pow2 (-53))%Q in
  let d := float_add 0 (float_mul (float_sub (float_mul 2 delay_time) 0) u) in
  (d < 2 * delay_time)%Q
  ∧ (now + 2 * delay_time < float_add now d)%Q
  ∧ (float_add now d == float_add now (float_mul 2 delay_time))%Q.
Proof. vm_compute. repeat split; reflexivity || discriminate. Qed.

Lemma drop_rate_one_dropped st :
  (drop_rate st == 1)%Q -> (drop_draw st < 1)%Q -> dropped st.
Proof. unfold dropped. intros Hr Hd. rewrite Hr. apply Qlt_le_weak, Hd. Qed.

Section FaultInjection.
Context `{Helpers}.

Lemma unicast_send_dropped destination message msg_id is_ack timestamp st :
  dropped st ->
  unicast_send destination message msg_id is_ack timestamp st =
  (Ret tt, set_random_pos (S (random_pos st))
             (registered destination message msg_id is_ack timestamp st)).
Proof.
  intros Hd. rewrite unicast_send_registers. cbv zeta.
  apply Qle_bool_iff in Hd. rewrite Hd. reflexivity.
Qed.

Lemma unicast_send_queued destination message msg_id is_ack timestamp st ip port :
  ¬ dropped st -> hosts !! destination = Some (ip, port) ->
  unicast_send destination message msg_id is_ack timestamp st =
  (Ret tt,
   set_queue
     (queue_put (outgoing destination message msg_id is_ack timestamp ip port st) (queue st))
     (set_clock_pos (S (clock_pos st))
        (set_random_pos (S (S (random_pos st)))
           (registered destination message msg_id is_ack timestamp st)))).
Proof.
  intros Hd Hh. rewrite unicast_send_registers. cbv zeta.
  destruct (Qle_bool (drop_draw st) (drop_rate st)) eqn:Hb.
  - apply Qle_bool_iff in Hb. contradiction.
  - rewrite Hh. reflexivity.
Qed.

Lemma registered_queue destination message msg_id is_ack timestamp st :
  queue (registered destination message msg_id is_ack timestamp st) = queue st.
Proof. unfold registered. destruct (registers msg_id is_ack); reflexivity. Qed.

Lemma registered_sock_sent destination message msg_id is_ack timestamp st :
  sock_sent (registered destination message msg_id is_ack timestamp st) = sock_sent st.
Proof. unfold registered. destruct (registers msg_id is_ack); reflexivity. Qed.

(** C7: with the values of [random.random()] taken from the world, a send
    at drop rate 1.0 returns without adding to the queue and without
    writing to the socket, whatever the drop draw in [0, 1) is, and so
    does every send whose drop draw is at most the drop rate; a send that
    is not dropped puts on the queue one element, whose release time is
    the float sum of the time of the clock and a delay [d], the value of
    [random.uniform], with [0 <= d <= 2 * delay_time]: the sum is in the
    range of binary64 and the release time is the binary64 number nearest
    to it.  This is for a delay time whose double is a float, and for a
    clock that stays in the range of binary64 when twice the delay time
    is added.  As a number the release time is then not before the time
    of the clock, and not after the float sum of the time of the clock
    and twice the delay time: by the rounding of the sum it can be after
    their exact sum.  The queue is kept in the order of the
    release times; one round of the drain loop either writes nothing and
    keeps the elements of the queue, or writes the first element of the
    queue, whose release time is then not after the time of the clock. *)
Theorem unicast_send_fault_injection (st : ChatProcess) (destination : nat)
    (message : string) (msg_id : option Z) (is_ack : bool) (timestamp : option (list Z)) :
  (0 <= drop_draw st)%Q ∧ (drop_draw st < 1)%Q ->
  let out := unicast_send destination message msg_id is_ack timestamp st in
  ((drop_rate st == 1)%Q ->
     out.1 = Ret tt ∧ queue out.2 = queue st ∧ sock_sent out.2 = sock_sent st)
  ∧ (dropped st ->
     out.1 = Ret tt ∧ queue out.2 = queue st ∧ sock_sent out.2 = sock_sent st)
  ∧ (¬ dropped st ->
     ∀ ip port, hosts !! destination = Some (ip, port) ->
     (0 <= delay_time st)%Q -> binary64 (2 * delay_time st) ->
     (0 <= delay_draw st)%Q ∧ (delay_draw st < 1)%Q ->
     finite64 (clock st (clock_pos st)) ->
     finite64 (clock st (clock_pos st) + 2 * delay_time st) ->
     ∃ d : Q,
       (0 <= d)%Q ∧ (d <= 2 * delay_time st)%Q
       ∧ finite64 (clock st (clock_pos st) + d)
       ∧ out.1 = Ret tt
       ∧ queue out.2 =
         queue_put
           (float_add (clock st (clock_pos st)) d,
            pack_message (my_id st) (sent_id msg_id is_ack st) is_ack
              (stringify_vector_timestamp (stamped timestamp st)) message,
            ip, port)
           (queue st)
       ∧ (float_add (clock st (clock_pos st)) d,
          pack_message (my_id st) (sent_id msg_id is_ack st) is_ack
            (stringify_vector_timestamp (stamped timestamp st)) message,
          ip, port) ∈ queue out.2
       ∧ length (queue out.2) = S (length (queue st))
       ∧ sock_sent out.2 = sock_sent st
       ∧ ((0 <= clock st (clock_pos st))%Q -> binary64 (clock st (clock_pos st)) ->
          (clock st (clock_pos st) <= float_add (clock st (clock_pos st)) d)%Q)
       ∧ ((0 <= clock st (clock_pos st))%Q ->
          (float_add (clock st (clock_pos st)) d <=
           float_add (clock st (clock_pos st)) (2 * delay_time st))%Q))
  ∧ (∀ x q, queue_put x q ≡ₚ x :: q
            ∧ (by_release_time q -> by_release_time (queue_put x q)))
  ∧ (∀ p : ChatProcess,
       let p' := (message_queue_handler_step p).2 in
       (message_queue_handler_step p).1 = Ret tt
       ∧ ((sock_sent p' = sock_sent p ∧ queue p' ≡ₚ queue p)
          ∨ (∃ send_time message ip port rest,
               queue p = (send_time, message, ip, port) :: rest
               ∧ (send_time <= clock p (clock_pos p))%Q
               ∧ sock_sent p' = sock_sent p ++ [(message, (ip, port))]
               ∧ queue p' = rest
               ∧ (by_release_time (queue p) ->
                  ∀ y, y ∈ rest -> (send_time <= end_time y)%Q)))).
Proof.
  intros [Hr0 Hr1] out.
  assert (Hdrop : dropped st ->
            out.1 = Ret tt ∧ queue out.2 = queue st ∧ sock_sent out.2 = sock_sent st).
  { intros Hd. unfold out. rewrite unicast_send_dropped by exact Hd. simpl.
    rewrite registered_queue, registered_sock_sent. auto. }
  split; [intros Hrate; apply Hdrop, drop_rate_one_dropped; assumption|].
  split; [exact Hdrop|].
  split.
  { intros Hd ip port Hh Hdt Hb Hu Hnow Hlate. exists (delay st).
    destruct (delay_bounds st Hdt Hb Hu) as [Hd0 Hd1].
    split; [exact Hd0|]. split; [exact Hd1|].
    split; [apply (finite64_between _ _ _ Hnow Hlate); lra|].
    unfold out. rewrite (unicast_send_queued _ _ _ _ _ _ ip port) by assumption. simpl.
    rewrite registered_sock_sent.
    split; [reflexivity|]. split; [reflexivity|].
    pose proof (queue_put_perm (outgoing destination message msg_id is_ack timestamp ip port st)
                  (queue st)) as Hperm.
    split; [rewrite Hperm; left|]. split; [rewrite Hperm; reflexivity|].
    split; [reflexivity|]. unfold float_add.
    split; [intros Hc0 Hc; apply round64_ge; [exact Hc0 | lra | exact Hc]|].
    intros Hc0. apply round64_mono; lra. }
  split.
  { intros x q. split; [apply queue_put_perm | apply queue_put_sorted]. }
  intros p p'. subst p'.
  pose proof (message_queue_handler_step_cases p) as Hstep.
  destruct (queue p) as [|[[[send_time msg] ip] port] rest] eqn:Hq.
  - rewrite Hstep. simpl. rewrite Hq. auto.
  - cbv zeta in Hstep. rewrite Hstep. simpl. split; [reflexivity|].
    destruct (Qle_bool send_time (clock p (clock_pos p))) eqn:Hdue.
    + right. exists send_time, msg, ip, port, rest.
      apply Qle_bool_iff in Hdue. simpl.
      repeat split; try assumption; try reflexivity.
      intros Hsorted y Hy. exact (sorted_head_least _ _ _ Hsorted Hy).
    + left. simpl. split; [reflexivity | apply queue_put_perm].
Qed.

End FaultInjection.

Lemma unicast_send_fault_injection_witness :
  (((0 <= drop_draw (sample_p2 1))%Q ∧ (drop_draw (sample_p2 1) < 1)%Q)
   ∧ (drop_rate (sample_p2 1) == 1)%Q
   ∧ (@unicast_send sample_helpers 0 "hi" None false None (sample_p2 1)).1 = Ret tt
   ∧ queue (@unicast_send sample_helpers 0 "hi" None false None (sample_p2 1)).2 =
     queue (sample_p2 1)
   ∧ sock_sent (@unicast_send sample_helpers 0 "hi" None false None (sample_p2 1)).2 =
     sock_sent (sample_p2 1))
  ∧ (let st := sample_p2 (1 # 2) in
     ¬ dropped st
     ∧ binary64 (2 * delay_time st)
     ∧ finite64 (clock st (clock_pos st))
     ∧ finite64 (clock st (clock_pos st) + 2 * delay_time st)
     ∧ ∃ d : Q,
         (0 <= d)%Q ∧ (d <= 2 * delay_time st)%Q
         ∧ (float_add (clock st (clock_pos st)) d, "2,1,False,0;0;0,hi"%string,
            "10.0.0.1"%string, 9000)
           ∈ queue (@unicast_send sample_helpers 0 "hi" None false None st).2).
Proof.
  split.
  - assert (Hdraw : (0 <= drop_draw (sample_p2 1))%Q ∧ (drop_draw (sample_p2 1) < 1)%Q)
      by (split; vm_compute; [discriminate | reflexivity]).
    assert (Hrate : (drop_rate (sample_p2 1) == 1)%Q) by reflexivity.
    split; [exact Hdraw|]. split; [exact Hrate|].
    exact (proj1 (@unicast_send_fault_injection sample_helpers (sample_p2 1) 0%nat "hi"
                    None false None Hdraw) Hrate).
  - intros st.
    assert (Hdraw : (0 <= drop_draw st)%Q ∧ (drop_draw st < 1)%Q)
      by (split; vm_compute; [discriminate | reflexivity]).
    assert (Hlive : ¬ dropped st).
    { intros Hd. vm_compute in Hd. apply Hd. reflexivity. }
    assert (Hdt2 : binary64 (2 * delay_time st)).
    { exists 1, (-2). split; [reflexivity | lia]. }
    assert (Hnow : finite64 (clock st (clock_pos st))) by (vm_compute; reflexivity).
    assert (Hlate : finite64 (clock st (clock_pos st) + 2 * delay_time st))
      by (vm_compute; reflexivity).
    split; [exact Hlive|]. split; [exact Hdt2|].
    split; [exact Hnow|]. split; [exact Hlate|].
    destruct (proj1 (proj2 (proj2 (@unicast_send_fault_injection sample_helpers st 0%nat "hi"
                None false None Hdraw))) Hlive "10.0.0.1"%string 9000 eq_refl
                ltac:(vm_compute; discriminate) Hdt2
                ltac:(split; vm_compute; [discriminate | reflexivity]) Hnow Hlate)
      as (d & Hd0 & Hd1 & _ & _ & _ & Hin & _).
    exists d. split; [exact Hd0|]. split; [exact Hd1|]. exact Hin.
Defined.

(** *** Outgoing stamping *)

Section Stamping.
Context `{Helpers}.

(** What one send of a multicast leaves: a record of the send with the
    current vector timestamp and, unless the packet is dropped, one more
    element on the queue, packed with the same timestamp. *)
Lemma unicast_send_copy destination message st :
  (destination < length hosts)%nat ->
  ∃ st',
    unicast_send destination message None false None st = (Ret tt, st')
    ∧ my_timestamp st' = my_timestamp st
    ∧ my_id st' = my_id st
    ∧ sock_sent st' = sock_sent st
    ∧ unack_messages st' =
      unack_messages st ++
        [(destination, message_id_counter st + 1, message, my_timestamp st)]
    ∧ (queue st' = queue st
       ∨ ∃ t ip port,
           queue st' =
           queue_put
             (t, pack_message (my_id st) (Some (message_id_counter st + 1)) false
                   (stringify_vector_timestamp (my_timestamp st)) message, ip, port)
             (queue st)).
Proof.
  intros Hd. rewrite unicast_send_registers. cbv zeta.
  destruct (Qle_bool (drop_draw st) (drop_rate st)).
  - eexists. split; [reflexivity|]. simpl. auto 10.
  - destruct (lookup_lt_is_Some_2 hosts destination Hd) as [[ip port] Hh]. rewrite Hh.
    eexists. split; [reflexivity|]. simpl.
    repeat split. right. eauto.
Qed.

Lemma multicast_copies message k a st :
  (a + k <= length hosts)%nat ->
  ∃ st' news,
    for_each (fun id => unicast_send id message None false None) (seq a k) st = (Ret tt, st')
    ∧ my_timestamp st' = my_timestamp st
    ∧ my_id st' = my_id st
    ∧ sock_sent st' = sock_sent st
    ∧ unack_messages st' = unack_messages st ++ news
    ∧ map (fun u : unack => u.1.1.1) news = seq a k
    ∧ Forall (fun u : unack => u.1.2 = message ∧ u.2 = my_timestamp st) news
    ∧ ∀ p, p ∈ queue st' ->
        p ∈ queue st
        ∨ ∃ t id ip port,
            p = (t, pack_message (my_id st) (Some id) false
                      (stringify_vector_timestamp (my_timestamp st)) message, ip, port).
Proof.
  revert a st. induction k as [|k IH]; intros a st Hk; cbn [seq for_each].
  - exists st, []. rewrite app_nil_r. repeat split; auto.
  - destruct (unicast_send_copy a message st ltac:(lia))
      as (st1 & Hsend & HV1 & Hme1 & Hsock1 & Hun1 & Hq1).
    destruct (IH (S a) st1 ltac:(lia))
      as (st' & news & Hrun & HV & Hme & Hsock & Hun & Hdest & Hnews & Hq).
    exists st', ((a, message_id_counter st + 1, message, my_timestamp st) :: news).
    split; [unfold bind; rewrite Hsend; exact Hrun|].
    split; [congruence|]. split; [congruence|]. split; [congruence|].
    split; [rewrite Hun, Hun1, <- app_assoc; reflexivity|].
    split; [simpl; rewrite Hdest; reflexivity|].
    split.
    { constructor; [simpl; auto|]. rewrite <- HV1. exact Hnews. }
    intros p Hp. apply Hq in Hp as [Hp | (t & id & ip & port & ->)].
    + destruct Hq1 as [Hq1 | (t & ip & port & Hq1)]; rewrite Hq1 in Hp.
      * left. exact Hp.
      * rewrite queue_put_perm in Hp. apply elem_of_cons in Hp as [-> | Hp]; [|left; exact Hp].
        right. eauto.
    + right. rewrite HV1, Hme1. eauto.
Qed.

End Stamping.

Section VectorTimestamp.
Context `{Helpers}.

(** C8: whatever the operations of the threads and their order, the
    vector timestamp keeps its length and none of its entries ever gets
    smaller: every operation leaves it at least what it was.  Sending,
    the retransmission round and the drain round leave it unchanged; it
    is written in two places only, the release of an entry and the
    stamping of a line of input, and each of the two adds exactly 1 to
    one entry (or raises [IndexError] and writes nothing). *)
Theorem vector_timestamp_monotone (ops : list operation) (st : ChatProcess) :
  (length (my_timestamp (run ops st)) = length (my_timestamp st)
   ∧ ∀ i : nat, my_timestamp st !!! i <= my_timestamp (run ops st) !!! i)
  ∧ (∀ op p, vt_le p (step op p).2)
  ∧ (∀ p, vt_le p (update_holdback_queue p).2)
  ∧ (∀ data p, vt_le p (unicast_receive data p).2)
  ∧ (∀ destination message msg_id is_ack timestamp p,
       my_timestamp (unicast_send destination message msg_id is_ack timestamp p).2 =
       my_timestamp p)
  ∧ (∀ p, my_timestamp (ack_handler_tick p).2 = my_timestamp p)
  ∧ (∀ p, my_timestamp (message_queue_handler_step p).2 = my_timestamp p)
  ∧ (∀ p e,
       if decide (writable p e)
       then release_step e p = (Ret tt, release p e)
            ∧ my_timestamp (release p e) =
              <[slot (length (my_timestamp p)) e :=
                  my_timestamp p !!! slot (length (my_timestamp p)) e + 1]> (my_timestamp p)
       else release_step e p = (Raise IndexError, p))
  ∧ (∀ p line,
       if decide (my_id p < length (my_timestamp p))%nat
       then my_timestamp (user_input_handler_line line p).2 =
            <[my_id p := my_timestamp p !!! my_id p + 1]> (my_timestamp p)
       else user_input_handler_line line p = (Raise IndexError, p)).
Proof.
  split; [apply run_vt_le|].
  split; [intros op p; apply step_vt_le|].
  split; [intros p; apply update_holdback_queue_vt_le|].
  split; [intros data p; apply unicast_receive_vt_le|].
  split; [intros; apply unicast_send_my_timestamp|].
  split; [intros; apply ack_handler_tick_my_timestamp|].
  split; [intros; apply message_queue_handler_step_my_timestamp|].
  split.
  - intros p e. case_decide as He.
    + split; [apply release_step_ok, He|]. destruct e as [[s T] m]. reflexivity.
    + apply release_step_raise, He.
  - intros p line. case_decide as Hme.
    + rewrite user_input_handler_line_stamps by exact Hme.
      rewrite (multicast_my_timestamp (drop_last line)). reflexivity.
    + apply user_input_handler_line_raises. lia.
Qed.

(** C9: [user_input_handler] adds exactly 1 to the entry of the process
    itself in the vector timestamp and only then hands the line to
    [multicast], which runs in the state with the new timestamp [V1] and
    returns normally; none of the sends changes the timestamp; the
    multicast records one unacknowledged send per process of the
    configuration, each with the line and a copy of [V1]; every element
    that the multicast adds to the queue is packed with the line and
    with [V1]. *)
Theorem user_input_handler_stamps (st : ChatProcess) (line : string) :
  (my_id st < length (my_timestamp st))%nat ->
  let V1 := <[my_id st := my_timestamp st !!! my_id st + 1]> (my_timestamp st) in
  V1 !!! my_id st = my_timestamp st !!! my_id st + 1
  ∧ (∀ i : nat, i ≠ my_id st -> V1 !!! i = my_timestamp st !!! i)
  ∧ user_input_handler_line line st =
    multicast (drop_last line) (set_my_timestamp V1 st)
  ∧ ∃ st' news,
      user_input_handler_line line st = (Ret tt, st')
      ∧ my_timestamp st' = V1
      ∧ unack_messages st' = unack_messages st ++ news
      ∧ map (fun u : unack => u.1.1.1) news = seq 0 (length hosts)
      ∧ Forall (fun u : unack => u.1.2 = drop_last line ∧ u.2 = V1) news
      ∧ ∀ p, p ∈ queue st' ->
          p ∈ queue st
          ∨ ∃ t id ip port,
              p = (t, pack_message (my_id st) (Some id) false
                        (stringify_vector_timestamp V1) (drop_last line), ip, port).
Proof.
  intros Hme V1.
  split; [apply list_lookup_total_insert_eq, Hme|].
  split; [intros i Hi; apply list_lookup_total_insert_ne; congruence|].
  split; [apply user_input_handler_line_stamps, Hme|].
  rewrite user_input_handler_line_stamps by exact Hme. fold V1.
  destruct (multicast_copies (drop_last line) (length hosts) 0 (set_my_timestamp V1 st)
              ltac:(lia))
    as (st' & news & Hrun & HV & Hid & Hsock & Hun & Hdest & Hnews & Hq).
  exists st', news. repeat split; assumption.
Qed.

End VectorTimestamp.

Lemma vector_timestamp_monotone_witness :
  length (my_timestamp (@run sample_helpers sample_ops (sample_p2 (1 # 2)))) =
    length (my_timestamp (sample_p2 (1 # 2)))
  ∧ ∀ i : nat,
      my_timestamp (sample_p2 (1 # 2)) !!! i <=
      my_timestamp (@run sample_helpers sample_ops (sample_p2 (1 # 2))) !!! i.
Proof.
  exact (proj1 (@vector_timestamp_monotone sample_helpers sample_ops (sample_p2 (1 # 2)))).
Defined.

Lemma user_input_handler_stamps_witness :
  (my_id (sample_p2 (1 # 2)) < length (my_timestamp (sample_p2 (1 # 2))))%nat
  ∧ ∃ st' news,
      @user_input_handler_line sample_helpers "hello
" (sample_p2 (1 # 2)) = (Ret tt, st')
      ∧ my_timestamp st' = [0; 0; 1]
      ∧ unack_messages st' = unack_messages (sample_p2 (1 # 2)) ++ news
      ∧ Forall (fun u : unack => u.1.2 = "hello"%string ∧ u.2 = [0; 0; 1]) news.
Proof.
  split; [vm_compute; lia|].
  destruct (@user_input_handler_stamps sample_helpers (sample_p2 (1 # 2)) "hello
" ltac:(vm_compute; lia)) as (_ & _ & _ & st' & news & Hrun & HV & Hun & _ & Hnews & _).
  exists st', news. auto.
Defined.

(** *** The receive path *)

Section Receive.
Context `{Helpers}.

Lemma bind_ext {S A B} (c : M S A) (k k' : A -> M S B) (st : S) :
  (forall a st1, c st = (Ret a, st1) -> k a st1 = k' a st1) ->
  bind c k st = bind c k' st.
Proof.
  intros Hk. unfold bind. destruct (c st) as [[a|e|] st1]; try reflexivity.
  apply Hk. reflexivity.
Qed.

Lemma unicast_send_returns destination message msg_id is_ack timestamp st :
  (destination < length hosts)%nat ->
  (unicast_send destination message msg_id is_ack timestamp st).1 = Ret tt.
Proof.
  intros Hd. rewrite unicast_send_registers. cbv zeta.
  destruct (Qle_bool _ _); [reflexivity|].
  destruct (lookup_lt_is_Some_2 hosts destination Hd) as [[ip port] ->]. reflexivity.
Qed.

Lemma unicast_send_has_received destination message msg_id is_ack timestamp :
  preserves (keeps has_received) (unicast_send destination message msg_id is_ack timestamp).
Proof. apply unicast_send_keeps; reflexivity. Qed.

Lemma unicast_send_holdback_queue destination message msg_id is_ack timestamp :
  preserves (keeps holdback_queue) (unicast_send destination message msg_id is_ack timestamp).
Proof. apply unicast_send_keeps; reflexivity. Qed.

Lemma unicast_send_stdout destination message msg_id is_ack timestamp :
  preserves (keeps stdout) (unicast_send destination message msg_id is_ack timestamp).
Proof. apply unicast_send_keeps; reflexivity. Qed.

Lemma unicast_receive_ack data sender message_id message_timestamp message st :
  unpack_message data = (sender, message_id, true, message_timestamp, message) ->
  unicast_receive data st =
  (Ret false,
   set_has_acknowledged (<[(sender, message_id) := true]> (has_acknowledged st)) st).
Proof. intros Hu. unfold unicast_receive. rewrite Hu. reflexivity. Qed.

Lemma unicast_receive_seen data sender message_id message_timestamp message st :
  unpack_message data = (sender, message_id, false, message_timestamp, message) ->
  is_Some (has_received st !! (sender, message_id)) ->
  unicast_receive data st =
  bind (unicast_send (position (length hosts) sender)
      "" (Some message_id) true None) (fun _ => ret false) st.
Proof.
  intros Hu [b Hb]. unfold unicast_receive. rewrite Hu.
  apply bind_ext. intros [] st1 Hsend.
  pose proof (unicast_send_has_received (position (length hosts) sender)
      "" (Some message_id) true None st) as Hk.
  rewrite Hsend in Hk. unfold keeps in Hk. simpl in Hk.
  unfold bind, gets. rewrite Hk, Hb. reflexivity.
Qed.

Lemma unicast_receive_new data sender message_id message_timestamp message st :
  unpack_message data = (sender, message_id, false, message_timestamp, message) ->
  has_received st !! (sender, message_id) = None ->
  unicast_receive data st =
  bind (unicast_send (position (length hosts) sender) "" (Some message_id) true None)
    (fun _ st1 =>
       bind update_holdback_queue (fun _ => ret true)
         (set_holdback_queue (holdback_queue st1 ++ [(sender, message_timestamp, message)])
            (set_has_received (<[(sender, message_id) := true]> (has_received st1)) st1)))
    st.
Proof.
  intros Hu Hb. unfold unicast_receive. rewrite Hu.
  apply bind_ext. intros [] st1 Hsend.
  pose proof (unicast_send_has_received (position (length hosts) sender)
      "" (Some message_id) true None st) as Hk.
  rewrite Hsend in Hk. unfold keeps in Hk. simpl in Hk.
  unfold bind at 1. unfold gets at 1.
  destruct (has_received st1 !! (sender, message_id)) eqn:Hl;
    [rewrite Hk, Hb in Hl; discriminate|].
  reflexivity.
Qed.


Lemma engine_frame_has_received st st' :
  engine_frame st st' -> has_received st' = has_received st.
Proof. intros ->. reflexivity. Qed.

(** A data message that is not in the received-set: the acknowledgement
    is handed to [unicast_send], the pair is marked, the entry is
    appended and the holdback queue is evaluated. *)
Lemma unicast_receive_fresh data sender message_id message_timestamp message st :
  unpack_message data = (sender, message_id, false, message_timestamp, message) ->
  has_received st !! (sender, message_id) = None ->
  wf st ->
  wf_entry (length (my_timestamp st)) (sender, message_timestamp, message) ->
  (position (length hosts) sender < length hosts)%nat ->
  ∃ st' D,
    unicast_receive data st = (Ret true, st')
    ∧ has_received st' = <[(sender, message_id) := true]> (has_received st)
    ∧ stdout st' = stdout st ++ map delivery D
    ∧ holdback_queue st ++ [(sender, message_timestamp, message)] ≡ₚ D ++ holdback_queue st'
    ∧ (∀ e, e ∈ holdback_queue st' -> ¬ releasable (my_timestamp st') e)
    ∧ wf st'
    ∧ length (my_timestamp st') = length (my_timestamp st).
Proof.
  intros Hu Hnew Hwf He Hhost.
  rewrite (unicast_receive_new _ _ _ _ _ _ Hu Hnew). unfold bind at 1.
  pose proof (unicast_send_returns (position (length hosts) sender)
      "" (Some message_id) true None st Hhost) as Hret.
  pose proof (unicast_send_has_received (position (length hosts) sender)
      "" (Some message_id) true None st) as Hrec.
  pose proof (unicast_send_holdback_queue (position (length hosts) sender)
      "" (Some message_id) true None st) as Hhq.
  pose proof (unicast_send_stdout (position (length hosts) sender)
      "" (Some message_id) true None st) as Hout.
  pose proof (unicast_send_my_timestamp (position (length hosts) sender)
      "" (Some message_id) true None st) as HV.
  destruct (unicast_send (position (length hosts) sender)
      "" (Some message_id) true None st) as [o st1].
  unfold keeps in *. simpl in Hret, Hrec, Hhq, Hout, HV. subst o.
  set (st2 := set_holdback_queue _ _).
  assert (Hwf2 : wf st2).
  { unfold wf, st2. simpl. rewrite HV, Hhq. apply Forall_app. split; [exact Hwf|].
    constructor; [exact He | constructor]. }
  set (fuel := S (length (holdback_queue st2))).
  exists (after_passes fuel st2), (released fuel st2).
  split; [unfold bind; rewrite (update_holdback_queue_ok st2 Hwf2); reflexivity|].
  split.
  { rewrite (engine_frame_has_received _ _ (after_passes_frame fuel st2 Hwf2)).
    unfold st2. simpl. rewrite Hrec. reflexivity. }
  split.
  { rewrite (after_passes_stdout fuel st2 Hwf2). unfold st2 at 1. simpl.
    rewrite Hout. reflexivity. }
  split.
  { rewrite <- (after_passes_queue fuel st2 Hwf2). unfold st2. simpl.
    rewrite Hhq. reflexivity. }
  pose proof (after_passes_wf fuel st2 Hwf2) as Hwf'.
  split.
  { intros e Hin Hrel.
    assert (Hr : e ∈ ready (after_passes fuel st2)).
    { apply list_elem_of_filter. split; [|exact Hin].
      apply should_remove_releasable; [apply wf_elem; assumption | exact Hrel]. }
    rewrite (after_passes_fixed fuel st2 Hwf2) in Hr by (unfold fuel; lia).
    apply elem_of_nil in Hr. exact Hr. }
  split; [exact Hwf'|].
  rewrite (after_passes_length fuel st2 Hwf2). unfold st2. simpl. rewrite HV. reflexivity.
Qed.

Lemma fresh_entries_keys received datas :
  NoDup (map fst (fresh_entries received datas))
  ∧ ∀ k, k ∈ map fst (fresh_entries received datas) -> received !! k = None.
Proof.
  revert received. induction datas as [|data datas IH]; intros received; cbn [fresh_entries].
  - split; [constructor | intros k []%elem_of_nil].
  - destruct (unpack_message data) as [[[[sender message_id] is_ack] ts] m].
    destruct is_ack; [apply IH|].
    destruct (received !! (sender, message_id)) eqn:Hl; [apply IH|].
    destruct (IH (<[(sender, message_id) := true]> received)) as [Hnd Hnone].
    cbn [map fst]. split.
    + constructor; [|exact Hnd]. intros Hin. apply Hnone in Hin.
      rewrite lookup_insert_eq in Hin. discriminate.
    + intros k [-> | Hk]%elem_of_cons; [exact Hl|].
      apply Hnone in Hk. destruct (decide ((sender, message_id) = k)) as [Heq|Hne].
      * subst k. rewrite lookup_insert_eq in Hk. discriminate.
      * rewrite lookup_insert_ne in Hk by exact Hne. exact Hk.
Qed.

Lemma incoming_message_handler_once datas st :
  wf st ->
  Forall (wf_datagram (length (my_timestamp st))) datas ->
  ∃ st' D,
    incoming_message_handler datas st = (Ret tt, st')
    ∧ stdout st' = stdout st ++ map delivery D
    ∧ D ++ holdback_queue st' ≡ₚ
      holdback_queue st ++ map snd (fresh_entries (has_received st) datas).
Proof.
  intros Hwf Hdatas. revert st Hwf Hdatas.
  induction datas as [|data datas IH]; intros st Hwf Hdatas.
  - exists st, []. simpl. rewrite !app_nil_r. auto.
  - apply Forall_cons in Hdatas as [Hdata Hdatas].
    unfold incoming_message_handler in *. cbn [for_each fresh_entries].
    unfold wf_datagram in Hdata.
    destruct (unpack_message data) as [[[[sender message_id] is_ack] ts] m] eqn:Hu.
    destruct is_ack.
    + (* an acknowledgement *)
      unfold bind at 1 2. rewrite (unicast_receive_ack _ _ _ _ _ _ Hu).
      apply (IH (set_has_acknowledged _ st)); assumption.
    + destruct (Hdata eq_refl) as (Hs & Hts & Hhost0).
      assert (Hhost : (position (length hosts) sender < length hosts)%nat)
        by (rewrite position_nonneg by lia; lia).
      destruct (has_received st !! (sender, message_id)) as [b|] eqn:Hl.
      * (* a duplicate *)
        unfold bind at 1 2.
        rewrite (unicast_receive_seen _ _ _ _ _ _ Hu (mk_is_Some _ _ Hl)).
        unfold bind at 1.
        pose proof (unicast_send_returns (position (length hosts) sender)
            "" (Some message_id) true None st Hhost) as Hret.
        pose proof (unicast_send_has_received (position (length hosts) sender)
            "" (Some message_id) true None st) as Hrec.
        pose proof (unicast_send_holdback_queue (position (length hosts) sender)
            "" (Some message_id) true None st) as Hhq.
        pose proof (unicast_send_stdout (position (length hosts) sender)
            "" (Some message_id) true None st) as Hout.
        pose proof (unicast_send_my_timestamp (position (length hosts) sender)
            "" (Some message_id) true None st) as HV.
        destruct (unicast_send (position (length hosts) sender)
            "" (Some message_id) true None st) as [o st1].
        unfold keeps in *. simpl in Hret, Hrec, Hhq, Hout, HV. subst o.
        unfold ret at 1 2.
        destruct (IH st1) as (st' & D & Hrun & Hstd & Hperm).
        { unfold wf. rewrite HV, Hhq. exact Hwf. }
        { rewrite HV. exact Hdatas. }
        exists st', D. rewrite <- Hout, <- Hhq, <- Hrec. auto.
      * (* a new message *)
        destruct (unicast_receive_fresh _ _ _ _ _ st Hu Hl Hwf (conj Hs Hts) Hhost)
          as (st1 & D1 & Hrecv & Hrec & Hstd1 & Hperm1 & _ & Hwf1 & Hlen1).
        unfold bind at 1 2. rewrite Hrecv. unfold ret at 1.
        destruct (IH st1 Hwf1) as (st' & D & Hrun & Hstd & Hperm).
        { rewrite Hlen1. exact Hdatas. }
        exists st', (D1 ++ D). split; [exact Hrun|].
        split; [rewrite Hstd, Hstd1, map_app, app_assoc; reflexivity|].
        rewrite <- app_assoc, Hperm, Hrec. cbn [map snd].
        rewrite app_assoc, <- Hperm1, <- app_assoc. reflexivity.
Qed.


Lemma fresh_entries_received received datas k e :
  (k, e) ∈ fresh_entries received datas ->
  ∃ data, data ∈ datas ∧ unpack_message data = (k.1, k.2, false, e.1.2, e.2) ∧ e.1.1 = k.1.
Proof.
  revert received. induction datas as [|data datas IH]; intros received; cbn [fresh_entries].
  - intros []%elem_of_nil.
  - destruct (unpack_message data) as [[[[sender message_id] is_ack] ts] m] eqn:Hu.
    assert (Hrest : ∀ r, (k, e) ∈ fresh_entries r datas ->
              ∃ data0, data0 ∈ data :: datas
                       ∧ unpack_message data0 = (k.1, k.2, false, e.1.2, e.2) ∧ e.1.1 = k.1).
    { intros r Hin. destruct (IH r Hin) as (d & Hd & Hud). exists d. split; [right; exact Hd | exact Hud]. }
    destruct is_ack; [apply Hrest|].
    destruct (received !! (sender, message_id)); [apply Hrest|].
    intros [Heq | Hin]%elem_of_cons; [|eapply Hrest, Hin].
    injection Heq as -> ->. exists data. split; [left | split; [exact Hu | reflexivity]].
Qed.

(** C4: a data message whose pair (sender, message id) is in the
    received-set makes [unicast_receive] do what the send of its
    acknowledgement does and nothing more: the acknowledgement, with the
    message id of the message and the empty payload, addressed to the
    sender, goes through [unicast_send] like every packet (unless the
    drop draw discards it, it is on the queue afterwards, which holds it
    and what it held before), the result is [False],
    and the output of [deliver], the holdback queue, the vector timestamp
    and the received-set are what they were.  Over any sequence of
    datagrams of the data model, the entries handed to [deliver] and the
    entries left in the holdback queue are, together, the entries that
    were in the queue and one entry for each new pair (sender, message
    id): no pair is delivered twice. *)
Theorem unicast_receive_duplicate (st : ChatProcess) (data : string) (sender : Z)
    (message_id : Z) (message_timestamp : list Z) (message : string) :
  unpack_message data = (sender, message_id, false, message_timestamp, message) ->
  is_Some (has_received st !! (sender, message_id)) ->
  let out := unicast_receive data st in
  out = bind (unicast_send (position (length hosts) sender)
      "" (Some message_id) true None) (fun _ => ret false) st
  ∧ (∀ ip port, hosts !! position (length hosts) sender = Some (ip, port) ->
       let ack :=
         (float_add (clock st (clock_pos st)) (delay st),
          pack_message (my_id st) (Some message_id) true
            (stringify_vector_timestamp (my_timestamp st)) "",
          ip, port) in
       out.1 = Ret false
       ∧ (dropped st -> queue out.2 = queue st)
       ∧ (¬ dropped st ->
          queue out.2 = queue_put ack (queue st)
          ∧ ack ∈ queue out.2
          ∧ queue out.2 ≡ₚ ack :: queue st))
  ∧ stdout out.2 = stdout st
  ∧ holdback_queue out.2 = holdback_queue st
  ∧ my_timestamp out.2 = my_timestamp st
  ∧ has_received out.2 = has_received st
  ∧ (∀ datas p,
       wf p -> Forall (wf_datagram (length (my_timestamp p))) datas ->
       ∃ p' D,
         incoming_message_handler datas p = (Ret tt, p')
         ∧ stdout p' = stdout p ++ map delivery D
         ∧ D ++ holdback_queue p' ≡ₚ
           holdback_queue p ++ map snd (fresh_entries (has_received p) datas)
         ∧ NoDup (map fst (fresh_entries (has_received p) datas))
         ∧ (∀ k, k ∈ map fst (fresh_entries (has_received p) datas) ->
                 has_received p !! k = None)
         ∧ (∀ k e, (k, e) ∈ fresh_entries (has_received p) datas ->
                   ∃ data', data' ∈ datas
                     ∧ unpack_message data' = (k.1, k.2, false, e.1.2, e.2)
                     ∧ e.1.1 = k.1)).
Proof.
  intros Hu Hseen out.
  assert (Hout : out =
            bind (unicast_send (position (length hosts) sender)
                "" (Some message_id) true None) (fun _ => ret false) st)
    by (apply (unicast_receive_seen _ _ _ _ _ _ Hu Hseen)).
  split; [exact Hout|].
  pose proof (unicast_send_has_received (position (length hosts) sender)
      "" (Some message_id) true None st) as Hrec.
  pose proof (unicast_send_holdback_queue (position (length hosts) sender)
      "" (Some message_id) true None st) as Hhq.
  pose proof (unicast_send_stdout (position (length hosts) sender)
      "" (Some message_id) true None st) as Hstd.
  pose proof (unicast_send_my_timestamp (position (length hosts) sender)
      "" (Some message_id) true None st) as HV.
  unfold keeps in *.
  assert (Hstate : out.2 = (unicast_send (position (length hosts) sender)
      "" (Some message_id) true None st).2).
  { rewrite Hout. unfold bind.
    destruct (unicast_send (position (length hosts) sender)
        "" (Some message_id) true None st) as [[[]|e|] st1];
      reflexivity. }
  split.
  { intros ip port Hh. cbv zeta.
    set (ack := (float_add (clock st (clock_pos st)) (delay st),
                 pack_message (my_id st) (Some message_id) true
                   (stringify_vector_timestamp (my_timestamp st)) "", ip, port)).
    split.
    - rewrite Hout. unfold bind.
      pose proof (unicast_send_returns (position (length hosts) sender)
          "" (Some message_id) true None st
                    (lookup_lt_Some _ _ _ Hh)) as Hret.
      destruct (unicast_send (position (length hosts) sender)
          "" (Some message_id) true None st) as [o st1].
      simpl in Hret. subst o. reflexivity.
    - rewrite Hstate. split; intros Hd.
      + rewrite unicast_send_dropped by exact Hd. reflexivity.
      + rewrite (unicast_send_queued _ _ _ _ _ _ ip port) by assumption.
        change (queue (Ret tt, _).2) with (queue_put ack (queue st)).
        pose proof (queue_put_perm ack (queue st)) as Hperm.
        split; [reflexivity|]. split; [rewrite Hperm; left | exact Hperm]. }
  rewrite Hstate.
  split; [exact Hstd|]. split; [exact Hhq|]. split; [exact HV|]. split; [exact Hrec|].
  intros datas p Hwf Hdatas.
  destruct (incoming_message_handler_once datas p Hwf Hdatas) as (p' & D & Hrun & Hd & Hperm).
  destruct (fresh_entries_keys (has_received p) datas) as [Hnd Hnone].
  exists p', D. repeat split; try assumption.
  intros k e. apply fresh_entries_received.
Qed.

End Receive.

Lemma unicast_receive_duplicate_witness :
  let st := @run sample_helpers [Receive "A"] (sample_p2 (1 # 2)) in
  stdout st = [(0, "A"%string)]
  ∧ ¬ dropped st
  ∧ (@unicast_receive sample_helpers "A" st).1 = Ret false
  ∧ (float_add (clock st (clock_pos st)) (delay st), "2,1,True,1;0;0,"%string,
     "10.0.0.1"%string, 9000) ∈ queue (@unicast_receive sample_helpers "A" st).2
  ∧ stdout (@unicast_receive sample_helpers "A" st).2 = stdout st
  ∧ holdback_queue (@unicast_receive sample_helpers "A" st).2 = holdback_queue st
  ∧ my_timestamp (@unicast_receive sample_helpers "A" st).2 = my_timestamp st.
Proof.
  intros st.
  assert (Hlive : ¬ dropped st).
  { intros Hd. vm_compute in Hd. apply Hd. reflexivity. }
  destruct (@unicast_receive_duplicate sample_helpers st "A" 0 1 [1; 0; 0] "A"
              eq_refl ltac:(exists true; vm_compute; reflexivity))
    as (_ & Hack & Hstd & Hhq & HV & _).
  destruct (Hack "10.0.0.1"%string 9000 eq_refl) as (Hret & _ & Hqueued).
  split; [vm_compute; reflexivity|]. split; [exact Hlive|].
  split; [exact Hret|].
  split; [exact (proj1 (proj2 (Hqueued Hlive)))|].
  auto.
Defined.

(** *** Retransmission in [chat_process.py] *)

Section Retransmission.
Context `{Helpers}.

Lemma unicast_send_again destination message message_id timestamp st :
  (destination < length hosts)%nat ->
  ∃ st',
    unicast_send destination message (Some message_id) false (Some timestamp) st = (Ret tt, st')
    ∧ has_acknowledged st' = has_acknowledged st
    ∧ my_id st' = my_id st
    ∧ message_id_counter st' = message_id_counter st
    ∧ unack_messages st' = unack_messages st
    ∧ (queue st' = queue st
       ∨ ∃ t ip port,
           hosts !! destination = Some (ip, port)
           ∧ queue st' =
             queue_put
               (t, pack_message (my_id st) (Some message_id) false
                     (stringify_vector_timestamp timestamp) message, ip, port)
               (queue st)).
Proof.
  intros Hd. rewrite unicast_send_registers. cbv zeta.
  destruct (Qle_bool (drop_draw st) (drop_rate st)).
  - eexists. split; [reflexivity|]. simpl. auto 10.
  - destruct (lookup_lt_is_Some_2 hosts destination Hd) as [[ip port] Hh]. rewrite Hh.
    eexists. split; [reflexivity|]. simpl.
    repeat split. right. eauto.
Qed.

(** One round of [ack_handler]: the entries that are not acknowledged
    stay in the list, in their order, and each is handed to
    [unicast_send] with its own message id, payload, timestamp and
    destination; the acknowledged entries leave the list and are not
    sent; no message id is assigned. *)
Lemma ack_handler_tick_resends st :
  Forall (fun u : unack => (u.1.1.1 < length hosts)%nat) (unack_messages st) ->
  ∃ st',
    ack_handler_tick st = (Ret tt, st')
    ∧ unack_messages st' =
      filter (fun u : unack => has_acknowledged st !! (Z.of_nat u.1.1.1, u.1.1.2) = None)
        (unack_messages st)
    ∧ message_id_counter st' = message_id_counter st
    ∧ ∀ p, p ∈ queue st' ->
        p ∈ queue st
        ∨ ∃ dest_id message_id message message_timestamp t ip port,
            (dest_id, message_id, message, message_timestamp) ∈ unack_messages st
            ∧ has_acknowledged st !! (Z.of_nat dest_id, message_id) = None
            ∧ hosts !! dest_id = Some (ip, port)
            ∧ p = (t, pack_message (my_id st) (Some message_id) false
                        (stringify_vector_timestamp message_timestamp) message, ip, port).
Proof.
  intros Hdest.
  assert (Hloop : ∀ us new st0,
    Forall (fun u : unack => (u.1.1.1 < length hosts)%nat) us ->
    ∃ st1,
      foldM ack_handler_step us new st0 =
        (Ret (new ++ filter (fun u : unack =>
                               has_acknowledged st0 !! (Z.of_nat u.1.1.1, u.1.1.2) = None) us), st1)
      ∧ has_acknowledged st1 = has_acknowledged st0
      ∧ my_id st1 = my_id st0
      ∧ message_id_counter st1 = message_id_counter st0
      ∧ unack_messages st1 = unack_messages st0
      ∧ ∀ p, p ∈ queue st1 ->
          p ∈ queue st0
          ∨ ∃ dest_id message_id message message_timestamp t ip port,
              (dest_id, message_id, message, message_timestamp) ∈ us
              ∧ has_acknowledged st0 !! (Z.of_nat dest_id, message_id) = None
              ∧ hosts !! dest_id = Some (ip, port)
              ∧ p = (t, pack_message (my_id st0) (Some message_id) false
                          (stringify_vector_timestamp message_timestamp) message, ip, port)).
  { induction us as [|[[[dest_id message_id] message] ts] us IH]; intros new st0 Hus.
    - exists st0. cbn [foldM]. rewrite filter_nil, app_nil_r. repeat split; auto.
    - apply Forall_cons in Hus as [Hu Hus]. simpl in Hu.
      cbn [foldM]. unfold bind at 1. unfold ack_handler_step at 1.
      unfold bind at 1. unfold gets at 1. rewrite filter_cons. simpl.
      destruct (has_acknowledged st0 !! (Z.of_nat dest_id, message_id)) as [b|] eqn:Hack.
      + rewrite decide_False by discriminate.
        destruct (IH new st0 Hus) as (st1 & Hrun & Hrest). exists st1.
        split; [exact Hrun|].
        destruct Hrest as (? & ? & ? & ? & Hq). repeat split; try assumption.
        intros p Hp. apply Hq in Hp as [Hp | (d & i & m & t0 & t & ip & port & Hin & Hrest)];
          [left; exact Hp|].
        right. exists d, i, m, t0, t, ip, port. split; [right; exact Hin | exact Hrest].
      + rewrite decide_True by reflexivity.
        destruct (unicast_send_again dest_id message message_id ts st0 Hu)
          as (st1 & Hsend & Hack1 & Hid1 & Hc1 & Hun1 & Hq1).
        unfold bind at 1. rewrite Hsend. unfold ret at 1.
        destruct (IH (new ++ [(dest_id, message_id, message, ts)]) st1 Hus)
          as (st2 & Hrun & Hack2 & Hid2 & Hc2 & Hun2 & Hq2).
        exists st2. rewrite Hack1 in Hrun. rewrite <- app_assoc in Hrun.
        split; [exact Hrun|].
        split; [congruence|]. split; [congruence|]. split; [congruence|].
        split; [congruence|].
        intros p Hp. apply Hq2 in Hp as [Hp | (d & i & m & t0 & t & ip & port & Hin & Hrest)].
        * destruct Hq1 as [Hq1 | (t & ip & port & Hh & Hq1)]; rewrite Hq1 in Hp.
          -- left. exact Hp.
          -- rewrite queue_put_perm in Hp.
             apply elem_of_cons in Hp as [-> | Hp]; [|left; exact Hp].
             right. exists dest_id, message_id, message, ts, t, ip, port.
             split; [left | auto].
        * right. exists d, i, m, t0, t, ip, port.
          rewrite Hack1, Hid1 in Hrest. split; [right; exact Hin | exact Hrest]. }
  destruct (Hloop (unack_messages st) [] st Hdest)
    as (st1 & Hrun & Hack & Hid & Hc & Hun & Hq).
  unfold ack_handler_tick, bind, gets. rewrite Hrun.
  eexists. split; [reflexivity|]. simpl.
  split; [reflexivity|]. split; [exact Hc|]. exact Hq.
Qed.

End Retransmission.

(** *** [main.py] *)

Section MainFacts.
Context `{Main.Helpers}.

Lemma main_unicast_send_ack destination ack_message_id st :
  Main.has_received (Main.unicast_send destination "" true ack_message_id st).2 =
  Main.has_received st.
Proof.
  unfold Main.unicast_send, index, bind.
  destruct (Main.hosts !! destination) as [[ip port]|]; [|reflexivity].
  simpl. unfold Main.random_random, bind, gets, modify, ret. simpl.
  destruct (Qle_bool _ _); reflexivity.
Qed.

(** With an empty received-set, [Main.unicast_receive] hands no message
    to its caller and leaves the received-set empty. *)
Lemma main_unicast_receive_empty source data st :
  Main.has_received st = ∅ ->
  Main.has_received (Main.unicast_receive source data st).2 = ∅
  ∧ ∀ sender message,
      (Main.unicast_receive source data st).1 = Ret (sender, message) -> message = None.
Proof.
  intros Hempty. unfold Main.unicast_receive.
  destruct (Main.unpack_message data) as [[[sender message_id] is_ack] message].
  destruct is_ack.
  - simpl. split; [exact Hempty|]. intros s m Heq. inversion Heq. reflexivity.
  - pose proof (main_unicast_send_ack sender message_id st) as Hrec.
    unfold bind, gets.
    destruct (Main.unicast_send sender "" true message_id st) as [[[]|e|] st1];
      simpl in Hrec; simpl.
    + rewrite Hrec, Hempty, lookup_empty. simpl.
      split; [congruence|]. intros s m Heq. inversion Heq. reflexivity.
    + split; [congruence | discriminate].
    + split; [congruence | discriminate].
Qed.

Lemma main_unicast_send_new destination message st :
  (destination < length Main.hosts)%nat ->
  ∃ st',
    Main.unicast_send destination message false 0 st = (Ret tt, st')
    ∧ Main.has_acknowledged st' = Main.has_acknowledged st
    ∧ Main.unack_messages st' =
      Main.unack_messages st ++ [(Main.my_ID st, Main.message_id st + 1, message)].
Proof.
  intros Hd. unfold Main.unicast_send, index, bind at 1.
  destruct (lookup_lt_is_Some_2 Main.hosts destination Hd) as [[ip port] ->].
  simpl. unfold Main.random_random, Main.sock_sendto, bind, gets, modify, ret. simpl.
  destruct (Qle_bool _ _); eexists; (split; [reflexivity|]); simpl; auto.
Qed.

Lemma main_multicast_grows message k a st :
  (a + k <= length Main.hosts)%nat ->
  ∃ st',
    for_each (fun id => Main.unicast_send id message false 0) (seq a k) st = (Ret tt, st')
    ∧ Main.has_acknowledged st' = Main.has_acknowledged st
    ∧ length (Main.unack_messages st') = (length (Main.unack_messages st) + k)%nat.
Proof.
  revert a st. induction k as [|k IH]; intros a st Hk; cbn [seq for_each].
  - exists st. repeat split; auto; lia.
  - destruct (main_unicast_send_new a message st ltac:(lia)) as (st1 & Hsend & Hack1 & Hun1).
    destruct (IH (S a) st1 ltac:(lia)) as (st' & Hrun & Hack & Hlen).
    exists st'. split; [unfold bind; rewrite Hsend; exact Hrun|].
    split; [congruence|]. rewrite Hlen, Hun1, length_app. simpl. lia.
Qed.

(** A round of [process_ack] that meets an entry which is not
    acknowledged does not end: every resend appends to the list the loop
    runs over. *)
Lemma main_process_ack_for_diverges fuel i new st :
  Main.hosts ≠ [] ->
  Main.has_acknowledged st = ∅ ->
  (i < length (Main.unack_messages st))%nat ->
  (Main.process_ack_for fuel i new st).1 = OutOfFuel.
Proof.
  intros Hhosts. revert i new st.
  induction fuel as [|fuel IH]; intros i new st Hack Hi; [reflexivity|].
  cbn [Main.process_ack_for]. unfold bind at 1, gets at 1.
  destruct (lookup_lt_is_Some_2 _ _ Hi) as [[[dest_id message_id] message] ->].
  unfold bind at 1, gets at 1. rewrite Hack, lookup_empty.
  unfold bind at 1, Main.multicast.
  destruct (main_multicast_grows message (length Main.hosts) 0 st ltac:(lia))
    as (st' & Hrun & Hack' & Hlen).
  rewrite Hrun. apply IH; [congruence|].
  rewrite Hlen. destruct Main.hosts; [congruence | simpl; lia].
Qed.

End MainFacts.

(** C5, on [main.py]: [Main.unicast_receive] tests the received-set
    the wrong way round.  On the data message 1 of process 1, which is not
    in the (empty) received-set, it returns [(1, None)], the value that
    stands for "nothing new", and does not mark the pair; it never marks
    any pair ([main_unicast_receive_empty]).
    [ChatProcess.unicast_receive], lines 74-78, does at the corresponding
    input what the specification says: it marks the pair, appends the
    entry, evaluates the holdback queue and returns [True]. *)
Theorem main_unicast_receive_suppresses_new :
  Main.has_received main_sample = ∅
  ∧ @Main.unpack_message main_sample_helpers "A" = (1%nat, 1, false, "A"%string)
  ∧ (@Main.unicast_receive main_sample_helpers 0 "A" main_sample).1 = Ret (1%nat, None)
  ∧ Main.has_received (@Main.unicast_receive main_sample_helpers 0 "A" main_sample).2 = ∅
  ∧ @unpack_message sample_helpers "A" = (0, 1, false, [1; 0; 0], "A"%string)
  ∧ (@unicast_receive sample_helpers "A" (sample_p2 (1 # 2))).1 = Ret true
  ∧ has_received (@unicast_receive sample_helpers "A" (sample_p2 (1 # 2))).2 !! (0, 1)
    = Some true
  ∧ stdout (@unicast_receive sample_helpers "A" (sample_p2 (1 # 2))).2
    = [(0, "A"%string)].
Proof. repeat split; vm_compute; reflexivity. Qed.

(** C6, on [main.py]: [Main.process_ack] resends through
    [multicast].  With the two entries (0, 1, "hi") and (0, 2, "hi")
    unacknowledged, the first step of a round sends "hi" to both
    processes under the new message ids 3 and 4, and records two more
    unacknowledged sends in the list the loop runs over; the round
    never ends.  [ChatProcess.ack_handler], lines 135-138, resends each
    entry once, under its own id, to its own destination
    ([ack_handler_tick_resends]). *)
Theorem main_process_ack_resends_anew :
  Main.unack_messages main_sample_sent = [(0%nat, 1, "hi"%string); (0%nat, 2, "hi"%string)]
  ∧ Main.has_acknowledged main_sample_sent = ∅
  ∧ Main.sock_sent (@Main.process_ack_for main_sample_helpers 1 0 [] main_sample_sent).2 =
    Main.sock_sent main_sample_sent ++
      [("0,3,False,hi"%string, ("10.0.0.1"%string, 9000));
       ("0,4,False,hi"%string, ("10.0.0.2"%string, 9000))]
  ∧ Main.unack_messages (@Main.process_ack_for main_sample_helpers 1 0 [] main_sample_sent).2 =
    [(0%nat, 1, "hi"%string); (0%nat, 2, "hi"%string);
     (0%nat, 3, "hi"%string); (0%nat, 4, "hi"%string)]
  ∧ ∀ fuel, (@Main.process_ack_tick main_sample_helpers fuel main_sample_sent).1 = OutOfFuel.
Proof.
  split; [vm_compute; reflexivity|]. split; [vm_compute; reflexivity|].
  split; [vm_compute; reflexivity|]. split; [vm_compute; reflexivity|].
  intros fuel. unfold Main.process_ack_tick, bind.
  pose proof (@main_process_ack_for_diverges main_sample_helpers fuel 0 [] main_sample_sent)
    as Hdiv.
  destruct (Main.process_ack_for fuel 0 [] main_sample_sent) as [o st'].
  simpl in Hdiv. rewrite Hdiv; [reflexivity | discriminate | reflexivity | vm_compute; lia].
Qed.

(** ** Further properties *)

(** *** What every operation keeps *)

#[export] Instance carries_preorder {S} (P : S -> Prop) : PreOrder (carries P).
Proof.
  split.
  - intros st HP. exact HP.
  - intros a b c Hab Hbc HP. apply Hbc, Hab, HP.
Qed.

Lemma keeps_carries {S X} (f : S -> X) (P : S -> Prop) (st st' : S) :
  (forall a b, f b = f a -> P a -> P b) -> keeps f st st' -> carries P st st'.
Proof. intros HP Hk. exact (HP st st' Hk). Qed.

(** A frame argument with the tactic [leaf] for the writes. *)
Ltac frame_step_with leaf :=
  first
    [ apply preserves_bind; [typeclasses eauto | | intros ?]
    | apply preserves_foldM; [typeclasses eauto | intros ? ?]
    | apply preserves_for_each; [typeclasses eauto | intros ?]
    | apply preserves_modify; intros ?; solve [leaf]
    | solve [auto with frame typeclass_instances]
    | match goal with
      | |- preserves _ (if ?b then _ else _) => destruct b
      | |- preserves _ (match ?x with _ => _ end) => destruct x
      end ].

Ltac frame_with leaf := repeat frame_step_with leaf.

Lemma update_holdback_queue_loop_preserves (R : ChatProcess -> ChatProcess -> Prop)
    `{!PreOrder R} fuel :
  preserves R update_holdback_queue_pass -> preserves R (update_holdback_queue_loop fuel).
Proof.
  intros Hpass. induction fuel as [|fuel IH]; cbn [update_holdback_queue_loop].
  - apply preserves_out_of_fuel. typeclasses eauto.
  - apply preserves_bind; [typeclasses eauto | exact Hpass |].
    intros [|]; [apply preserves_ret; typeclasses eauto | exact IH].
Qed.

Lemma update_holdback_queue_preserves (R : ChatProcess -> ChatProcess -> Prop)
    `{!PreOrder R} :
  preserves R update_holdback_queue_pass -> preserves R update_holdback_queue.
Proof.
  intros Hpass. unfold update_holdback_queue.
  apply preserves_bind; [typeclasses eauto | apply preserves_gets; typeclasses eauto |].
  intros q. apply update_holdback_queue_loop_preserves; assumption.
Qed.

Lemma update_holdback_queue_pass_keeps {X} (f : ChatProcess -> X) :
  (forall x st, f (set_my_timestamp x st) = f st) ->
  (forall x st, f (set_stdout x st) = f st) ->
  (forall x st, f (set_holdback_queue x st) = f st) ->
  preserves (keeps f) update_holdback_queue_pass.
Proof.
  intros H1 H2 H3.
  unfold update_holdback_queue_pass, scan_step, should_remove_step, release_step,
    my_timestamp_at, store_my_timestamp_at, deliver.
  frame_with ltac:(unfold keeps; auto).
Qed.

Lemma update_holdback_queue_keeps {X} (f : ChatProcess -> X) :
  (forall x st, f (set_my_timestamp x st) = f st) ->
  (forall x st, f (set_stdout x st) = f st) ->
  (forall x st, f (set_holdback_queue x st) = f st) ->
  preserves (keeps f) update_holdback_queue.
Proof.
  intros H1 H2 H3. apply update_holdback_queue_preserves; [typeclasses eauto|].
  apply update_holdback_queue_pass_keeps; assumption.
Qed.

Section Keeps.
Context `{Helpers}.

Lemma multicast_keeps {X} (f : ChatProcess -> X) message :
  (forall x st, f (set_message_id_counter x st) = f st) ->
  (forall x st, f (set_unack_messages x st) = f st) ->
  (forall x st, f (set_random_pos x st) = f st) ->
  (forall x st, f (set_clock_pos x st) = f st) ->
  (forall x st, f (set_queue x st) = f st) ->
  preserves (keeps f) (multicast message).
Proof.
  intros H1 H2 H3 H4 H5. unfold multicast.
  apply preserves_for_each; [typeclasses eauto|].
  intros id. apply unicast_send_keeps; assumption.
Qed.

Lemma ack_handler_tick_keeps {X} (f : ChatProcess -> X) :
  (forall x st, f (set_message_id_counter x st) = f st) ->
  (forall x st, f (set_unack_messages x st) = f st) ->
  (forall x st, f (set_random_pos x st) = f st) ->
  (forall x st, f (set_clock_pos x st) = f st) ->
  (forall x st, f (set_queue x st) = f st) ->
  preserves (keeps f) ack_handler_tick.
Proof.
  intros H1 H2 H3 H4 H5. unfold ack_handler_tick, ack_handler_step.
  repeat first
    [ apply unicast_send_keeps; assumption
    | frame_step_with ltac:(unfold keeps; auto) ].
Qed.

Lemma message_queue_handler_step_keeps {X} (f : ChatProcess -> X) :
  (forall x st, f (set_queue x st) = f st) ->
  (forall x st, f (set_clock_pos x st) = f st) ->
  (forall x st, f (set_sock_sent x st) = f st) ->
  preserves (keeps f) message_queue_handler_step.
Proof.
  intros H1 H2 H3. unfold message_queue_handler_step, time_time, sock_sendto.
  frame_with ltac:(unfold keeps; rewrite ?H1, ?H2, ?H3; auto).
Qed.

End Keeps.

(** *** The sets and the logs only grow *)

#[export] Instance grows_preorder : PreOrder grows.
Proof.
  split.
  - intros st. unfold grows. repeat split; auto; lia.
  - intros a b c (H1 & H2 & H3 & H4 & H5) (K1 & K2 & K3 & K4 & K5).
    unfold grows. repeat split; auto; try lia; etransitivity; eassumption.
Qed.

Lemma is_Some_insert_keep (m : gmap (Z * Z) bool) k0 k :
  is_Some (m !! k) -> is_Some (<[k0 := true]> m !! k).
Proof.
  intros Hk. destruct (decide (k0 = k)) as [->|Hne].
  - rewrite lookup_insert_eq. eauto.
  - rewrite lookup_insert_ne by exact Hne. exact Hk.
Qed.

Ltac grows_leaf :=
  unfold grows; simpl;
  repeat split; auto using is_Some_insert_keep, prefix_app_r; try lia;
  try (apply prefix_app_r; reflexivity).

Lemma update_holdback_queue_grows : preserves grows update_holdback_queue.
Proof.
  apply update_holdback_queue_preserves; [typeclasses eauto|].
  unfold update_holdback_queue_pass, scan_step, should_remove_step, release_step,
    my_timestamp_at, store_my_timestamp_at, deliver.
  frame_with grows_leaf.
Qed.

Section Grows.
Context `{Helpers}.

Lemma unicast_send_grows destination message msg_id is_ack timestamp :
  preserves grows (unicast_send destination message msg_id is_ack timestamp).
Proof.
  unfold unicast_send, random_uniform, random_random, time_time.
  frame_with grows_leaf.
Qed.

Lemma step_grows op : preserves grows (step op).
Proof.
  destruct op as [line|data| |]; cbn [step].
  - unfold user_input_handler_line, multicast, my_timestamp_at, store_my_timestamp_at.
    repeat first [ apply unicast_send_grows | frame_step_with grows_leaf ].
  - unfold unicast_receive.
    destruct (unpack_message data) as [[[[sender message_id] is_ack] ts] m].
    repeat first [ apply unicast_send_grows | apply update_holdback_queue_grows
                 | frame_step_with grows_leaf ].
  - unfold ack_handler_tick, ack_handler_step.
    repeat first [ apply unicast_send_grows | frame_step_with grows_leaf ].
  - unfold message_queue_handler_step, time_time, sock_sendto.
    frame_with grows_leaf.
Qed.

(** X1: whatever the threads do, nothing is ever taken out of the
    received-set or of the acknowledged-set, nothing that [deliver] has
    printed or that has been written to the socket is ever changed or
    removed, and the message id counter never goes down. *)
Theorem run_grows (ops : list operation) (st : ChatProcess) :
  (∀ k, is_Some (has_received st !! k) -> is_Some (has_received (run ops st) !! k))
  ∧ (∀ k, is_Some (has_acknowledged st !! k) ->
          is_Some (has_acknowledged (run ops st) !! k))
  ∧ stdout st `prefix_of` stdout (run ops st)
  ∧ sock_sent st `prefix_of` sock_sent (run ops st)
  ∧ message_id_counter st <= message_id_counter (run ops st).
Proof.
  change (grows st (run ops st)).
  revert st. induction ops as [|op ops IH]; intros st; cbn [run foldl].
  - reflexivity.
  - etransitivity; [apply step_grows | apply IH].
Qed.

End Grows.

(** *** Message ids *)

Lemma ids_ok_ext a b :
  (unack_messages b, message_id_counter b) = (unack_messages a, message_id_counter a) ->
  ids_ok a -> ids_ok b.
Proof. unfold ids_ok. intros [= -> ->]. auto. Qed.

Lemma StronglySorted_snoc (l : list Z) (x : Z) :
  StronglySorted Z.lt l -> Forall (fun y => y < x) l -> StronglySorted Z.lt (l ++ [x]).
Proof.
  induction l as [|y l IH]; intros Hs Hl; simpl.
  - repeat constructor.
  - apply StronglySorted_inv in Hs as [Hs Hy]. apply Forall_cons in Hl as [Hyx Hl].
    constructor; [apply IH; assumption|].
    apply Forall_app. split; [exact Hy | constructor; [exact Hyx | constructor]].
Qed.

Lemma StronglySorted_filter_map {A} (f : A -> Z) (P : A -> Prop) `{!∀ x, Decision (P x)}
    (l : list A) :
  StronglySorted Z.lt (map f l) -> StronglySorted Z.lt (map f (filter P l)).
Proof.
  induction l as [|x l IH]; intros Hs; [constructor|].
  cbn [map] in Hs. apply StronglySorted_inv in Hs as [Hs Hx].
  rewrite filter_cons. case_decide; [|apply IH, Hs].
  cbn [map]. constructor; [apply IH, Hs|].
  rewrite Forall_forall in Hx. rewrite Forall_forall. intros y Hy. apply Hx.
  apply list_elem_of_fmap in Hy as (u & -> & Hu).
  apply list_elem_of_filter in Hu as [_ Hu].
  apply list_elem_of_fmap. eauto.
Qed.

Lemma ids_ok_registered destination message msg_id is_ack timestamp st :
  ids_ok st -> ids_ok (registered destination message msg_id is_ack timestamp st).
Proof.
  unfold registered. destruct (registers msg_id is_ack); [|auto].
  intros (Hc & Hs & Hb). unfold ids_ok. simpl.
  split; [lia|]. split.
  - rewrite map_app. apply StronglySorted_snoc; [exact Hs|].
    rewrite Forall_forall in Hb. rewrite Forall_forall. intros y Hy.
    apply list_elem_of_fmap in Hy as (u & -> & Hu). specialize (Hb u Hu).
      unfold unack_id in *. simpl in *. lia.
  - apply Forall_app. split.
    + eapply Forall_impl; [exact Hb|]. intros u Hu. unfold unack_id in *. simpl in *. lia.
    + constructor; [unfold unack_id; simpl; lia | constructor].
Qed.

Lemma ids_ok_filter (P : unack -> Prop) `{!∀ x, Decision (P x)} st :
  ids_ok st -> ids_ok (set_unack_messages (filter P (unack_messages st)) st).
Proof.
  intros (Hc & Hs & Hb). unfold ids_ok. simpl.
  split; [exact Hc|]. split; [apply StronglySorted_filter_map, Hs|].
  apply Forall_filter_keep, Hb.
Qed.

Section Ids.
Context `{Helpers}.

Lemma unicast_send_ids_ok destination message msg_id is_ack timestamp :
  preserves (carries ids_ok) (unicast_send destination message msg_id is_ack timestamp).
Proof.
  intros st Hok. rewrite unicast_send_registers. cbv zeta.
  apply (ids_ok_registered destination message msg_id is_ack timestamp) in Hok.
  destruct (Qle_bool _ _); [exact Hok|].
  destruct (hosts !! destination) as [[ip port]|]; exact Hok.
Qed.

Lemma ack_handler_step_cases new u st :
  ack_handler_step new u st =
  match has_acknowledged st !! unack_key u with
  | Some _ => (Ret new, st)
  | None =>
      let st1 := set_random_pos (S (random_pos st)) st in
      if Qle_bool (drop_draw st) (drop_rate st) then (Ret (new ++ [u]), st1)
      else match hosts !! u.1.1.1 with
           | None => (Raise IndexError, st1)
           | Some (ip, port) =>
               (Ret (new ++ [u]),
                set_queue
                  (queue_put
                     (outgoing u.1.1.1 u.1.2 (Some u.1.1.2) false (Some u.2) ip port st)
                     (queue st))
                  (set_clock_pos (S (clock_pos st))
                     (set_random_pos (S (S (random_pos st))) st)))
           end
  end.
Proof.
  destruct u as [[[dest_id message_id] message] ts]. unfold unack_key. simpl.
  unfold ack_handler_step, bind at 1, gets at 1.
  destruct (has_acknowledged st !! (Z.of_nat dest_id, message_id)); [reflexivity|].
  unfold bind. rewrite unicast_send_registers. cbv zeta.
  unfold registered, registers. simpl.
  destruct (Qle_bool _ _); [reflexivity|].
  destruct (hosts !! dest_id) as [[ip port]|]; reflexivity.
Qed.

(** The inner loop of [ack_handler]: the list it builds is the list of
    the entries that are not acknowledged, whatever the sends do. *)
Lemma ack_handler_fold us new st :
  ∃ o st1,
    foldM ack_handler_step us new st = (o, st1)
    ∧ (unack_messages st1, message_id_counter st1) =
      (unack_messages st, message_id_counter st)
    ∧ has_acknowledged st1 = has_acknowledged st
    ∧ (o = Ret (new ++ filter (fun u => has_acknowledged st !! unack_key u = None) us)
       ∨ o = Raise IndexError).
Proof.
  revert new st. induction us as [|u us IH]; intros new st; cbn [foldM].
  - exists (Ret new), st. rewrite filter_nil, app_nil_r. auto.
  - unfold bind. rewrite ack_handler_step_cases, filter_cons.
    destruct (has_acknowledged st !! unack_key u) as [b|] eqn:Hack.
    + rewrite decide_False by discriminate. apply IH.
    + rewrite decide_True by reflexivity. cbv zeta.
      destruct (Qle_bool _ _).
      * destruct (IH (new ++ [u]) (set_random_pos (S (random_pos st)) st))
          as (o & st1 & Hrun & Hi & Ha & Hr).
        exists o, st1. rewrite <- app_assoc in Hr. auto.
      * destruct (hosts !! u.1.1.1) as [[ip port]|].
        -- match goal with
           | |- context [foldM ack_handler_step us ?n ?s] =>
               destruct (IH n s) as (o & st1 & Hrun & Hi & Ha & Hr)
           end.
           exists o, st1. rewrite <- app_assoc in Hr. auto.
        -- eexists _, _. split; [reflexivity|]. auto.
Qed.

Lemma ack_handler_tick_ids_ok : preserves (carries ids_ok) ack_handler_tick.
Proof.
  intros st Hok. unfold ack_handler_tick, bind, gets.
  destruct (ack_handler_fold (unack_messages st) [] st) as (o & st1 & Hrun & Hi & Ha & Hr).
  rewrite Hrun. destruct Hr as [-> | ->].
  - simpl. injection Hi as Hu Hc.
    eapply ids_ok_ext; [|apply (ids_ok_filter
      (fun u => has_acknowledged st !! unack_key u = None) st Hok)].
    simpl. rewrite Hc. reflexivity.
  - simpl. eapply ids_ok_ext; [exact Hi | exact Hok].
Qed.

Lemma step_ids_ok op : preserves (carries ids_ok) (step op).
Proof.
  assert (Hkeep : ∀ A (c : Self A),
            preserves (keeps (fun st => (unack_messages st, message_id_counter st))) c ->
            preserves (carries ids_ok) c).
  { intros A c Hc st. eapply keeps_carries; [|apply Hc]. apply ids_ok_ext. }
  destruct op as [line|data| |]; cbn [step].
  - unfold user_input_handler_line, multicast, my_timestamp_at, store_my_timestamp_at.
    repeat first [ apply unicast_send_ids_ok
                 | frame_step_with ltac:(intros Hok; exact Hok) ].
  - unfold unicast_receive.
    destruct (unpack_message data) as [[[[sender message_id] is_ack] ts] m].
    repeat first [ apply unicast_send_ids_ok
                 | apply Hkeep, update_holdback_queue_keeps; reflexivity
                 | frame_step_with ltac:(intros Hok; exact Hok) ].
  - apply ack_handler_tick_ids_ok.
  - apply Hkeep, message_queue_handler_step_keeps; reflexivity.
Qed.

(** X2: the message ids of the unacknowledged sends stay in increasing
    order along the list, hence pairwise distinct, and between 1 and the
    message id counter, whatever the threads do: every new id is one more
    than the counter, a resend takes no id, and a round of [ack_handler]
    only drops entries. *)
Theorem run_ids_ok (ops : list operation) (st : ChatProcess) :
  ids_ok st ->
  ids_ok (run ops st) ∧ NoDup (map unack_id (unack_messages (run ops st))).
Proof.
  intros Hok.
  assert (Hrun : ids_ok (run ops st)).
  { revert st Hok. induction ops as [|op ops IH]; intros st Hok; cbn [run foldl].
    - exact Hok.
    - apply IH, step_ids_ok, Hok. }
  split; [exact Hrun|].
  destruct Hrun as (_ & Hs & _). revert Hs.
  generalize (map unack_id (unack_messages (run ops st))). intros l Hs.
  induction Hs as [|x l Hs IH Hx]; constructor; [|exact IH].
  intros Hin. rewrite Forall_forall in Hx. specialize (Hx x Hin). lia.
Qed.

End Ids.

Lemma run_ids_ok_witness :
  ids_ok (sample_p2 (1 # 2))
  ∧ ids_ok (@run sample_helpers sample_ops (sample_p2 (1 # 2)))
  ∧ NoDup (map unack_id (unack_messages (@run sample_helpers sample_ops (sample_p2 (1 # 2))))).
Proof.
  assert (Hok : ids_ok (sample_p2 (1 # 2))).
  { unfold ids_ok. simpl. split; [lia|]. split; constructor. }
  split; [exact Hok|].
  exact (@run_ids_ok sample_helpers sample_ops (sample_p2 (1 # 2)) Hok).
Defined.

(** *** The queue of delayed packets *)

Lemma by_release_time_tail x q : by_release_time (x :: q) -> by_release_time q.
Proof. intros [Hq _]%StronglySorted_inv. exact Hq. Qed.

Section Queue.
Context `{Helpers}.

Lemma unicast_send_sorted destination message msg_id is_ack timestamp :
  preserves (carries (fun st => by_release_time (queue st)))
    (unicast_send destination message msg_id is_ack timestamp).
Proof.
  intros st Hq. rewrite unicast_send_registers. cbv zeta.
  assert (Hr : queue (registered destination message msg_id is_ack timestamp st) = queue st)
    by apply registered_queue.
  destruct (Qle_bool _ _); [simpl; rewrite Hr; exact Hq|].
  destruct (hosts !! destination) as [[ip port]|]; simpl.
  - apply queue_put_sorted, Hq.
  - rewrite Hr. exact Hq.
Qed.

Lemma message_queue_handler_step_sorted :
  preserves (carries (fun st => by_release_time (queue st))) message_queue_handler_step.
Proof.
  intros st Hq. pose proof (message_queue_handler_step_cases st) as Hstep.
  destruct (queue st) as [|[[[send_time msg] ip] port] rest] eqn:Hqueue.
  - rewrite Hstep. simpl. rewrite Hqueue. exact Hq.
  - cbv zeta in Hstep. rewrite Hstep. simpl.
    apply by_release_time_tail in Hq.
    destruct (Qle_bool _ _); simpl; [exact Hq | apply queue_put_sorted, Hq].
Qed.

Lemma step_sorted op :
  preserves (carries (fun st => by_release_time (queue st))) (step op).
Proof.
  assert (Hkeep : ∀ A (c : Self A),
            preserves (keeps queue) c ->
            preserves (carries (fun st => by_release_time (queue st))) c).
  { intros A c Hc st. eapply keeps_carries; [|apply Hc]. intros a b ->. auto. }
  destruct op as [line|data| |]; cbn [step].
  - unfold user_input_handler_line, multicast, my_timestamp_at, store_my_timestamp_at.
    repeat first [ apply unicast_send_sorted
                 | frame_step_with ltac:(intros Hok; exact Hok) ].
  - unfold unicast_receive.
    destruct (unpack_message data) as [[[[sender message_id] is_ack] ts] m].
    repeat first [ apply unicast_send_sorted
                 | apply Hkeep, update_holdback_queue_keeps; reflexivity
                 | frame_step_with ltac:(intros Hok; exact Hok) ].
  - unfold ack_handler_tick, ack_handler_step.
    repeat first [ apply unicast_send_sorted
                 | frame_step_with ltac:(intros Hok; exact Hok) ].
  - apply message_queue_handler_step_sorted.
Qed.

(** X3: the queue of delayed packets stays in the order of the release
    times whatever the threads do, so the element that the drain loop
    takes next is always one with the least release time of the queue. *)
Theorem run_by_release_time (ops : list operation) (st : ChatProcess) :
  by_release_time (queue st) ->
  by_release_time (queue (run ops st))
  ∧ ∀ p rest, queue (run ops st) = p :: rest ->
      ∀ y, y ∈ rest -> (end_time p <= end_time y)%Q.
Proof.
  intros Hq.
  assert (Hrun : by_release_time (queue (run ops st))).
  { revert st Hq. induction ops as [|op ops IH]; intros st Hq; cbn [run foldl].
    - exact Hq.
    - apply IH, step_sorted, Hq. }
  split; [exact Hrun|].
  intros p rest Hp y Hy. rewrite Hp in Hrun. exact (sorted_head_least _ _ _ Hrun Hy).
Qed.

(** One round of the drain loop moves at most the first element of the
    queue to the socket and loses nothing. *)
Lemma message_queue_handler_step_conserves st :
  let st' := (message_queue_handler_step st).2 in
  sock_sent st `prefix_of` sock_sent st'
  ∧ sock_sent st' ++ map wire (queue st') ≡ₚ sock_sent st ++ map wire (queue st).
Proof.
  pose proof (message_queue_handler_step_cases st) as Hstep.
  destruct (queue st) as [|[[[send_time msg] ip] port] rest] eqn:Hqueue.
  - rewrite Hstep. simpl. rewrite Hqueue. split; reflexivity.
  - cbv zeta in Hstep. rewrite Hstep. simpl.
    destruct (Qle_bool _ _); simpl.
    + split; [apply prefix_app_r; reflexivity|].
      rewrite <- app_assoc. reflexivity.
    + split; [reflexivity|]. rewrite queue_put_perm. reflexivity.
Qed.

(** X4: the drain loop neither loses nor repeats a packet: after any
    number of its rounds, what has been written to the socket and what
    is still on the queue are together what they were before, and what
    had been written before is still the beginning of what has been
    written. *)
Theorem message_queue_handler_conserves (fuel : nat) (st : ChatProcess) :
  let st' := (message_queue_handler fuel st).2 in
  sock_sent st `prefix_of` sock_sent st'
  ∧ sock_sent st' ++ map wire (queue st') ≡ₚ sock_sent st ++ map wire (queue st).
Proof.
  revert st. induction fuel as [|fuel IH]; intros st; cbn [message_queue_handler].
  - simpl. split; reflexivity.
  - cbv zeta. unfold bind.
    pose proof (message_queue_handler_step_conserves st) as [Hp Hc].
    pose proof (message_queue_handler_step_cases st) as Hstep.
    assert (Hret : (message_queue_handler_step st).1 = Ret tt).
    { destruct (queue st) as [|[[[send_time msg] ip] port] rest];
        [rewrite Hstep | cbv zeta in Hstep; rewrite Hstep]; reflexivity. }
    destruct (message_queue_handler_step st) as [o st1]. simpl in Hret, Hp, Hc. subst o.
    destruct (IH st1) as [Hp' Hc'].
    split; [etransitivity; eassumption | rewrite Hc', Hc; reflexivity].
Qed.

(** X5: when every element of the queue is due at every later reading of
    the clock, as many rounds of the drain loop as the queue has elements
    write all of them to the socket, in the order of the queue, and leave
    the queue empty. *)
Theorem message_queue_handler_flushes (st : ChatProcess) :
  (∀ p k, p ∈ queue st -> (end_time p <= clock st (clock_pos st + k)%nat)%Q) ->
  let st' := (message_queue_handler (length (queue st)) st).2 in
  queue st' = [] ∧ sock_sent st' = sock_sent st ++ map wire (queue st).
Proof.
  remember (length (queue st)) as n eqn:Hn. revert st Hn.
  induction n as [|n IH]; intros st Hn Hdue; cbn [message_queue_handler].
  - simpl. destruct (queue st); [|discriminate]. simpl. rewrite app_nil_r. auto.
  - cbv zeta. unfold bind.
    pose proof (message_queue_handler_step_cases st) as Hstep.
    destruct (queue st) as [|[[[send_time msg] ip] port] rest] eqn:Hqueue; [discriminate|].
    cbv zeta in Hstep. rewrite Hstep.
    assert (Hhead : Qle_bool send_time (clock st (clock_pos st)) = true).
    { apply Qle_bool_iff. specialize (Hdue (send_time, msg, ip, port) 0%nat).
      rewrite Nat.add_0_r in Hdue. apply Hdue. left. }
    rewrite Hhead.
    match goal with
    | |- context [message_queue_handler n ?s] => destruct (IH s) as [Hq Hs]
    end.
    + simpl. simpl in Hn. lia.
    + simpl. intros p k Hp. specialize (Hdue p (S k)).
      rewrite Nat.add_succ_r in Hdue. apply Hdue. right. exact Hp.
    + simpl in Hq, Hs. split; [exact Hq|].
      rewrite Hs. simpl. rewrite <- app_assoc. reflexivity.
Qed.

End Queue.

Lemma run_by_release_time_witness :
  by_release_time (queue (sample_p2 (1 # 2)))
  ∧ by_release_time (queue (@run sample_helpers sample_ops (sample_p2 (1 # 2)))).
Proof.
  assert (Hq : by_release_time (queue (sample_p2 (1 # 2)))) by constructor.
  split; [exact Hq|].
  exact (proj1 (@run_by_release_time sample_helpers sample_ops (sample_p2 (1 # 2)) Hq)).
Defined.

Lemma message_queue_handler_flushes_witness :
  let st := (@multicast sample_helpers "x" (sample_p2 (1 # 2))).2 in
  (∀ p k, p ∈ queue st -> (end_time p <= clock st (clock_pos st + k)%nat)%Q)
  ∧ length (queue st) = 3%nat
  ∧ queue (message_queue_handler 3 st).2 = []
  ∧ sock_sent (message_queue_handler 3 st).2 =
    sock_sent st ++ map wire (queue st).
Proof.
  intros st.
  assert (Hdue : ∀ p k, p ∈ queue st -> (end_time p <= clock st (clock_pos st + k)%nat)%Q).
  { intros p k Hp.
    assert (Hc : (3 <= clock st (clock_pos st + k)%nat)%Q).
    { change (inject_Z 3 <= inject_Z (Z.of_nat (3 + k)))%Q.
      rewrite <- Zle_Qle. lia. }
    assert (Hq : Forall (fun p => (end_time p <= 3)%Q) (queue st)).
    { vm_compute. repeat constructor; discriminate. }
    rewrite Forall_forall in Hq. eapply Qle_trans; [apply Hq, Hp | exact Hc]. }
  split; [exact Hdue|]. split; [reflexivity|].
  exact (message_queue_handler_flushes st Hdue).
Defined.

(** *** Sends *)

Section Sends.
Context `{Helpers}.

(** One send of a multicast, in full. *)
Lemma unicast_send_first destination message st :
  (destination < length hosts)%nat ->
  ∃ st',
    unicast_send destination message None false None st = (Ret tt, st')
    ∧ my_timestamp st' = my_timestamp st
    ∧ my_id st' = my_id st
    ∧ message_id_counter st' = message_id_counter st + 1
    ∧ unack_messages st' =
      unack_messages st ++
        [(destination, message_id_counter st + 1, message, my_timestamp st)].
Proof.
  intros Hd. rewrite unicast_send_registers. cbv zeta.
  destruct (Qle_bool (drop_draw st) (drop_rate st)).
  - eexists. split; [reflexivity|]. simpl. auto.
  - destruct (lookup_lt_is_Some_2 hosts destination Hd) as [[ip port] Hh]. rewrite Hh.
    eexists. split; [reflexivity|]. simpl. auto.
Qed.

Lemma multicast_from message k a st :
  (a + k <= length hosts)%nat ->
  ∃ st',
    for_each (fun id => unicast_send id message None false None) (seq a k) st = (Ret tt, st')
    ∧ my_timestamp st' = my_timestamp st
    ∧ my_id st' = my_id st
    ∧ message_id_counter st' = message_id_counter st + Z.of_nat k
    ∧ unack_messages st' =
      unack_messages st ++
        map (fun j : nat =>
               (j, message_id_counter st + 1 + Z.of_nat (j - a), message, my_timestamp st))
          (seq a k).
Proof.
  revert a st. induction k as [|k IH]; intros a st Hk; cbn [seq for_each].
  - exists st. simpl. rewrite app_nil_r. repeat split; auto; lia.
  - destruct (unicast_send_first a message st ltac:(lia))
      as (st1 & Hsend & HV1 & Hme1 & Hc1 & Hun1).
    destruct (IH (S a) st1 ltac:(lia)) as (st' & Hrun & HV & Hme & Hc & Hun).
    exists st'. split; [unfold bind; rewrite Hsend; exact Hrun|].
    split; [congruence|]. split; [congruence|]. split; [rewrite Hc, Hc1; lia|].
    rewrite Hun, Hun1, <- app_assoc. f_equal. cbn [map app]. f_equal.
    + rewrite Nat.sub_diag. simpl. rewrite Z.add_0_r. reflexivity.
    + apply map_ext_in. intros j Hj. apply in_seq in Hj.
      rewrite Hc1, HV1.
      replace (Z.of_nat (j - a)) with (1 + Z.of_nat (j - S a)) by lia.
      f_equal. f_equal. f_equal. lia.
Qed.

(** X6: [multicast] never raises an exception; it takes one new message
    id per process of the configuration, in the order of the processes,
    and records the sends to processes 0, 1, ... under the ids counter + 1,
    counter + 2, ..., each with the message and the vector timestamp of
    the moment, which it leaves as it is. *)
Theorem multicast_ids (message : string) (st : ChatProcess) :
  ∃ st',
    multicast message st = (Ret tt, st')
    ∧ my_timestamp st' = my_timestamp st
    ∧ message_id_counter st' = message_id_counter st + Z.of_nat (length hosts)
    ∧ unack_messages st' =
      unack_messages st ++
        map (fun j : nat =>
               (j, message_id_counter st + 1 + Z.of_nat j, message, my_timestamp st))
          (seq 0 (length hosts)).
Proof.
  destruct (multicast_from message (length hosts) 0 st ltac:(lia))
    as (st' & Hrun & HV & Hme & Hc & Hun).
  exists st'. split; [exact Hrun|]. split; [exact HV|]. split; [exact Hc|].
  rewrite Hun. f_equal. apply map_ext. intros j. rewrite Nat.sub_0_r. reflexivity.
Qed.

(** X7: a send to a process that has no address in the configuration
    fails late.  If the drop draw discards the packet, the send returns
    normally; otherwise it raises [IndexError].  Either way the queue is
    unchanged, and a send that is neither an acknowledgement nor a resend
    has by then taken a message id and been recorded as unacknowledged. *)
Theorem unicast_send_unknown_destination (st : ChatProcess) (destination : nat)
    (message : string) (msg_id : option Z) (is_ack : bool) (timestamp : option (list Z)) :
  hosts !! destination = None ->
  let out := unicast_send destination message msg_id is_ack timestamp st in
  (dropped st -> out.1 = Ret tt)
  ∧ (¬ dropped st -> out.1 = Raise IndexError)
  ∧ queue out.2 = queue st
  ∧ (is_ack = false -> msg_id = None ->
     message_id_counter out.2 = message_id_counter st + 1
     ∧ unack_messages out.2 =
       unack_messages st ++
         [(destination, message_id_counter st + 1, message, stamped timestamp st)])
  ∧ (is_ack = true ∨ msg_id ≠ None ->
     message_id_counter out.2 = message_id_counter st
     ∧ unack_messages out.2 = unack_messages st).
Proof.
  intros Hh out. subst out. rewrite unicast_send_registers. cbv zeta. rewrite Hh.
  destruct (Qle_bool (drop_draw st) (drop_rate st)) eqn:Hb.
  - apply Qle_bool_iff in Hb. simpl. rewrite registered_queue.
    split; [reflexivity|]. split; [intros Hn; contradiction|]. split; [reflexivity|].
    unfold registered, registers. split.
    + intros -> ->. simpl. auto.
    + intros [-> | Hid]; [simpl; auto|].
      destruct is_ack; simpl; [auto|]. rewrite bool_decide_false by exact Hid. auto.
  - assert (Hnd : ¬ dropped st).
    { intros Hd. apply Qle_bool_iff in Hd. congruence. }
    simpl. rewrite registered_queue.
    split; [intros Hd; contradiction|]. split; [reflexivity|]. split; [reflexivity|].
    unfold registered, registers. split.
    + intros -> ->. simpl. auto.
    + intros [-> | Hid]; [simpl; auto|].
      destruct is_ack; simpl; [auto|]. rewrite bool_decide_false by exact Hid. auto.
Qed.

End Sends.

Lemma unicast_send_unknown_destination_witness :
  @hosts sample_helpers !! 7%nat = None
  ∧ (@unicast_send sample_helpers 7 "hi" None false None (sample_p2 (1 # 2))).1
    = Raise IndexError
  ∧ unack_messages (@unicast_send sample_helpers 7 "hi" None false None (sample_p2 (1 # 2))).2
    = [(7%nat, 1, "hi"%string, [0; 0; 0])].
Proof.
  split; [reflexivity|].
  destruct (@unicast_send_unknown_destination sample_helpers (sample_p2 (1 # 2)) 7%nat "hi"
              None false None eq_refl) as (_ & Hraise & _ & Hreg & _).
  split.
  - apply Hraise. unfold dropped. vm_compute. intros Hle. apply Hle. reflexivity.
  - exact (proj2 (Hreg eq_refl eq_refl)).
Defined.

(** *** Lines of input *)

Lemma continuations_app (s t : string) :
  continuations (s +:+ t) = continuations s && continuations t.
Proof.
  induction s as [|a s IH]; simpl; [reflexivity|].
  rewrite IH, andb_assoc. reflexivity.
Qed.

Lemma drop_last_snoc (s ch : string) : one_character ch -> drop_last (s +:+ ch) = s.
Proof.
  destruct ch as [|c rest]; [intros []|]. simpl.
  intros [Hc Hrest]%andb_prop_elim.
  apply Is_true_eq_true in Hrest. apply Is_true_eq_true, negb_true_iff in Hc.
  induction s as [|a s IH]; simpl.
  - rewrite Hrest. reflexivity.
  - rewrite continuations_app. simpl. rewrite Hc, andb_false_r, IH. reflexivity.
Qed.

Section Lines.
Context `{Helpers}.

(** X8: [user_input_handler] stamps the lines one after the other: it
    returns normally; line number k (from 0) is multicast without its
    last character, under the next free message ids and with the entry
    of the process itself raised by k + 1; in the end that entry has
    grown by the number of lines and the message id counter by the
    number of lines times the number of processes.  The last character
    goes whatever it is, the end of the line or not, and however many
    bytes encode it. *)
Theorem user_input_handler_lines (lines : list string) (st : ChatProcess) :
  (my_id st < length (my_timestamp st))%nat ->
  let me := my_id st in
  let V := my_timestamp st in
  let n := length hosts in
  ∃ st',
    user_input_handler lines st = (Ret tt, st')
    ∧ my_timestamp st' = <[me := V !!! me + Z.of_nat (length lines)]> V
    ∧ message_id_counter st' = message_id_counter st + Z.of_nat (length lines * n)
    ∧ unack_messages st' =
      unack_messages st ++
        concat (imap (fun (k : nat) (line : string) =>
                  map (fun j : nat =>
                         (j, message_id_counter st + 1 + Z.of_nat (k * n + j),
                          drop_last line, <[me := V !!! me + Z.of_nat k + 1]> V))
                    (seq 0 n))
                  lines)
    ∧ ∀ s ch : string, one_character ch -> drop_last (s +:+ ch) = s.
Proof.
  intros Hme me V n.
  enough (Hmain : ∃ st',
    user_input_handler lines st = (Ret tt, st')
    ∧ my_id st' = me
    ∧ my_timestamp st' = <[me := V !!! me + Z.of_nat (length lines)]> V
    ∧ message_id_counter st' = message_id_counter st + Z.of_nat (length lines * n)
    ∧ unack_messages st' =
      unack_messages st ++
        concat (imap (fun (k : nat) (line : string) =>
                  map (fun j : nat =>
                         (j, message_id_counter st + 1 + Z.of_nat (k * n + j),
                          drop_last line, <[me := V !!! me + Z.of_nat k + 1]> V))
                    (seq 0 n))
                  lines)).
  { destruct Hmain as (st' & Hrun & _ & HV & Hc & Hun).
    exists st'. repeat split; try assumption. apply drop_last_snoc. }
  subst me V. revert st Hme.
  induction lines as [|line lines IH]; intros st Hme.
  - exists st. simpl. rewrite app_nil_r, Z.add_0_r.
    repeat split; [|lia].
    symmetry. apply list_insert_id, list_lookup_lookup_total_lt, Hme.
  - unfold user_input_handler in *. cbn [for_each]. unfold bind at 1.
    rewrite user_input_handler_line_stamps by exact Hme.
    set (V1 := <[my_id st := my_timestamp st !!! my_id st + 1]> (my_timestamp st)).
    destruct (multicast_from (drop_last line) n 0 (set_my_timestamp V1 st) ltac:(lia))
      as (st1 & Hsend & HV1 & Hme1 & Hc1 & Hun1).
    unfold multicast. fold n. rewrite Hsend.
    simpl in HV1, Hme1, Hc1, Hun1.
    assert (Hme' : (my_id st1 < length (my_timestamp st1))%nat).
    { rewrite Hme1, HV1. unfold V1. rewrite length_insert. exact Hme. }
    destruct (IH st1 Hme') as (st' & Hrun & Hid & HV & Hc & Hun).
    exists st'. split; [exact Hrun|].
    rewrite Hme1, HV1 in *. split; [exact Hid|].
    assert (HV1me : V1 !!! my_id st = my_timestamp st !!! my_id st + 1)
      by (apply list_lookup_total_insert_eq, Hme).
    split.
    { rewrite HV, HV1me. unfold V1. rewrite list_insert_insert_eq.
      f_equal. cbn [length]. lia. }
    split; [rewrite Hc, Hc1; cbn [length]; lia|].
    rewrite Hun, Hun1, <- app_assoc. f_equal.
    rewrite imap_cons, concat_cons. f_equal.
    + apply map_ext. intros j. rewrite Nat.sub_0_r. simpl.
      rewrite Z.add_0_r. reflexivity.
    + f_equal. apply imap_ext. intros k l _. simpl.
      apply map_ext. intros j. rewrite Hc1, HV1me. unfold V1.
      rewrite list_insert_insert_eq. repeat first [lia | f_equal].
Qed.

End Lines.

Lemma user_input_handler_lines_witness :
  (my_id (sample_p2 1) < length (my_timestamp (sample_p2 1)))%nat
  ∧ drop_last "café" = "caf"%string
  ∧ ∃ st',
      @user_input_handler sample_helpers ["one
"; "two"]%string (sample_p2 1) = (Ret tt, st')
      ∧ my_timestamp st' = [0; 0; 2]
      ∧ message_id_counter st' = 6.
Proof.
  split; [vm_compute; lia|].
  destruct (@user_input_handler_lines sample_helpers ["one
"; "two"]%string (sample_p2 1) ltac:(vm_compute; lia)) as (st' & Hrun & HV & Hc & _ & Hlast).
  split; [exact (Hlast "caf"%string "é"%string I)|].
  exists st'. auto.
Defined.

(** *** Rounds of [ack_handler] *)

Section Rounds.
Context `{Helpers}.

Lemma ack_handler_tick_frame st :
  my_timestamp (ack_handler_tick st).2 = my_timestamp st
  ∧ has_acknowledged (ack_handler_tick st).2 = has_acknowledged st.
Proof.
  split.
  - apply ack_handler_tick_my_timestamp.
  - apply (ack_handler_tick_keeps has_acknowledged); reflexivity.
Qed.

(** X9: a round of [ack_handler] in which every entry has a destination
    of the configuration returns normally; the entries that are not
    acknowledged stay in the list, in their order, and every element the
    round puts on the queue is the packet of one of them, packed with the
    message id, the payload and the timestamp of the entry and addressed
    to its destination; the acknowledged entries leave the list and are
    not sent; the message id counter, the vector timestamp and the
    acknowledged-set are left as they are. *)
Theorem ack_handler_resends_unchanged (st : ChatProcess) :
  Forall (fun u : unack => (u.1.1.1 < length hosts)%nat) (unack_messages st) ->
  ∃ st',
    ack_handler_tick st = (Ret tt, st')
    ∧ unack_messages st' =
      filter (fun u : unack => has_acknowledged st !! (Z.of_nat u.1.1.1, u.1.1.2) = None)
        (unack_messages st)
    ∧ message_id_counter st' = message_id_counter st
    ∧ my_timestamp st' = my_timestamp st
    ∧ has_acknowledged st' = has_acknowledged st
    ∧ ∀ p, p ∈ queue st' ->
        p ∈ queue st
        ∨ ∃ dest_id message_id message message_timestamp t ip port,
            (dest_id, message_id, message, message_timestamp) ∈ unack_messages st
            ∧ has_acknowledged st !! (Z.of_nat dest_id, message_id) = None
            ∧ hosts !! dest_id = Some (ip, port)
            ∧ p = (t, pack_message (my_id st) (Some message_id) false
                        (stringify_vector_timestamp message_timestamp) message, ip, port).
Proof.
  intros Hdest.
  destruct (ack_handler_tick_resends st Hdest) as (st' & Hrun & Hun & Hc & Hq).
  destruct (ack_handler_tick_frame st) as [HV Ha]. rewrite Hrun in HV, Ha.
  exists st'. repeat split; assumption.
Qed.

(** X10: an acknowledgement stops the retransmission.  Receiving the
    acknowledgement of message [message_id] from process [sender] returns
    [False] and changes the acknowledged-set only; the next round of
    [ack_handler] drops the entries for that process and that id from the
    list, keeps the other entries that were not acknowledged, and puts
    no packet for the dropped entries on the queue. *)
Theorem acknowledgement_stops_resend (st : ChatProcess) (data : string) (sender : Z)
    (message_id : Z) (message_timestamp : list Z) (message : string) :
  unpack_message data = (sender, message_id, true, message_timestamp, message) ->
  Forall (fun u : unack => (u.1.1.1 < length hosts)%nat) (unack_messages st) ->
  ∃ st1 st2,
    unicast_receive data st = (Ret false, st1)
    ∧ st1 = set_has_acknowledged (<[(sender, message_id) := true]> (has_acknowledged st)) st
    ∧ ack_handler_tick st1 = (Ret tt, st2)
    ∧ unack_messages st2 =
      filter (fun u : unack =>
                unack_key u ≠ (sender, message_id)
                ∧ has_acknowledged st !! unack_key u = None)
        (unack_messages st)
    ∧ ∀ p, p ∈ queue st2 ->
        p ∈ queue st
        ∨ ∃ u t ip port,
            u ∈ unack_messages st
            ∧ unack_key u ≠ (sender, message_id)
            ∧ hosts !! u.1.1.1 = Some (ip, port)
            ∧ p = (t, pack_message (my_id st) (Some u.1.1.2) false
                        (stringify_vector_timestamp u.2) u.1.2, ip, port).
Proof.
  intros Hu Hdest.
  set (st1 := set_has_acknowledged (<[(sender, message_id) := true]> (has_acknowledged st)) st).
  assert (Hlook : ∀ k, has_acknowledged st1 !! k = None ↔
                       k ≠ (sender, message_id) ∧ has_acknowledged st !! k = None).
  { intros k. unfold st1. simpl. destruct (decide ((sender, message_id) = k)) as [<-|Hne].
    - rewrite lookup_insert_eq. split; [discriminate | intros [Hk _]; congruence].
    - rewrite lookup_insert_ne by exact Hne. split; [intros Hk; split; congruence | tauto]. }
  destruct (ack_handler_tick_resends st1 Hdest) as (st2 & Hrun & Hun & Hc & Hq).
  exists st1, st2.
  split; [apply (unicast_receive_ack _ _ _ _ _ _ Hu)|]. split; [reflexivity|].
  split; [exact Hrun|]. split.
  - rewrite Hun. unfold st1 at 2. simpl. apply list_filter_iff.
    intros u. apply (Hlook (unack_key u)).
  - intros p Hp. apply Hq in Hp as [Hp | (d & i & m & ts & t & ip & port & Hin & Hack & Hh & ->)].
    + left. exact Hp.
    + right. exists (d, i, m, ts), t, ip, port. simpl.
      apply Hlook in Hack as [Hne _]. auto.
Qed.

(** X11: a round of [ack_handler] in which every entry is acknowledged,
    in particular a round on the empty list, empties the list and does
    nothing else: it draws no random number, reads no clock, puts nothing
    on the queue and looks up no address. *)
Theorem ack_handler_all_acknowledged (st : ChatProcess) :
  Forall (fun u : unack => is_Some (has_acknowledged st !! unack_key u)) (unack_messages st) ->
  ack_handler_tick st = (Ret tt, set_unack_messages [] st).
Proof.
  intros Hall. unfold ack_handler_tick, bind, gets.
  assert (Hfold : ∀ us new,
    Forall (fun u : unack => is_Some (has_acknowledged st !! unack_key u)) us ->
    foldM ack_handler_step us new st = (Ret new, st)).
  { induction us as [|u us IH]; intros new Hus; cbn [foldM]; [reflexivity|].
    apply Forall_cons in Hus as [[b Hu] Hus].
    unfold bind. rewrite ack_handler_step_cases, Hu. apply IH, Hus. }
  rewrite Hfold by exact Hall. reflexivity.
Qed.

End Rounds.

Lemma ack_handler_resends_unchanged_witness :
  let st := (@user_input_handler_line sample_helpers "hello
" (sample_p2 (1 # 2))).2 in
  Forall (fun u : unack => (u.1.1.1 < length (@hosts sample_helpers))%nat) (unack_messages st)
  ∧ ∃ st',
      @ack_handler_tick sample_helpers st = (Ret tt, st')
      ∧ unack_messages st' =
        filter (fun u : unack => has_acknowledged st !! (Z.of_nat u.1.1.1, u.1.1.2) = None)
          (unack_messages st)
      ∧ message_id_counter st' = message_id_counter st.
Proof.
  intros st.
  assert (Hdest : Forall (fun u : unack => (u.1.1.1 < length (@hosts sample_helpers))%nat)
                    (unack_messages st)).
  { vm_compute. repeat constructor. }
  split; [exact Hdest|].
  destruct (@ack_handler_resends_unchanged sample_helpers st Hdest)
    as (st' & Hrun & Hun & Hc & _).
  exists st'. auto.
Defined.

Lemma acknowledgement_stops_resend_witness :
  let st := (@user_input_handler_line sample_helpers "hello
" (sample_p2 (1 # 2))).2 in
  @unpack_message sample_helpers "ack" = (0, 1, true, [], ""%string)
  ∧ map unack_key (unack_messages st) = [(0, 1); (1, 2); (2, 3)]
  ∧ ∃ st1 st2,
      @unicast_receive sample_helpers "ack" st = (Ret false, st1)
      ∧ @ack_handler_tick sample_helpers st1 = (Ret tt, st2)
      ∧ unack_messages st2 =
        filter (fun u : unack =>
                  unack_key u ≠ (0, 1) ∧ has_acknowledged st !! unack_key u = None)
          (unack_messages st).
Proof.
  intros st. split; [reflexivity|]. split; [vm_compute; reflexivity|].
  assert (Hdest : Forall (fun u : unack => (u.1.1.1 < length (@hosts sample_helpers))%nat)
                    (unack_messages st)).
  { vm_compute. repeat constructor. }
  destruct (@acknowledgement_stops_resend sample_helpers st "ack" 0 1 [] "" eq_refl Hdest)
    as (st1 & st2 & Hrecv & _ & Hrun & Hun & _).
  exists st1, st2. auto.
Defined.

Lemma ack_handler_all_acknowledged_witness :
  Forall (fun u : unack => is_Some (has_acknowledged (sample_p2 1) !! unack_key u))
    (unack_messages (sample_p2 1))
  ∧ @ack_handler_tick sample_helpers (sample_p2 1) =
    (Ret tt, set_unack_messages [] (sample_p2 1)).
Proof.
  assert (Hall : Forall (fun u : unack => is_Some (has_acknowledged (sample_p2 1) !! unack_key u))
                   (unack_messages (sample_p2 1))) by constructor.
  split; [exact Hall|].
  exact (@ack_handler_all_acknowledged sample_helpers (sample_p2 1) Hall).
Defined.

(** *** Entries that are never released *)

Lemma stale_should_remove e st : stale e st -> should_remove (my_timestamp st) e = false.
Proof.
  destruct e as [[s T] m]. unfold stale. simpl. intros [Hs Hle].
  apply not_true_is_false. intros Hall.
  rewrite forallb_forall in Hall. specialize (Hall (Z.to_nat s)).
  rewrite bool_decide_true in Hall by lia.
  assert (Hin : In (Z.to_nat s) (seq 0 (length T))) by (apply in_seq; lia).
  apply Hall, Z.eqb_eq in Hin. lia.
Qed.

Lemma stale_vt_le e st st' : vt_le st st' -> stale e st -> stale e st'.
Proof.
  intros [_ Hle] [Hs He]. split; [exact Hs|].
  specialize (Hle (Z.to_nat (sender_of e))). lia.
Qed.

Lemma scan_state q acc st : (foldM scan_step q acc st).2 = st.
Proof.
  revert acc. induction q as [|e q IH]; intros acc; cbn [foldM]; [reflexivity|].
  unfold bind.
  destruct (decide (length e.1.2 <= length (my_timestamp st))%nat) as [He|He].
  - destruct acc as [new_q removed]. rewrite scan_step_ok by exact He. apply IH.
  - rewrite scan_step_raise by lia. reflexivity.
Qed.

Lemma for_each_release_holdback_queue R :
  preserves (keeps holdback_queue) (for_each release_step R).
Proof.
  apply preserves_for_each; [typeclasses eauto|]. intros [[s T] m].
  unfold release_step, my_timestamp_at, store_my_timestamp_at, deliver.
  frame_with ltac:(reflexivity).
Qed.

(** A pass that does not complete leaves the holdback queue as it is. *)
Lemma pass_failure_queue st :
  (∀ stop, (update_holdback_queue_pass st).1 ≠ Ret stop) ->
  holdback_queue (update_holdback_queue_pass st).2 = holdback_queue st.
Proof.
  unfold update_holdback_queue_pass, bind, gets, modify, ret.
  pose proof (scan_state (holdback_queue st) ([], []) st) as Hscan.
  destruct (foldM scan_step (holdback_queue st) ([], []) st) as [[[new_q removed]|x|] st1];
    simpl in Hscan; subst st1; try reflexivity.
  pose proof (for_each_release_holdback_queue removed st) as Hrel.
  destruct (for_each release_step removed st) as [[[]|x|] st2];
    unfold keeps in Hrel; simpl in Hrel; simpl; try (intros _; exact Hrel).
  intros Hne. exfalso. apply (Hne (length removed =? 0)%nat). reflexivity.
Qed.

Section Stale.
Variable e : entry.

Lemma held_stale_ext a b :
  (holdback_queue b, my_timestamp b) = (holdback_queue a, my_timestamp a) ->
  held_stale e a -> held_stale e b.
Proof. unfold held_stale, stale. intros [= -> ->]. auto. Qed.

Lemma update_holdback_queue_pass_held_stale :
  preserves (carries (held_stale e)) update_holdback_queue_pass.
Proof.
  intros st [Hin Hst].
  pose proof (update_holdback_queue_pass_vt_le st) as Hle.
  split; [|exact (stale_vt_le _ _ _ Hle Hst)].
  destruct (update_holdback_queue_pass st) as [[stop|x|] st'] eqn:Hpass.
  - apply pass_inv in Hpass as [_ ->]. cbn [snd]. rewrite next_pass_holdback_queue.
    apply list_elem_of_filter. split; [|exact Hin].
    rewrite (stale_should_remove _ _ Hst). simpl. tauto.
  - pose proof (pass_failure_queue st) as Hq. rewrite Hpass in Hq. simpl in *.
    rewrite Hq; [exact Hin | discriminate].
  - pose proof (pass_failure_queue st) as Hq. rewrite Hpass in Hq. simpl in *.
    rewrite Hq; [exact Hin | discriminate].
Qed.

Lemma update_holdback_queue_held_stale : preserves (carries (held_stale e)) update_holdback_queue.
Proof.
  apply update_holdback_queue_preserves; [typeclasses eauto|].
  apply update_holdback_queue_pass_held_stale.
Qed.

Context `{Helpers}.

Lemma keeps_held_stale {A} (c : Self A) :
  preserves (keeps (fun st => (holdback_queue st, my_timestamp st))) c ->
  preserves (carries (held_stale e)) c.
Proof. intros Hc st. eapply keeps_carries; [|apply Hc]. apply held_stale_ext. Qed.

Lemma unicast_send_held_stale destination message msg_id is_ack timestamp :
  preserves (carries (held_stale e)) (unicast_send destination message msg_id is_ack timestamp).
Proof. apply keeps_held_stale, unicast_send_keeps; reflexivity. Qed.

Lemma step_held_stale op : preserves (carries (held_stale e)) (step op).
Proof.
  destruct op as [line|data| |]; cbn [step].
  - intros st Hst.
    destruct (decide (my_id st < length (my_timestamp st))%nat) as [Hme|Hme].
    + pose proof (user_input_handler_line_vt_le line st) as Hle.
      rewrite user_input_handler_line_stamps in * by exact Hme.
      destruct Hst as [Hin Hst]. split; [|exact (stale_vt_le _ _ _ Hle Hst)].
      pose proof (multicast_keeps holdback_queue (drop_last line)
                    ltac:(reflexivity) ltac:(reflexivity) ltac:(reflexivity)
                    ltac:(reflexivity) ltac:(reflexivity)
                    (set_my_timestamp
                       (<[my_id st := my_timestamp st !!! my_id st + 1]> (my_timestamp st)) st))
        as Hk.
      unfold keeps in Hk. rewrite Hk. exact Hin.
    + rewrite user_input_handler_line_raises by lia. exact Hst.
  - unfold unicast_receive.
    destruct (unpack_message data) as [[[[sender message_id] is_ack] ts] m].
    repeat first
      [ apply unicast_send_held_stale
      | apply update_holdback_queue_held_stale
      | frame_step_with ltac:(intros [Hin Hst]; split;
                                [simpl; try apply elem_of_app; auto | exact Hst]) ].
  - apply keeps_held_stale, ack_handler_tick_keeps; reflexivity.
  - apply keeps_held_stale, message_queue_handler_step_keeps; reflexivity.
Qed.

Lemma run_held_stale ops st : held_stale e st -> held_stale e (run ops st).
Proof.
  revert st. induction ops as [|op ops IH]; intros st Hst; cbn [run foldl].
  - exact Hst.
  - apply IH, step_held_stale, Hst.
Qed.

End Stale.

(** X12: an entry of the holdback queue whose sender is an index of its
    timestamp, not negative, and whose timestamp is not ahead of the
    vector timestamp at that index is never released: no call of
    [update_holdback_queue] and no sequence of operations of the threads
    takes it out of the queue.  An entry of the process itself that
    carries its own vector timestamp is of that kind.  The sender has to
    be named as not negative: the loop index of line 88 is never equal
    to a negative sender, so that lines 87-94 judge such an entry at
    every index by the rule for the other processes. *)
Theorem stale_entry_stays `{Helpers} (ops : list operation) (st : ChatProcess) (e : entry) :
  e ∈ holdback_queue st -> stale e st ->
  e ∈ holdback_queue (update_holdback_queue st).2
  ∧ e ∈ holdback_queue (run ops st)
  ∧ stale e (run ops st)
  ∧ (∀ (p : ChatProcess) (message : string),
       (my_id p < length (my_timestamp p))%nat ->
       stale (Z.of_nat (my_id p), my_timestamp p, message) p)
  ∧ ∀ (V : list Z) (e' : entry),
      sender_of e' < 0 ->
      should_remove V e' =
      forallb (fun i : nat => negb (e'.1.2 !!! i >? V !!! i)) (seq 0 (length e'.1.2)).
Proof.
  intros Hin Hst.
  split; [apply (update_holdback_queue_held_stale e st (conj Hin Hst))|].
  destruct (run_held_stale e ops st (conj Hin Hst)) as [Hin' Hst'].
  split; [exact Hin'|]. split; [exact Hst'|].
  split.
  - intros p message Hme. split; simpl; [lia | rewrite Nat2Z.id; lia].
  - intros V [[s T] m] Hs. simpl in *.
    induction (seq 0 (length T)) as [|i l IH]; simpl; [reflexivity|].
    rewrite bool_decide_eq_false_2 by lia. rewrite IH. reflexivity.
Qed.

Lemma stale_entry_stays_witness :
  let e : entry := (2, [0; 0; 1], "hello"%string) in
  let st := set_holdback_queue [e] (set_my_timestamp [0; 0; 1] (sample_p2 (1 # 2))) in
  e ∈ holdback_queue st ∧ stale e st
  ∧ e ∈ holdback_queue (@run sample_helpers sample_ops st).
Proof.
  intros e st.
  assert (Hin : e ∈ holdback_queue st) by left.
  assert (Hst : stale e st) by (split; [simpl; lia | vm_compute; discriminate]).
  split; [exact Hin|]. split; [exact Hst|].
  exact (proj1 (proj2 (@stale_entry_stays sample_helpers sample_ops st e Hin Hst))).
Defined.

(** *** A timestamp that is too long *)

Lemma scan_overlong e q acc st :
  e ∈ q -> overlong e st -> foldM scan_step q acc st = (Raise IndexError, st).
Proof.
  intros Hin Hlong. revert acc. induction q as [|x q IH]; intros acc.
  - apply elem_of_nil in Hin. contradiction.
  - cbn [foldM]. unfold bind.
    destruct (decide (length x.1.2 <= length (my_timestamp st))%nat) as [Hx|Hx].
    + destruct acc as [new_q removed]. rewrite scan_step_ok by exact Hx.
      apply IH. apply elem_of_cons in Hin as [-> | Hin]; [|exact Hin].
      unfold overlong in Hlong. lia.
    + rewrite scan_step_raise by lia. reflexivity.
Qed.

Lemma update_holdback_queue_overlong e st :
  held_overlong e st -> update_holdback_queue st = (Raise IndexError, st).
Proof.
  intros [Hin Hlong].
  unfold update_holdback_queue, bind at 1, gets at 1.
  cbn [update_holdback_queue_loop]. unfold bind at 1.
  unfold update_holdback_queue_pass, bind at 1, gets at 1. unfold bind at 1.
  rewrite (scan_overlong e _ _ _ Hin Hlong). reflexivity.
Qed.

#[export] Instance blocked_preorder e : PreOrder (blocked e).
Proof.
  split.
  - intros st Hst. auto.
  - intros a b c Hab Hbc Ha. destruct (Hab Ha) as [Hb Hs]. destruct (Hbc Hb) as [Hc Hs'].
    split; [exact Hc | congruence].
Qed.

Section Overlong.
Variable e : entry.
Context `{Helpers}.

Lemma keeps_blocked {A} (c : Self A) :
  preserves (keeps (fun st => (holdback_queue st, my_timestamp st, stdout st))) c ->
  preserves (blocked e) c.
Proof.
  intros Hc st. specialize (Hc st). unfold keeps in Hc. injection Hc as Hq HV Hs.
  unfold blocked, held_overlong, overlong. rewrite Hq, HV, Hs. auto.
Qed.

Lemma update_holdback_queue_blocked : preserves (blocked e) update_holdback_queue.
Proof. intros st Hst. rewrite (update_holdback_queue_overlong e st Hst). auto. Qed.

Lemma step_blocked op : preserves (blocked e) (step op).
Proof.
  destruct op as [line|data| |]; cbn [step].
  - intros st Hst.
    destruct (decide (my_id st < length (my_timestamp st))%nat) as [Hme|Hme].
    + rewrite user_input_handler_line_stamps by exact Hme.
      pose proof (multicast_keeps (fun st => (holdback_queue st, my_timestamp st, stdout st))
                    (drop_last line)
                    ltac:(reflexivity) ltac:(reflexivity) ltac:(reflexivity)
                    ltac:(reflexivity) ltac:(reflexivity)
                    (set_my_timestamp
                       (<[my_id st := my_timestamp st !!! my_id st + 1]> (my_timestamp st)) st))
        as Hk.
      unfold keeps in Hk. simpl in Hk. injection Hk as Hq HV Hs.
      destruct Hst as [Hin Hlong]. unfold held_overlong, overlong in *.
      rewrite Hq, HV, Hs, length_insert. auto.
    + rewrite user_input_handler_line_raises by lia. auto.
  - unfold unicast_receive.
    destruct (unpack_message data) as [[[[sender message_id] is_ack] ts] m].
    repeat first
      [ apply keeps_blocked, unicast_send_keeps; reflexivity
      | apply update_holdback_queue_blocked
      | frame_step_with ltac:(intros [Hin Hlong]; split; [split|];
                                [simpl; try apply elem_of_app; auto | exact Hlong
                                | reflexivity]) ].
  - apply keeps_blocked, ack_handler_tick_keeps; reflexivity.
  - apply keeps_blocked, message_queue_handler_step_keeps; reflexivity.
Qed.

End Overlong.

(** X13: one entry of the holdback queue whose timestamp has more
    entries than the vector timestamp stops all delivery: every call of
    [update_holdback_queue] raises [IndexError] in its first pass and
    leaves the object as it is, and whatever the threads do afterwards,
    the entry stays in the queue and [deliver] prints nothing more. *)
Theorem overlong_entry_blocks `{Helpers} (ops : list operation) (st : ChatProcess)
    (e : entry) :
  e ∈ holdback_queue st -> overlong e st ->
  update_holdback_queue st = (Raise IndexError, st)
  ∧ e ∈ holdback_queue (run ops st)
  ∧ stdout (run ops st) = stdout st.
Proof.
  intros Hin Hlong.
  split; [apply (update_holdback_queue_overlong e st (conj Hin Hlong))|].
  assert (Hrun : blocked e st (run ops st)).
  { clear Hin Hlong. revert st. induction ops as [|op ops IH]; intros st; cbn [run foldl].
    - reflexivity.
    - etransitivity; [apply step_blocked | apply IH]. }
  destruct (Hrun (conj Hin Hlong)) as [[Hin' _] Hs]. auto.
Qed.

Lemma overlong_entry_blocks_witness :
  let e : entry := (0, [1; 0; 0; 0], "x"%string) in
  let st := set_holdback_queue [e] (sample_p2 (1 # 2)) in
  e ∈ holdback_queue st ∧ overlong e st
  ∧ update_holdback_queue st = (Raise IndexError, st)
  ∧ stdout (@run sample_helpers sample_ops st) = stdout st.
Proof.
  intros e st.
  assert (Hin : e ∈ holdback_queue st) by left.
  assert (Hlong : overlong e st) by (vm_compute; lia).
  split; [exact Hin|]. split; [exact Hlong|].
  destruct (@overlong_entry_blocks sample_helpers sample_ops st e Hin Hlong) as (Hu & _ & Hs).
  auto.
Defined.

(** *** What the vector timestamp counts *)

Lemma printed_from_app n i out1 out2 :
  printed_from n i (out1 ++ out2) = printed_from n i out1 + printed_from n i out2.
Proof. unfold printed_from. rewrite filter_app, length_app. lia. Qed.

Lemma undelivered_count_ext i a b :
  (my_timestamp b, stdout b) = (my_timestamp a, stdout a) ->
  undelivered_count i b = undelivered_count i a.
Proof. unfold undelivered_count. intros [= -> ->]. reflexivity. Qed.

Lemma release_undelivered_count i st e :
  writable st e ->
  undelivered_count i (release st e) = undelivered_count i st.
Proof.
  intros He. unfold undelivered_count.
  rewrite release_my_timestamp_slot by exact He. rewrite release_length.
  destruct e as [[s T] m]. simpl.
  rewrite printed_from_app.
  unfold printed_from at 2. rewrite filter_cons, filter_nil. simpl.
  case_bool_decide; [rewrite decide_True by assumption | rewrite decide_False by assumption];
    simpl; lia.
Qed.

Lemma release_step_undelivered_count i e :
  preserves (keeps (undelivered_count i)) (release_step e).
Proof.
  intros st. destruct (decide (writable st e)) as [He|He].
  - rewrite release_step_ok by exact He. apply release_undelivered_count, He.
  - rewrite release_step_raise by exact He. reflexivity.
Qed.

Lemma update_holdback_queue_undelivered_count i :
  preserves (keeps (undelivered_count i)) update_holdback_queue.
Proof.
  apply update_holdback_queue_preserves; [typeclasses eauto|].
  unfold update_holdback_queue_pass, scan_step, should_remove_step, my_timestamp_at.
  repeat first [ apply release_step_undelivered_count
               | frame_step_with ltac:(reflexivity) ].
Qed.

Section Counting.
Context `{Helpers}.

Lemma keeps_undelivered_count i {A} (c : Self A) :
  preserves (keeps (fun st => (my_timestamp st, stdout st))) c ->
  preserves (keeps (undelivered_count i)) c.
Proof. intros Hc st. apply undelivered_count_ext, Hc. Qed.

Lemma step_my_id op : preserves (keeps my_id) (step op).
Proof.
  destruct op as [line|data| |]; cbn [step].
  - unfold user_input_handler_line, multicast, my_timestamp_at, store_my_timestamp_at.
    repeat first [ apply unicast_send_keeps; reflexivity
                 | frame_step_with ltac:(reflexivity) ].
  - unfold unicast_receive.
    destruct (unpack_message data) as [[[[sender message_id] is_ack] ts] m].
    repeat first [ apply unicast_send_keeps; reflexivity
                 | apply update_holdback_queue_keeps; reflexivity
                 | frame_step_with ltac:(reflexivity) ].
  - apply ack_handler_tick_keeps; reflexivity.
  - apply message_queue_handler_step_keeps; reflexivity.
Qed.

Lemma step_undelivered_count i op st :
  (my_id st < length (my_timestamp st))%nat ->
  undelivered_count i (step op st).2 =
  undelivered_count i st
  + (if bool_decide (i = my_id st) then if is_input op then 1 else 0 else 0).
Proof.
  intros Hme.
  assert (Hsame : ∀ c : Self unit,
            preserves (keeps (undelivered_count i)) c ->
            undelivered_count i (c st).2 = undelivered_count i st + 0).
  { intros c Hc. rewrite Z.add_0_r. apply Hc. }
  destruct op as [line|data| |]; cbn [step is_input].
  - rewrite user_input_handler_line_stamps by exact Hme.
    rewrite (keeps_undelivered_count i (multicast (drop_last line))).
    2:{ apply multicast_keeps; reflexivity. }
    unfold undelivered_count. simpl. rewrite length_insert.
    case_bool_decide as Hi.
    + subst i. rewrite list_lookup_total_insert_eq by exact Hme. lia.
    + rewrite list_lookup_total_insert_ne by congruence. lia.
  - replace (if bool_decide (i = my_id st) then 0 else 0) with 0 by (case_bool_decide; reflexivity).
    apply Hsame. unfold unicast_receive.
    destruct (unpack_message data) as [[[[sender message_id] is_ack] ts] m].
    repeat first [ apply keeps_undelivered_count, unicast_send_keeps; reflexivity
                 | apply update_holdback_queue_undelivered_count
                 | frame_step_with ltac:(reflexivity) ].
  - replace (if bool_decide (i = my_id st) then 0 else 0) with 0 by (case_bool_decide; reflexivity).
    apply Hsame, keeps_undelivered_count, ack_handler_tick_keeps; reflexivity.
  - replace (if bool_decide (i = my_id st) then 0 else 0) with 0 by (case_bool_decide; reflexivity).
    apply Hsame, keeps_undelivered_count, message_queue_handler_step_keeps; reflexivity.
Qed.

Lemma inputs_cons op ops : inputs (op :: ops) = (if is_input op then 1 else 0) + inputs ops.
Proof.
  unfold inputs. rewrite filter_cons.
  destruct (is_input op); [rewrite decide_True by exact I | rewrite decide_False by (simpl; tauto)];
    simpl length; lia.
Qed.

Lemma printed_from_nonneg n i (out : list (Z * string)) :
  Forall (fun d : Z * string => 0 <= d.1) out ->
  printed_from n i out =
  Z.of_nat (length (filter (fun d : Z * string => d.1 = Z.of_nat i) out)).
Proof.
  unfold printed_from. intros Hout. f_equal. f_equal.
  induction Hout as [|d out Hd _ IH]; [reflexivity|].
  rewrite !filter_cons, IH, position_nonneg by exact Hd.
  destruct (decide (Z.to_nat d.1 = i)) as [Hi|Hi].
  - rewrite decide_True by lia. reflexivity.
  - rewrite decide_False by lia. reflexivity.
Qed.

(** X14: the vector timestamp counts deliveries.  Whatever the threads
    do, and whether or not an operation ends in an exception, the vector
    timestamp keeps its length [n], its entry [i] grows by the number of
    deliveries that [deliver] has printed for a sender that indexes
    entry [i], and the entry of the process itself grows by the number
    of lines of input as well.  A sender indexes entry [i] when it is
    [i], or when it is the negative number [i - n], which
    [self.my_timestamp[sender]] counts from the end of the list; among
    deliveries whose senders are not negative these are the deliveries
    from process [i].  For an object built by [__init__] the entry of
    [i] is therefore the number of messages delivered for [i], plus the
    number of lines sent when [i] is the process itself. *)
Theorem vector_timestamp_counts (ops : list operation) (st : ChatProcess) (i : nat) :
  (my_id st < length (my_timestamp st))%nat ->
  let n := length (my_timestamp st) in
  length (my_timestamp (run ops st)) = n
  ∧ my_timestamp (run ops st) !!! i - printed_from n i (stdout (run ops st)) =
    my_timestamp st !!! i - printed_from n i (stdout st)
    + (if bool_decide (i = my_id st) then inputs ops else 0)
  ∧ (Forall (fun d : Z * string => 0 <= d.1) (stdout (run ops st)) ->
     printed_from n i (stdout (run ops st)) =
     Z.of_nat (length (filter (fun d : Z * string => d.1 = Z.of_nat i)
                         (stdout (run ops st))))).
Proof.
  intros Hme n.
  assert (Hrun : length (my_timestamp (run ops st)) = n
                 ∧ undelivered_count i (run ops st) =
                   undelivered_count i st
                   + (if bool_decide (i = my_id st) then inputs ops else 0)).
  { subst n. revert st Hme. induction ops as [|op ops IH]; intros st Hme.
    - split; [reflexivity|]. unfold inputs. simpl. case_bool_decide; lia.
    - change (run (op :: ops) st) with (run ops (step op st).2).
      pose proof (step_my_id op st) as Hid. unfold keeps in Hid.
      pose proof (step_vt_le op st) as [Hlen _].
      destruct (IH (step op st).2) as [IHlen IHcount];
        [rewrite Hid, Hlen; exact Hme|].
      split; [congruence|].
      rewrite IHcount, (step_undelivered_count i op st Hme), Hid, inputs_cons.
      destruct (bool_decide (i = my_id st)); lia. }
  destruct Hrun as [Hlen Hcount].
  split; [exact Hlen|]. split; [|apply printed_from_nonneg].
  unfold undelivered_count in Hcount. rewrite Hlen in Hcount. exact Hcount.
Qed.

End Counting.

Lemma vector_timestamp_counts_witness :
  (my_id (sample_p2 (1 # 2)) < length (my_timestamp (sample_p2 (1 # 2))))%nat
  ∧ ∀ i : nat,
      my_timestamp (@run sample_helpers sample_ops (sample_p2 (1 # 2))) !!! i
      - printed_from 3 i (stdout (@run sample_helpers sample_ops (sample_p2 (1 # 2)))) =
      my_timestamp (sample_p2 (1 # 2)) !!! i - printed_from 3 i (stdout (sample_p2 (1 # 2)))
      + (if bool_decide (i = my_id (sample_p2 (1 # 2))) then inputs sample_ops else 0).
Proof.
  assert (Hme : (my_id (sample_p2 (1 # 2)) < length (my_timestamp (sample_p2 (1 # 2))))%nat)
    by (vm_compute; lia).
  split; [exact Hme|].
  intros i.
  exact (proj1 (proj2 (@vector_timestamp_counts sample_helpers sample_ops
                         (sample_p2 (1 # 2)) i Hme))).
Defined.

(** *** [main.py]: sending *)

Section MainSends.
Context `{Main.Helpers}.

Lemma main_unicast_send_out_of_range destination message is_ack ack_message_id st :
  (length Main.hosts <= destination)%nat ->
  Main.unicast_send destination message is_ack ack_message_id st = (Raise IndexError, st).
Proof.
  intros Hd. unfold Main.unicast_send, index, bind at 1.
  rewrite (lookup_ge_None_2 _ _ Hd). reflexivity.
Qed.

Lemma main_unicast_send_ack_frame destination ack_message_id st :
  let r := Main.unicast_send destination "" true ack_message_id st in
  (r.1 = Ret tt ∨ r.1 = Raise IndexError)
  ∧ ((destination < length Main.hosts)%nat -> r.1 = Ret tt)
  ∧ Main.my_ID r.2 = Main.my_ID st
  ∧ Main.message_id r.2 = Main.message_id st
  ∧ Main.has_received r.2 = Main.has_received st
  ∧ Main.has_acknowledged r.2 = Main.has_acknowledged st
  ∧ Main.unack_messages r.2 = Main.unack_messages st.
Proof.
  cbv zeta. unfold Main.unicast_send, index, bind at 1 3 5 7 9 11 13.
  destruct (Main.hosts !! destination) as [[ip port]|] eqn:Hhost.
  - simpl. unfold Main.random_random, Main.sock_sendto, bind, gets, modify, ret. simpl.
    destruct (Qle_bool _ _); simpl; repeat split; auto.
  - simpl. repeat split; auto.
    intros Hd. apply lookup_ge_None_1 in Hhost. lia.
Qed.

Lemma main_unicast_send_new_frame destination message st :
  (destination < length Main.hosts)%nat ->
  ∃ st',
    Main.unicast_send destination message false 0 st = (Ret tt, st')
    ∧ Main.my_ID st' = Main.my_ID st
    ∧ Main.message_id st' = Main.message_id st + 1
    ∧ Main.has_received st' = Main.has_received st
    ∧ Main.has_acknowledged st' = Main.has_acknowledged st
    ∧ Main.unack_messages st' =
      Main.unack_messages st ++ [(Main.my_ID st, Main.message_id st + 1, message)].
Proof.
  intros Hd. unfold Main.unicast_send, index, bind at 1.
  destruct (lookup_lt_is_Some_2 Main.hosts destination Hd) as [[ip port] ->].
  simpl. unfold Main.random_random, Main.sock_sendto, bind, gets, modify, ret. simpl.
  destruct (Qle_bool _ _); eexists; (split; [reflexivity|]); simpl; auto.
Qed.

Lemma main_multicast_from message k a st :
  (a + k <= length Main.hosts)%nat ->
  ∃ st',
    for_each (fun id => Main.unicast_send id message false 0) (seq a k) st = (Ret tt, st')
    ∧ Main.my_ID st' = Main.my_ID st
    ∧ Main.message_id st' = Main.message_id st + Z.of_nat k
    ∧ Main.has_received st' = Main.has_received st
    ∧ Main.has_acknowledged st' = Main.has_acknowledged st
    ∧ Main.unack_messages st' =
      Main.unack_messages st
      ++ map (fun j : nat => (Main.my_ID st, Main.message_id st + Z.of_nat (S j), message))
           (seq 0 k).
Proof.
  revert a st. induction k as [|k IH]; intros a st Hk; cbn [seq for_each].
  - exists st. simpl. rewrite Z.add_0_r, app_nil_r. repeat split; reflexivity.
  - destruct (main_unicast_send_new_frame a message st ltac:(lia))
      as (st1 & Hsend & Hme1 & Hid1 & Hrec1 & Hack1 & Hun1).
    destruct (IH (S a) st1 ltac:(lia)) as (st' & Hrun & Hme & Hid & Hrec & Hack & Hun).
    exists st'. split; [unfold bind; rewrite Hsend; exact Hrun|].
    split; [congruence|]. split; [rewrite Hid, Hid1; lia|].
    split; [congruence|]. split; [congruence|].
    rewrite Hun, Hun1, Hme1, Hid1, <- app_assoc. f_equal. cbn [map app]. f_equal.
    rewrite <- seq_shift, map_map. apply map_ext. intros j.
    replace (Main.message_id st + 1 + Z.of_nat (S j))
      with (Main.message_id st + Z.of_nat (S (S j))) by lia.
    reflexivity.
Qed.

(** X15: [Main.multicast] returns for every message.  It takes one new
    message id for every process of the configuration and appends one
    record for each to the list of the unacknowledged sends; every record
    carries the id of the sending process itself, not of the process the
    copy goes to.  The two sets are left as they are. *)
Theorem main_multicast_records (message : string) (st : Main.Main) :
  ∃ st',
    Main.multicast message st = (Ret tt, st')
    ∧ Main.unack_messages st' = Main.unack_messages st ++ main_records st message
    ∧ Main.message_id st' = Main.message_id st + Z.of_nat (length Main.hosts)
    ∧ Main.my_ID st' = Main.my_ID st
    ∧ Main.has_received st' = Main.has_received st
    ∧ Main.has_acknowledged st' = Main.has_acknowledged st.
Proof.
  destruct (main_multicast_from message (length Main.hosts) 0 st ltac:(lia))
    as (st' & Hrun & Hme & Hid & Hrec & Hack & Hun).
  exists st'. unfold Main.multicast, main_records. auto 10.
Qed.

End MainSends.

(** *** [main.py]: receiving *)

Section MainReceives.
Context `{Main.Helpers}.

Lemma main_unicast_receive_silent source data st :
  Main.has_received st = ∅ ->
  let r := Main.unicast_receive source data st in
  Main.has_received r.2 = ∅
  ∧ ((∃ sender, r.1 = Ret (sender, None)) ∨ r.1 = Raise IndexError)
  ∧ (main_answerable data -> ∃ sender, r.1 = Ret (sender, None)).
Proof.
  intros Hempty. cbv zeta. unfold main_answerable, Main.unicast_receive.
  destruct (Main.unpack_message data) as [[[sender message_id] is_ack] message].
  destruct is_ack; simpl.
  - split; [exact Hempty|]. split; [left|intros _]; exists sender; reflexivity.
  - pose proof (main_unicast_send_ack_frame sender message_id st)
      as (Hout & Hin & _ & _ & Hrec & _ & _).
    unfold bind, gets, modify, ret.
    destruct (Main.unicast_send sender "" true message_id st) as [[[]|e|] st1];
      simpl in Hout, Hin, Hrec; simpl.
    + rewrite Hrec, Hempty, lookup_empty. simpl. rewrite Hrec.
      split; [exact Hempty|]. split; [left|intros _]; exists sender; reflexivity.
    + split; [congruence|]. destruct e. split; [right; reflexivity|].
      intros [?|Hs]; [discriminate|]. specialize (Hin Hs). discriminate.
    + destruct Hout; discriminate.
Qed.

(** X16: the receiving loop of [main.py] prints nothing.  From an object
    whose received-set is empty, as the class creates it, whatever
    datagrams arrive, [process_message_in] adds nothing to what it has
    printed and the received-set stays empty: [unicast_receive] only hands
    out a message whose pair is in the received-set already, and only
    then puts the pair in.  The loop goes through all the datagrams when
    each is an acknowledgement or is of a process of the configuration;
    the only other end is the [IndexError] of the acknowledgement sent to
    a process that is not. *)
Theorem main_process_message_in_prints_nothing (datas : list string)
    (printed : list (nat * string)) (st : Main.Main) :
  Main.has_received st = ∅ ->
  let r := Main.process_message_in datas printed st in
  Main.has_received r.2 = ∅
  ∧ (r.1 = Ret printed ∨ r.1 = Raise IndexError)
  ∧ (Forall main_answerable datas -> r.1 = Ret printed).
Proof.
  cbv zeta. revert st. induction datas as [|data datas IH]; intros st Hempty;
    cbn [Main.process_message_in].
  - simpl. auto.
  - unfold bind, gets, Main.deliver.
    pose proof (main_unicast_receive_silent (Main.my_ID st) data st Hempty)
      as (Hrec & Hout & Hin).
    cbv zeta in Hrec, Hout, Hin.
    destruct (Main.unicast_receive (Main.my_ID st) data st) as [[[sender message]|e|] st1];
      simpl in Hrec, Hout, Hin.
    + assert (message = None) as ->.
      { destruct Hout as [[s Hs]|Hs]; [inversion Hs; reflexivity | discriminate]. }
      destruct (IH st1 Hrec) as (Hrec' & Hout' & Hin').
      split; [exact Hrec'|]. split; [exact Hout'|].
      intros Hall. apply Hin'. eapply Forall_inv_tail, Hall.
    + simpl. split; [exact Hrec|]. destruct e. split; [right; reflexivity|].
      intros Hall. apply Forall_inv in Hall. destruct (Hin Hall) as [s Hs]. discriminate.
    + destruct Hout as [[s Hs]|Hs]; discriminate.
Qed.

Lemma main_unicast_receive_remote source data st :
  main_remote st data -> main_no_own_ack st ->
  let st' := (Main.unicast_receive source data st).2 in
  Main.my_ID st' = Main.my_ID st
  ∧ Main.unack_messages st' = Main.unack_messages st
  ∧ main_no_own_ack st'.
Proof.
  unfold main_remote, main_no_own_ack. cbv zeta. unfold Main.unicast_receive.
  destruct (Main.unpack_message data) as [[[sender message_id] is_ack] message].
  simpl. intros Hremote Hno. destruct is_ack; simpl.
  - split; [reflexivity|]. split; [reflexivity|].
    intros k Hk. destruct (decide (k = (sender, message_id))) as [->|Hne].
    + exact Hremote.
    + rewrite lookup_insert_ne in Hk by congruence. apply Hno, Hk.
  - pose proof (main_unicast_send_ack_frame sender message_id st)
      as (_ & _ & Hme & _ & _ & Hack & Hun).
    unfold bind, gets, modify, ret.
    destruct (Main.unicast_send sender "" true message_id st) as [[[]|e|] st1];
      simpl in Hme, Hack, Hun; simpl.
    + destruct (Main.has_received st1 !! (sender, message_id)); simpl;
        rewrite Hme, Hun, Hack; auto.
    + rewrite Hme, Hun, Hack; auto.
    + rewrite Hme, Hun, Hack; auto.
Qed.

(** X17: the acknowledgements of the other processes match no record of
    [main.py].  [unicast_send] records a send under the id of the process
    itself, [unicast_receive] registers an acknowledgement under the id of
    the process that sent it.  When the records are the process's own and
    no acknowledgement is registered under its id, then after any
    datagrams of other processes have gone through [process_message_in]
    the records are the same and none of them is found in the
    acknowledged-set. *)
Theorem main_remote_acknowledgements_match_nothing (datas : list string)
    (printed : list (nat * string)) (st : Main.Main) :
  main_own_records st -> main_no_own_ack st -> Forall (main_remote st) datas ->
  let st' := (Main.process_message_in datas printed st).2 in
  Main.unack_messages st' = Main.unack_messages st
  ∧ Forall (fun u => Main.has_acknowledged st' !! main_key u = None) (Main.unack_messages st').
Proof.
  cbv zeta. intros Hown Hno Hall.
  assert (Hinv : let st' := (Main.process_message_in datas printed st).2 in
            Main.my_ID st' = Main.my_ID st
            ∧ Main.unack_messages st' = Main.unack_messages st
            ∧ main_no_own_ack st').
  { clear Hown. cbv zeta. revert printed st Hno Hall.
    induction datas as [|data datas IH]; intros printed st Hno Hall;
      cbn [Main.process_message_in].
    - simpl. auto.
    - unfold bind, gets, Main.deliver.
      pose proof (main_unicast_receive_remote (Main.my_ID st) data st
                    (Forall_inv Hall) Hno) as (Hme & Hun & Hno1).
      cbv zeta in Hme, Hun, Hno1.
      destruct (Main.unicast_receive (Main.my_ID st) data st) as [[[sender message]|e|] st1];
        simpl in Hme, Hun, Hno1; simpl; [|auto|auto].
      assert (Hall1 : Forall (main_remote st1) datas).
      { apply Forall_inv_tail in Hall. unfold main_remote in *. rewrite Hme. exact Hall. }
      destruct message as [m|].
      + destruct (IH (printed ++ [(sender, m)]) st1 Hno1 Hall1) as (Hme' & Hun' & Hno').
        split; [congruence|]. split; [congruence | exact Hno'].
      + destruct (IH printed st1 Hno1 Hall1) as (Hme' & Hun' & Hno').
        split; [congruence|]. split; [congruence | exact Hno']. }
  cbv zeta in Hinv. destruct Hinv as (Hme & Hun & Hno').
  split; [exact Hun|]. rewrite Hun.
  unfold main_own_records in Hown. rewrite Forall_forall in Hown |- *.
  intros u Hu. apply eq_None_not_Some. intros Hsome.
  apply (Hno' _ Hsome). unfold main_key. simpl. rewrite Hme. apply Hown, Hu.
Qed.

End MainReceives.

(** *** [main.py]: the rounds of [process_ack] *)

Section MainRounds.
Context `{Main.Helpers}.

Lemma main_process_ack_for_acknowledged fuel i new st :
  Forall (fun u => is_Some (Main.has_acknowledged st !! main_key u)) (Main.unack_messages st) ->
  (length (Main.unack_messages st) - i < fuel)%nat ->
  Main.process_ack_for fuel i new st = (Ret new, st).
Proof.
  intros Hall. revert i. induction fuel as [|fuel IH]; intros i Hfuel; [lia|].
  cbn [Main.process_ack_for]. unfold bind at 1, gets at 1.
  destruct (Main.unack_messages st !! i) as [[[dest_id message_id] message]|] eqn:Hi;
    [|reflexivity].
  unfold bind at 1, gets at 1.
  rewrite Forall_forall in Hall.
  destruct (Hall _ (list_elem_of_lookup_2 _ _ _ Hi)) as [b Hb].
  unfold main_key in Hb. simpl in Hb. rewrite Hb.
  apply IH. apply lookup_lt_Some in Hi. lia.
Qed.

(** X18: a round of [Main.process_ack] over records that are all
    acknowledged ends, sends nothing and leaves the list of the
    unacknowledged sends empty. *)
Theorem main_process_ack_all_acknowledged (fuel : nat) (st : Main.Main) :
  Forall (fun u => is_Some (Main.has_acknowledged st !! main_key u)) (Main.unack_messages st) ->
  (length (Main.unack_messages st) < fuel)%nat ->
  Main.process_ack_tick fuel st = (Ret tt, Main.set_unack_messages [] st).
Proof.
  intros Hall Hfuel. unfold Main.process_ack_tick, bind.
  rewrite main_process_ack_for_acknowledged by (auto; lia). reflexivity.
Qed.

Lemma main_process_ack_for_stuck fuel i j new st :
  Main.hosts ≠ [] -> main_no_early_ack st ->
  (i <= j)%nat ->
  (∃ u, Main.unack_messages st !! j = Some u
        ∧ Main.has_acknowledged st !! main_key u = None) ->
  (Main.process_ack_for fuel i new st).1 = OutOfFuel.
Proof.
  intros Hhosts. revert i j new st.
  induction fuel as [|fuel IH]; intros i j new st Hearly Hij (u & Hj & Hu); [reflexivity|].
  cbn [Main.process_ack_for]. unfold bind at 1, gets at 1.
  destruct (Main.unack_messages st !! i) as [[[dest_id message_id] message]|] eqn:Hi.
  2:{ apply lookup_ge_None_1 in Hi. apply lookup_lt_Some in Hj. lia. }
  unfold bind at 1, gets at 1.
  destruct (Main.has_acknowledged st !! (dest_id, message_id)) as [b|] eqn:Hack.
  - apply (IH (S i) j); [exact Hearly| |eauto].
    destruct (decide (i = j)) as [->|]; [|lia].
    rewrite Hj in Hi. injection Hi as ->. unfold main_key in Hu. simpl in Hu. congruence.
  - unfold bind at 1.
    destruct (main_multicast_from message (length Main.hosts) 0 st ltac:(lia))
      as (st' & Hrun & Hme & Hid & Hrec & Hack' & Hun).
    fold (main_records st message) in Hun.
    change (Main.multicast message st) with
      (for_each (fun id => Main.unicast_send id message false 0)
         (seq 0 (length Main.hosts)) st).
    rewrite Hrun.
    assert (Hn : (0 < length Main.hosts)%nat) by (destruct Main.hosts; [congruence | simpl; lia]).
    apply (IH (S i) (length (Main.unack_messages st) + (length Main.hosts - 1))%nat).
    + intros k Hk. rewrite Hack' in Hk. specialize (Hearly k Hk). lia.
    + apply lookup_lt_Some in Hi. lia.
    + exists (Main.my_ID st, Main.message_id st + Z.of_nat (length Main.hosts), message).
      split.
      * rewrite Hun, lookup_app_r by lia.
        replace (length (Main.unack_messages st) + (length Main.hosts - 1)
                 - length (Main.unack_messages st))%nat
          with (length Main.hosts - 1)%nat by lia.
        unfold main_records. rewrite list_lookup_fmap, lookup_seq_lt by lia. simpl.
        repeat f_equal. lia.
      * rewrite Hack'. apply eq_None_not_Some. intros Hsome.
        specialize (Hearly _ Hsome). unfold main_key in Hearly. simpl in Hearly. lia.
Qed.

(** X19: a round of [Main.process_ack] that has one record to resend
    never ends.  The resend goes through [multicast], which appends a
    record for every process to the list the loop runs over; the new
    records carry message ids that have not been used, so that none of
    them is acknowledged and each is resent in its turn.  This holds
    whenever the configuration names a process and no acknowledgement is
    registered for a message id that has not been used. *)
Theorem main_process_ack_never_ends (fuel : nat) (st : Main.Main) (u : nat * Z * string) :
  Main.hosts ≠ [] -> main_no_early_ack st ->
  u ∈ Main.unack_messages st -> Main.has_acknowledged st !! main_key u = None ->
  (Main.process_ack_tick fuel st).1 = OutOfFuel.
Proof.
  intros Hhosts Hearly Hin Hu.
  apply list_elem_of_lookup_1 in Hin as [j Hj].
  pose proof (main_process_ack_for_stuck fuel 0 j [] st Hhosts Hearly ltac:(lia)
                ltac:(eauto)) as Hstuck.
  unfold Main.process_ack_tick, bind.
  destruct (Main.process_ack_for fuel 0 [] st) as [o st']. simpl in Hstuck. subst o.
  reflexivity.
Qed.

End MainRounds.

Lemma main_sample_sent_fields :
  Main.unack_messages main_sample_sent = [(0%nat, 1, "hi"%string); (0%nat, 2, "hi"%string)]
  ∧ Main.has_acknowledged main_sample_sent = ∅
  ∧ Main.message_id main_sample_sent = 2.
Proof. repeat split; vm_compute; reflexivity. Qed.

Lemma main_process_message_in_prints_nothing_witness :
  Main.has_received main_sample = ∅
  ∧ Forall (@main_answerable main_sample_helpers) ["A"; "B"]%string
  ∧ (@Main.process_message_in main_sample_helpers ["A"; "B"]%string [] main_sample).1 = Ret [].
Proof.
  assert (Hempty : Main.has_received main_sample = ∅) by reflexivity.
  assert (Hall : Forall (@main_answerable main_sample_helpers) ["A"; "B"]%string).
  { repeat constructor; right; vm_compute; lia. }
  split; [exact Hempty|]. split; [exact Hall|].
  exact (proj2 (proj2 (@main_process_message_in_prints_nothing main_sample_helpers
                         ["A"; "B"]%string [] main_sample Hempty)) Hall).
Defined.

Lemma main_remote_acknowledgements_match_nothing_witness :
  main_own_records main_sample_sent
  ∧ main_no_own_ack main_sample_sent
  ∧ Forall (@main_remote main_sample_helpers main_sample_sent) ["B"; "A"]%string
  ∧ Forall (fun u =>
       Main.has_acknowledged
         (@Main.process_message_in main_sample_helpers ["B"; "A"]%string [] main_sample_sent).2
         !! main_key u = None)
      (Main.unack_messages
         (@Main.process_message_in main_sample_helpers ["B"; "A"]%string [] main_sample_sent).2).
Proof.
  destruct main_sample_sent_fields as (Hun & Hack & _).
  assert (Hown : main_own_records main_sample_sent).
  { unfold main_own_records. rewrite Hun. repeat constructor. }
  assert (Hno : main_no_own_ack main_sample_sent).
  { intros k Hk. rewrite Hack, lookup_empty in Hk. destruct (is_Some_None Hk). }
  assert (Hall : Forall (@main_remote main_sample_helpers main_sample_sent) ["B"; "A"]%string).
  { repeat constructor; vm_compute; discriminate. }
  split; [exact Hown|]. split; [exact Hno|]. split; [exact Hall|].
  exact (proj2 (@main_remote_acknowledgements_match_nothing main_sample_helpers
                  ["B"; "A"]%string [] main_sample_sent Hown Hno Hall)).
Defined.

Lemma main_process_ack_all_acknowledged_witness :
  let st := Main.set_has_acknowledged {[ (0%nat, 1) := true; (0%nat, 2) := true ]}
              main_sample_sent in
  Forall (fun u => is_Some (Main.has_acknowledged st !! main_key u)) (Main.unack_messages st)
  ∧ (length (Main.unack_messages st) < 3)%nat
  ∧ @Main.process_ack_tick main_sample_helpers 3 st = (Ret tt, Main.set_unack_messages [] st).
Proof.
  intros st.
  assert (Hall : Forall (fun u => is_Some (Main.has_acknowledged st !! main_key u))
                   (Main.unack_messages st)).
  { change (Main.unack_messages st) with (Main.unack_messages main_sample_sent).
    rewrite (proj1 main_sample_sent_fields).
    repeat constructor; eexists; vm_compute; reflexivity. }
  assert (Hlen : (length (Main.unack_messages st) < 3)%nat) by (vm_compute; lia).
  split; [exact Hall|]. split; [exact Hlen|].
  exact (@main_process_ack_all_acknowledged main_sample_helpers 3 st Hall Hlen).
Defined.

Lemma main_process_ack_never_ends_witness :
  @Main.hosts main_sample_helpers ≠ []
  ∧ main_no_early_ack main_sample_sent
  ∧ (0%nat, 1, "hi"%string) ∈ Main.unack_messages main_sample_sent
  ∧ Main.has_acknowledged main_sample_sent !! main_key (0%nat, 1, "hi"%string) = None
  ∧ (@Main.process_ack_tick main_sample_helpers 5 main_sample_sent).1 = OutOfFuel.
Proof.
  destruct main_sample_sent_fields as (Hun & Hack & _).
  assert (Hhosts : @Main.hosts main_sample_helpers ≠ []) by discriminate.
  assert (Hearly : main_no_early_ack main_sample_sent).
  { intros k Hk. rewrite Hack, lookup_empty in Hk. destruct (is_Some_None Hk). }
  assert (Hin : (0%nat, 1, "hi"%string) ∈ Main.unack_messages main_sample_sent).
  { rewrite Hun. left. }
  assert (Hu : Main.has_acknowledged main_sample_sent !! main_key (0%nat, 1, "hi"%string)
               = None).
  { rewrite Hack. apply lookup_empty. }
  split; [exact Hhosts|]. split; [exact Hearly|]. split; [exact Hin|]. split; [exact Hu|].
  exact (@main_process_ack_never_ends main_sample_helpers 5 main_sample_sent _
           Hhosts Hearly Hin Hu).
Defined.
